(** * Reliability gateway: circuit breaker, router, retry client, stream relay

    Shallow embedding of the reliability layer of the Langdock LLM gateway.
    The repository carries the layer in two variants:

    - the TypeScript milestones (M3 retry/backoff, M4 circuit breaker and
      failover, M6 streaming), embedded in [Module Ts] and [Module Stream];
    - the Go implementation guide (circuit_breaker.go, client.go, router.go,
      orchestrator.go), embedded in [Module Go]; its validator and HTTP
      handler are in [Module Api];
    - the streaming part of the TypeScript mock provider (M1), in
      [Module Mock].

    Conventions.  JavaScript numbers that hold counters and millisecond
    timestamps are integers ([Z]); Go [int] and [time.Duration] values are [Z]
    as well (nanoseconds for durations).  [Date.now()] / [time.Now()] is an
    explicit clock.  The random source and the upstream HTTP exchange are
    read from an environment indexed by the number of draws made so far.
    The backoff computations are carried out in IEEE 754 doubles
    ([Module Float]).  A string is the sequence of the bytes of its UTF-8
    encoding.  Log messages and error message texts are not modelled; the
    only ghost state is the list of attempts and sleeps a call performs. *)

From Stdlib Require Import ZArith QArith Qround Qpower Qreduction Lia Lqa Bool.
From stdpp Require Import base strings list gmap.

#[local] Set Warnings "-register-all".
Local Open Scope Z_scope.

(** ** IEEE 754 double precision

    JavaScript numbers and Go [float64] values.  A finite double is held as
    the rational it denotes; arithmetic is the exact operation followed by
    rounding to the nearest double, ties to the even significand.  The sign
    of zero is not kept: no operation of the code tells the two zeros
    apart. *)

Module Float.

Inductive float :=
  | Finite (q : Q)
  | Infinity (negative : bool)
  | NaN.

(** The integer [k] with [2^k <= q < 2^(k+1)], for a positive [q]. *)
Definition ilog2 (q : Q) : Z :=
  let k := Z.log2 (Qnum q) - Z.log2 (Zpos (Qden q)) in
  if Qle_bool (2 ^ k) q then k else k - 1.

(** The nearest integer, a tie going to the even one. *)
Definition rne (x : Q) : Z :=
  let f := Qfloor x in
  match (x - inject_Z f ?= 1 # 2)%Q with
  | Lt => f
  | Gt => f + 1
  | Eq => if Z.even f then f else f + 1
  end.

(** The exponent of the unit in the last place of the doubles around a
    positive [q]: 53 significant bits, and the subnormal spacing [2^-1074]
    at the bottom. *)
Definition ulpExponent (q : Q) : Z := Z.max (-1074) (ilog2 q - 52).

(** The multiple of the unit in the last place nearest to a positive [q]. *)
Definition nearest (q : Q) : Q :=
  (inject_Z (rne (q / 2 ^ ulpExponent q)) * 2 ^ ulpExponent q)%Q.

(** Rounding of an exact result to a double; what rounds to [2^1024] or
    beyond overflows to an infinity. *)
Definition round (q : Q) : float :=
  match (q ?= 0)%Q with
  | Eq => Finite 0
  | Gt => if Qle_bool (2 ^ 1024) (nearest q) then Infinity false
          else Finite (Qred (nearest q))
  | Lt => if Qle_bool (2 ^ 1024) (nearest (- q)) then Infinity true
          else Finite (Qred (- nearest (- q)))
  end.

(** Conversion of an integer: [float64(n)] in Go, a numeric literal or an
    integer-valued number in JavaScript. *)
Definition ofZ (z : Z) : float := round (inject_Z z).

Definition opp (x : float) : float :=
  match x with
  | Finite q => Finite (Qred (- q))
  | Infinity s => Infinity (negb s)
  | NaN => NaN
  end.

Definition add (x y : float) : float :=
  match x, y with
  | NaN, _ | _, NaN => NaN
  | Finite a, Finite b => round (a + b)
  | Infinity s, Infinity t => if Bool.eqb s t then Infinity s else NaN
  | Infinity s, Finite _ | Finite _, Infinity s => Infinity s
  end.

Definition sub (x y : float) : float := add x (opp y).

Definition mul (x y : float) : float :=
  match x, y with
  | NaN, _ | _, NaN => NaN
  | Finite a, Finite b => round (a * b)
  | Infinity s, Infinity t => Infinity (xorb s t)
  | Infinity s, Finite a | Finite a, Infinity s =>
      match (a ?= 0)%Q with
      | Eq => NaN
      | Gt => Infinity s
      | Lt => Infinity (negb s)
      end
  end.

(** [x < y]; false when either is NaN. *)
Definition ltb (x y : float) : bool :=
  match x, y with
  | NaN, _ | _, NaN => false
  | Finite a, Finite b => negb (Qle_bool b a)
  | Infinity s, Infinity t => s && negb t
  | Infinity s, Finite _ => s
  | Finite _, Infinity t => negb t
  end.

(** [x <= y]; false when either is NaN. *)
Definition leb (x y : float) : bool :=
  match x, y with
  | NaN, _ | _, NaN => false
  | Finite a, Finite b => Qle_bool a b
  | Infinity s, Infinity t => s || negb t
  | Infinity s, Finite _ => s
  | Finite _, Infinity t => negb t
  end.

(** [Math.pow(2, n)] and [math.Pow(2, n)] for an integer [n]: the power
    itself, an infinity above the range and zero below it. *)
Definition pow2 (n : Z) : float := round (2 ^ n).

(** [Math.floor] *)
Definition floor (x : float) : float :=
  match x with
  | Finite q => Finite (inject_Z (Qfloor q))
  | _ => x
  end.

(** [Math.min] of two numbers *)
Definition min (x y : float) : float :=
  match x, y with
  | NaN, _ | _, NaN => NaN
  | _, _ => if ltb y x then y else x
  end.

(** [Number.MAX_SAFE_INTEGER]: up to it every integer is a double. *)
Definition maxSafeInteger : Z := 2 ^ 53 - 1.

End Float.

(** ** TypeScript variant *)

Module Ts.

(** *** src/provider/circuitBreaker.ts *)

Inductive CircuitState := closed | open.

Record CircuitBreakerConfig := {
  failureThreshold : Z;
  resetTimeout : Z
}.

(** The [name] and [logger] fields only feed log lines and are left out. *)
Record CircuitBreaker := {
  state : CircuitState;
  consecutiveFails : Z;
  lastFailure : Z;
  config : CircuitBreakerConfig
}.

Definition defaultCircuitConfig : CircuitBreakerConfig :=
  {| failureThreshold := 3; resetTimeout := 30000 |}.

(** [new CircuitBreaker(name, logger)] *)
Definition newCircuitBreaker (cfg : CircuitBreakerConfig) : CircuitBreaker :=
  {| state := closed; consecutiveFails := 0; lastFailure := 0; config := cfg |}.

(** [canExecute()]: the answer and the breaker after the call. *)
Definition canExecute (now : Z) (cb : CircuitBreaker) : bool * CircuitBreaker :=
  match state cb with
  | closed => (true, cb)
  | open =>
      let timeSinceFailure := now - lastFailure cb in
      if resetTimeout (config cb) <? timeSinceFailure
      then (true, {| state := closed; consecutiveFails := 0;
                     lastFailure := lastFailure cb; config := config cb |})
      else (false, cb)
  end.

Definition recordSuccess (cb : CircuitBreaker) : CircuitBreaker :=
  {| state := state cb; consecutiveFails := 0;
     lastFailure := lastFailure cb; config := config cb |}.

Definition recordFailure (now : Z) (cb : CircuitBreaker) : CircuitBreaker :=
  let fails := consecutiveFails cb + 1 in
  {| state := if failureThreshold (config cb) <=? fails then open else state cb;
     consecutiveFails := fails;
     lastFailure := now;
     config := config cb |}.

Definition isOpen (cb : CircuitBreaker) : bool :=
  match state cb with open => true | closed => false end.

(** *** src/provider/router.ts *)

Record Provider := {
  name : string;
  url : string;
  circuit : CircuitBreaker
}.

Definition withCircuit (p : Provider) (cb : CircuitBreaker) : Provider :=
  {| name := name p; url := url p; circuit := cb |}.

(** The router owns the provider array; a provider is referred to by its
    position, and [canExecute] mutates the circuit stored at that position. *)
Abbreviation Router := (list Provider).

Definition newRouter (openaiUrl anthropicUrl : string) : Router :=
  [ {| name := "openai"; url := openaiUrl;
       circuit := newCircuitBreaker defaultCircuitConfig |};
    {| name := "anthropic"; url := anthropicUrl;
       circuit := newCircuitBreaker defaultCircuitConfig |} ].

(** One pass of [for (const provider of ...) if (provider.circuit.canExecute())
    return provider], over the providers [ps] that start at position [i]. *)
Fixpoint firstExecutable (now : Z) (i : nat) (ps : list Provider)
  : option nat * list Provider :=
  match ps with
  | [] => (None, [])
  | p :: rest =>
      let '(ok, cb) := canExecute now (circuit p) in
      if ok then (Some i, withCircuit p cb :: rest)
      else
        let '(r, rest') := firstExecutable now (S i) rest in
        (r, withCircuit p cb :: rest')
  end.

Definition getHealthyProvider (now : Z) (r : Router) : option nat * Router :=
  firstExecutable now 0 r.

(** First loop of [getNextProvider]: providers named [currentName] set the
    flag and are skipped; the circuit is consulted only once the flag is set. *)
Fixpoint scanAfter (now : Z) (currentName : string) (foundCurrent : bool)
  (i : nat) (ps : list Provider) : option nat * list Provider :=
  match ps with
  | [] => (None, [])
  | p :: rest =>
      if String.eqb (name p) currentName then
        let '(r, rest') := scanAfter now currentName true (S i) rest in
        (r, p :: rest')
      else if foundCurrent then
        let '(ok, cb) := canExecute now (circuit p) in
        if ok then (Some i, withCircuit p cb :: rest)
        else
          let '(r, rest') := scanAfter now currentName foundCurrent (S i) rest in
          (r, withCircuit p cb :: rest')
      else
        let '(r, rest') := scanAfter now currentName foundCurrent (S i) rest in
        (r, p :: rest')
  end.

(** Second loop ("wrap around"): providers before the first one named
    [currentName]. *)
Fixpoint scanBefore (now : Z) (currentName : string) (i : nat)
  (ps : list Provider) : option nat * list Provider :=
  match ps with
  | [] => (None, [])
  | p :: rest =>
      if String.eqb (name p) currentName then (None, p :: rest)
      else
        let '(ok, cb) := canExecute now (circuit p) in
        if ok then (Some i, withCircuit p cb :: rest)
        else
          let '(r, rest') := scanBefore now currentName (S i) rest in
          (r, withCircuit p cb :: rest')
  end.

Definition getNextProvider (now : Z) (currentName : string) (r : Router)
  : option nat * Router :=
  match scanAfter now currentName false 0 r with
  | (Some i, r') => (Some i, r')
  | (None, r') => scanBefore now currentName 0 r'
  end.

(** *** src/provider/errors.ts *)

Inductive ErrorType :=
  network | timeout | server_error | rate_limit | client_error | decode.

Record ProviderError := {
  type : ErrorType;
  statusCode : option Z;
  retryable : bool;
  failover : bool
}.

Definition networkError : ProviderError :=
  {| type := network; statusCode := None; retryable := true; failover := false |}.

Definition timeoutError : ProviderError :=
  {| type := timeout; statusCode := None; retryable := true; failover := false |}.

Definition serverError (status : Z) : ProviderError :=
  {| type := server_error; statusCode := Some status;
     retryable := true; failover := false |}.

Definition rateLimitError : ProviderError :=
  {| type := rate_limit; statusCode := Some 429;
     retryable := false; failover := true |}.

Definition clientError (status : Z) : ProviderError :=
  {| type := client_error; statusCode := Some status;
     retryable := false; failover := false |}.

(** What a [catch] clause can receive: a [ProviderError] or any other [Error]
    (for which [instanceof ProviderError] is false). *)
Inductive Thrown :=
  | ThrownProviderError (e : ProviderError)
  | ThrownError.

(** *** src/provider/client.ts *)

Record RetryConfig := {
  maxAttempts : Z;
  baseDelay : Z;
  maxDelay : Z
}.

Definition defaultRetryConfig : RetryConfig :=
  {| maxAttempts := 3; baseDelay := 1000; maxDelay := 10000 |}.

(** What [fetch] and the body readers of [doRequest] deliver. *)
Inductive FetchResult :=
  | FetchAborted                       (* AbortError: the timeout fired *)
  | FetchTypeError                     (* network failure *)
  | FetchOtherError                    (* any other rejection *)
  | FetchStatus (status : Z) (content : option (option string)).
      (* response status; for a status below 400 the outcome of
         [response.json()]: [None] when it rejects, else
         [data.choices?.[0]?.message?.content] *)

Inductive Outcome :=
  | Responded (content : string)
  | Failed (t : Thrown).

Definition doRequest (f : FetchResult) : Outcome :=
  match f with
  | FetchAborted => Failed (ThrownProviderError timeoutError)
  | FetchTypeError => Failed (ThrownProviderError networkError)
  | FetchOtherError => Failed ThrownError
  | FetchStatus status body =>
      if 500 <=? status then Failed (ThrownProviderError (serverError status))
      else if status =? 429 then Failed (ThrownProviderError rateLimitError)
      else if 400 <=? status then Failed (ThrownProviderError (clientError status))
      else match body with
           | None => Failed ThrownError
           | Some None => Responded ""
           | Some (Some c) => Responded c
           end
  end.

(** Pre-jitter wait of [calculateBackoff]:
    [Math.min(baseDelay * Math.pow(2, attempt - 1), maxDelay)], each
    operation on doubles. *)
Definition backoffBase (rc : RetryConfig) (attempt : Z) : Float.float :=
  Float.min (Float.mul (Float.ofZ (baseDelay rc)) (Float.pow2 (attempt - 1)))
            (Float.ofZ (maxDelay rc)).

(** [1.0 + (Math.random() * 0.4 - 0.2)] for the sample [r], a double in
    [0, 1); the literals [0.4] and [0.2] are the doubles nearest to them. *)
Definition jitterFactor (r : Q) : Float.float :=
  Float.add (Float.Finite 1)
            (Float.sub (Float.mul (Float.Finite r) (Float.round (4 # 10)))
                       (Float.round (2 # 10))).

(** [Math.floor(wait * jitter)] *)
Definition calculateBackoff (rc : RetryConfig) (attempt : Z) (r : Q) : Float.float :=
  Float.floor (Float.mul (backoffBase rc attempt) (jitterFactor r)).

(** [setTimeout(resolve, ms)] of [sleep]: Node arms the timer for [ms]
    milliseconds when [1 <= ms <= 2^31 - 1], and for one millisecond for any
    other delay, NaN and the infinities among them; the fraction of a delay
    is dropped. *)
Definition timerDelay (ms : Float.float) : Z :=
  match ms with
  | Float.Finite q => if Qle_bool 1 q && Qle_bool q 2147483647 then Qfloor q else 1
  | _ => 1
  end.

(** The environment of one gateway process: the upstream exchange of the
    [n]-th [fetch] (how long it takes, and what it delivers) and the [n]-th
    value of [Math.random()], a double in [0, 1) given as the rational it
    denotes. *)
Record Env := {
  upstream : nat -> Z * FetchResult;
  random : nat -> Q
}.

(** Ghost record of what a call does upstream and how long it sleeps.
    [EvAttempt p k refused o]: attempt number [k] of a [callWithRetry] run
    sent a request to provider [p], with outcome [o]; [refused] tells whether
    [canExecute] would have answered false for that provider at that moment
    (its circuit open and the reset timeout not yet over).  [EvSleep ms]: a
    [sleep] whose timer runs for [ms] milliseconds. *)
Inductive Event :=
  | EvAttempt (provider : string) (attempt : Z) (refused : bool) (o : Outcome)
  | EvSleep (ms : Z).

Record World := {
  clock : Z;
  fetched : nat;
  drawn : nat;
  router : Router;
  trace : list Event
}.

Definition nthProvider (w : World) (i : nat) : option Provider := router w !! i.

Definition updCircuit (f : CircuitBreaker -> CircuitBreaker) (i : nat) (w : World)
  : World :=
  {| clock := clock w; fetched := fetched w; drawn := drawn w;
     router := alter (fun p => withCircuit p (f (circuit p))) i (router w);
     trace := trace w |}.

(** [await this.doRequest(req, provider.url)] as attempt [k] on [pname]. *)
Definition performRequest (env : Env) (pname : string) (refused : bool) (k : Z)
  (w : World) : Outcome * World :=
  let '(dt, f) := upstream env (fetched w) in
  let o := doRequest f in
  (o, {| clock := clock w + dt; fetched := S (fetched w); drawn := drawn w;
         router := router w;
         trace := trace w ++ [EvAttempt pname k refused o] |}).

(** [const wait = this.calculateBackoff(attempt); await this.sleep(wait)] *)
Definition backoffAndSleep (env : Env) (rc : RetryConfig) (attempt : Z) (w : World)
  : World :=
  let wait := calculateBackoff rc attempt (random env (drawn w)) in
  let ms := timerDelay wait in
  {| clock := clock w + ms; fetched := fetched w; drawn := S (drawn w);
     router := router w; trace := trace w ++ [EvSleep ms] |}.

Inductive RetryResult :=
  | Returned (content : string) (provider : string) (attempts : Z)
  | Threw (t : Thrown).

(** The [for] loop of [callWithRetry]; [n] iterations remain and the loop
    variable is [attempt].  Falling out of the loop throws a plain [Error]. *)
Fixpoint retryLoop (env : Env) (rc : RetryConfig) (i : nat) (pname : string)
  (n : nat) (attempt : Z) (w : World) : RetryResult * World :=
  match n with
  | O => (Threw ThrownError, w)
  | S n' =>
      let refused :=
        from_option (fun p => negb (fst (canExecute (clock w) (circuit p))))
                    false (nthProvider w i) in
      let '(o, w1) := performRequest env pname refused attempt w in
      match o with
      | Responded c =>
          (Returned c pname attempt, updCircuit recordSuccess i w1)
      | Failed t =>
          let w2 := updCircuit (recordFailure (clock w1)) i w1 in
          let giveUp :=
            match t with
            | ThrownProviderError e => failover e || negb (retryable e)
            | ThrownError => false
            end in
          if giveUp then (Threw t, w2)
          else
            let w3 := if attempt <? maxAttempts rc
                      then backoffAndSleep env rc attempt w2 else w2 in
            retryLoop env rc i pname n' (attempt + 1) w3
      end
  end.

Definition callWithRetry (env : Env) (rc : RetryConfig) (i : nat) (w : World)
  : RetryResult * World :=
  match nthProvider w i with
  | None => (Threw ThrownError, w)
  | Some p => retryLoop env rc i (name p) (Z.to_nat (maxAttempts rc)) 1 w
  end.

Inductive CallResult :=
  | CallReturned (content : string) (provider : string) (attempts : Z)
  | NoHealthyProvider              (* 'No healthy providers available' *)
  | AllAttemptsFailed (last : Thrown)   (* 'All attempts failed: ...' *)
  | OutOfFuel.

Definition withRouter (w : World) (r : Router) : World :=
  {| clock := clock w; fetched := fetched w; drawn := drawn w;
     router := r; trace := trace w |}.

(** The [while (provider)] loop of [call]. *)
Fixpoint callLoop (env : Env) (rc : RetryConfig) (fuel : nat) (i : nat)
  (totalAttempts : Z) (w : World) : CallResult * World :=
  match fuel with
  | O => (OutOfFuel, w)
  | S fuel' =>
      match callWithRetry env rc i w with
      | (Returned c pname attempts, w1) =>
          (CallReturned c pname (totalAttempts + attempts), w1)
      | (Threw t, w1) =>
          let totalAttempts' := totalAttempts + maxAttempts rc in
          let isFailover :=
            match t with
            | ThrownProviderError e => failover e
            | ThrownError => false
            end in
          if isFailover then
            let pname := from_option name "" (nthProvider w1 i) in
            match getNextProvider (clock w1) pname (router w1) with
            | (None, r') => (AllAttemptsFailed t, withRouter w1 r')
            | (Some j, r') => callLoop env rc fuel' j totalAttempts' (withRouter w1 r')
            end
          else (AllAttemptsFailed t, w1)
      end
  end.

Definition call (env : Env) (rc : RetryConfig) (fuel : nat) (w : World)
  : CallResult * World :=
  match getHealthyProvider (clock w) (router w) with
  | (None, r') => (NoHealthyProvider, withRouter w r')
  | (Some i, r') => callLoop env rc fuel i 0 (withRouter w r')
  end.

End Ts.

(** ** Go variant (implementation guide) *)

Module Go.

(** *** pkg/errors/errors.go

    One constructor per dynamic error type; the embedded [*RetryableError] /
    [*NonRetryableError] of the specific types is a field, not their type. *)
Inductive Error :=
  | RetryableError
  | NonRetryableError
  | ProviderTimeoutError (provider : string)
  | ProviderRateLimitError (provider : string)
  | CircuitBreakerOpenError (provider : string)
  | ValidationError
  | OtherError.      (* fmt.Errorf, encoding/json and context errors *)

(** *** internal/client/circuit_breaker.go *)

Inductive CircuitState := StateClosed | StateOpen | StateHalfOpen.

Record CircuitBreaker := {
  threshold : Z;
  timeout : Z;
  state : CircuitState;
  failureCount : Z;
  successCount : Z;
  lastFailureTime : Z;
  openedAt : Z
}.

Definition NewCircuitBreaker (threshold timeout : Z) : CircuitBreaker :=
  {| threshold := threshold; timeout := timeout; state := StateClosed;
     failureCount := 0; successCount := 0; lastFailureTime := 0; openedAt := 0 |}.

Definition setState (cb : CircuitBreaker) (s : CircuitState) : CircuitBreaker :=
  {| threshold := threshold cb; timeout := timeout cb; state := s;
     failureCount := failureCount cb; successCount := successCount cb;
     lastFailureTime := lastFailureTime cb; openedAt := openedAt cb |}.

(** [IsOpen()] under the breaker's mutex: the answer and the breaker after. *)
Definition IsOpen (now : Z) (cb : CircuitBreaker) : bool * CircuitBreaker :=
  match state cb with
  | StateOpen =>
      if timeout cb <? now - openedAt cb
      then (false, setState cb StateHalfOpen)
      else (true, cb)
  | _ => (false, cb)
  end.

Definition RecordSuccess (cb : CircuitBreaker) : CircuitBreaker :=
  let sc := successCount cb + 1 in
  match state cb with
  | StateHalfOpen =>
      {| threshold := threshold cb; timeout := timeout cb; state := StateClosed;
         failureCount := 0; successCount := sc;
         lastFailureTime := lastFailureTime cb; openedAt := openedAt cb |}
  | StateClosed =>
      {| threshold := threshold cb; timeout := timeout cb; state := StateClosed;
         failureCount := if 0 <? failureCount cb then failureCount cb - 1
                         else failureCount cb;
         successCount := sc;
         lastFailureTime := lastFailureTime cb; openedAt := openedAt cb |}
  | StateOpen =>
      {| threshold := threshold cb; timeout := timeout cb; state := StateOpen;
         failureCount := failureCount cb; successCount := sc;
         lastFailureTime := lastFailureTime cb; openedAt := openedAt cb |}
  end.

Definition RecordFailure (now : Z) (cb : CircuitBreaker) : CircuitBreaker :=
  let fc := failureCount cb + 1 in
  match state cb with
  | StateHalfOpen =>
      {| threshold := threshold cb; timeout := timeout cb; state := StateOpen;
         failureCount := fc; successCount := successCount cb;
         lastFailureTime := now; openedAt := now |}
  | StateClosed =>
      if threshold cb <=? fc then
        {| threshold := threshold cb; timeout := timeout cb; state := StateOpen;
           failureCount := fc; successCount := successCount cb;
           lastFailureTime := now; openedAt := now |}
      else
        {| threshold := threshold cb; timeout := timeout cb; state := StateClosed;
           failureCount := fc; successCount := successCount cb;
           lastFailureTime := now; openedAt := openedAt cb |}
  | StateOpen =>
      {| threshold := threshold cb; timeout := timeout cb; state := StateOpen;
         failureCount := fc; successCount := successCount cb;
         lastFailureTime := now; openedAt := openedAt cb |}
  end.

(** *** internal/config/config.go (the fields the engine reads) *)

Record RetryConfig := {
  MaxRetries : Z;
  BaseBackoff : Z;
  MaxBackoff : Z
}.

Record CircuitBreakerConfig := {
  Threshold : Z;
  Timeout : Z
}.

Record ProviderConfig := {
  Name : string;
  Models : list string;
  Priority : Z
}.

Record Config := {
  Retry : RetryConfig;
  CircuitBreakerCfg : CircuitBreakerConfig;
  Providers : list ProviderConfig
}.

(** *** internal/models *)

Record Request := {
  Model : string;
  PreferredProvider : string
}.

Record Response := {
  Content : string;
  RespProvider : string;
  Attempts : Z;
  TokensUsed : Z
}.

Inductive AttemptStatus := in_progress | success | failed.

Record Attempt := {
  AttemptNumber : Z;
  AttemptProvider : string;
  Status : AttemptStatus;
  ErrorType : string;
  StartedAt : Z;
  EndedAt : option Z
}.

(** *** internal/client/client.go *)

(** What the network delivers to one [SendRequest] that gets past the
    circuit check: [body] is [None] when [json.Unmarshal] fails, else what the
    adapter's [TransformResponse] makes of the parsed map ([None]: its
    "no choices" error; content and token count otherwise).  [json.Marshal]
    and [http.NewRequestWithContext] do not fail on what the adapters build
    (strings, decoded numbers, a constant URL), so they have no case here. *)
Inductive Exchange :=
  | DoError (deadlineExceeded : bool)   (* c.client.Do *)
  | ReadError                           (* io.ReadAll *)
  | Reply (status : Z) (body : option (option (string * Z))).

Definition getCircuitBreaker (cfg : Config) (provider : string)
  (cbs : gmap string CircuitBreaker) : CircuitBreaker * gmap string CircuitBreaker :=
  match cbs !! provider with
  | Some cb => (cb, cbs)
  | None =>
      let cb := NewCircuitBreaker (Threshold (CircuitBreakerCfg cfg))
                                  (Timeout (CircuitBreakerCfg cfg)) in
      (cb, <[provider := cb]> cbs)
  end.

Record World := {
  clock : Z;
  exchanged : nat;                 (* requests that reached [c.client.Do] *)
  waited : nat;
  circuitBreakers : gmap string CircuitBreaker
}.

(** [ctxDone n] tells whether the [select] of the [n]-th wait takes the
    [ctx.Done()] case, and [cancelledAfter n] how long after the start of the
    wait the context was cancelled.  [unrepresentable x] is what the
    platform's conversion of the float64 [x] to an integer yields when int64
    cannot hold [x]: Go leaves that value to the implementation. *)
Record Env := {
  exchange : nat -> Z * Exchange;  (* duration and result of the n-th exchange *)
  random : nat -> Q;               (* n-th rand.Float64() *)
  ctxDone : nat -> bool;
  cancelledAfter : nat -> Z;
  unrepresentable : Float.float -> Z
}.

Definition storeBreaker (provider : string) (cb : CircuitBreaker) (w : World) : World :=
  {| clock := clock w; exchanged := exchanged w; waited := waited w;
     circuitBreakers := <[provider := cb]> (circuitBreakers w) |}.

(** [SendRequest]: the parsed reply or the error, and the world after. *)
Definition SendRequest (cfg : Config) (env : Env) (provider : string) (w : World)
  : (option (string * Z) + Error) * World :=
  let '(cb, cbs) := getCircuitBreaker cfg provider (circuitBreakers w) in
  let '(isOpen, cb1) := IsOpen (clock w) cb in
  let w0 := {| clock := clock w; exchanged := exchanged w; waited := waited w;
               circuitBreakers := <[provider := cb1]> cbs |} in
  if isOpen then (inr (CircuitBreakerOpenError provider), w0)
  else
    let '(dt, x) := exchange env (exchanged w0) in
    let w1 := {| clock := clock w0 + dt; exchanged := S (exchanged w0);
                 waited := waited w0; circuitBreakers := circuitBreakers w0 |} in
    let fail (e : Error) :=
      (inr e, storeBreaker provider (RecordFailure (clock w1) cb1) w1) in
    match x with
    | DoError true => fail (ProviderTimeoutError provider)
    | DoError false => fail RetryableError
    | ReadError => fail RetryableError
    | Reply status body =>
        if negb (status =? 200) then
          if status =? 429 then fail (ProviderRateLimitError provider)
          else if 500 <=? status then fail RetryableError
          else fail NonRetryableError
        else match body with
             | None => fail RetryableError
             | Some parsed =>
                 (inl parsed, storeBreaker provider (RecordSuccess cb1) w1)
             end
    end.

(** *** internal/router/router.go *)

Record ProviderRouter := {
  providers : list ProviderConfig;
  modelToProvider : gmap string (list string)
}.

Definition NewProviderRouter (providers : list ProviderConfig) : ProviderRouter :=
  {| providers := providers;
     modelToProvider :=
       foldl (fun m provider =>
                foldl (fun m model =>
                         <[model := default [] (m !! model) ++ [Name provider]]> m)
                      m (Models provider))
             ∅ providers |}.

Definition SelectProvider (r : ProviderRouter) (req : Request)
  (attemptNumber : Z) (previousProvider : string) : string + Error :=
  let eligible := default [] (modelToProvider r !! Model req) in
  match eligible with
  | [] => inr OtherError
  | first :: _ =>
      if attemptNumber =? 1 then
        if negb (String.eqb (PreferredProvider req) "")
           && existsb (fun p => String.eqb p (PreferredProvider req)) eligible
        then inl (PreferredProvider req)
        else inl first
      else
        match List.find (fun p => negb (String.eqb p previousProvider)) eligible with
        | Some p => inl p
        | None => inl first
        end
  end.

Definition GetProviderConfig (r : ProviderRouter) (name : string)
  : option ProviderConfig :=
  List.find (fun p => String.eqb (Name p) name) (providers r).

(** *** internal/orchestrator/orchestrator.go *)

(** The keys of the [adapters] map built by [NewOrchestrator]. *)
Definition adapters : list string := ["openai"; "anthropic"].

Definition isRetryable (err : Error) : bool :=
  match err with
  | RetryableError => true
  | ProviderTimeoutError _ => true
  | ProviderRateLimitError _ => true
  | _ => false
  end.

(** Conversion of a float to an integer discards the fraction. *)
Definition Qtruncate (q : Q) : Z :=
  if Qle_bool 0 q then Qfloor q else Qceiling q.

(** The int64 with the bits of [z]. *)
Definition int64 (z : Z) : Z := (z + 2 ^ 63) mod 2 ^ 64 - 2 ^ 63.

(** [time.Duration(x)] for a float64 [x]. *)
Definition toDuration (unrepresentable : Float.float -> Z) (x : Float.float) : Z :=
  match x with
  | Float.Finite q =>
      let z := Qtruncate q in
      if (- 2 ^ 63 <=? z) && (z <? 2 ^ 63) then z else int64 (unrepresentable x)
  | _ => int64 (unrepresentable x)
  end.

(** Every operation is rounded on its own, as the amd64 compiler emits
    them. *)
Definition calculateBackoff (unrepresentable : Float.float -> Z) (rc : RetryConfig)
  (attemptNumber : Z) (r : Q) : Z :=
  let exp := Float.pow2 (attemptNumber - 1) in
  let backoff := Float.mul (Float.ofZ (BaseBackoff rc)) exp in
  let jitter := Float.mul (Float.mul backoff (Float.Finite r)) (Float.Finite (1 # 2)) in
  let total := Float.add backoff jitter in
  let total := if Float.ltb (Float.ofZ (MaxBackoff rc)) total
               then Float.ofZ (MaxBackoff rc) else total in
  toDuration unrepresentable total.

(** The Go type name that [fmt.Sprintf("%T", err)] prints. *)
Definition typeName (err : Error) : string :=
  match err with
  | RetryableError => "*errors.RetryableError"
  | NonRetryableError => "*errors.NonRetryableError"
  | ProviderTimeoutError _ => "*errors.ProviderTimeoutError"
  | ProviderRateLimitError _ => "*errors.ProviderRateLimitError"
  | CircuitBreakerOpenError _ => "*errors.CircuitBreakerOpenError"
  | ValidationError => "*errors.ValidationError"
  | OtherError => "*errors.errorString"
  end.

(** [executeAttempt]: the attempt record, the response or the error, and the
    world after.  [TransformRequest] of the adapters returns no error, so its
    error branch has no case; the response's provider and attempt count are
    filled in by [ExecuteRequest]. *)
Definition executeAttempt (cfg : Config) (env : Env) (r : ProviderRouter)
  (attemptNumber : Z) (provider : string) (w : World)
  : Attempt * (Response + Error) * World :=
  let attempt (st : AttemptStatus) (et : string) (ended : option Z) :=
    {| AttemptNumber := attemptNumber; AttemptProvider := provider;
       Status := st; ErrorType := et; StartedAt := clock w; EndedAt := ended |} in
  match GetProviderConfig r provider with
  | None => (attempt failed "config_error" None, inr OtherError, w)
  | Some _ =>
      if negb (existsb (String.eqb provider) adapters)
      then (attempt failed "adapter_error" None, inr OtherError, w)
      else
        match SendRequest cfg env provider w with
        | (inr err, w1) =>
            (attempt failed (typeName err) (Some (clock w1)), inr err, w1)
        | (inl None, w1) =>
            (attempt failed "response_transform_error" (Some (clock w1)),
             inr OtherError, w1)
        | (inl (Some (content, tokens)), w1) =>
            (attempt success "" (Some (clock w1)),
             inl {| Content := content; RespProvider := ""; Attempts := 0;
                    TokensUsed := tokens |}, w1)
        end
  end.

Inductive ExecError :=
  | Err (e : Error)                       (* [return nil, err] *)
  | CtxErr                                (* [return nil, ctx.Err()] *)
  | MaxRetriesExceededError (attempts : nat) (lastError : option Error).

(** The clock moves on by [d]. *)
Definition elapse (d : Z) (w : World) : World :=
  {| clock := clock w + d; exchanged := exchanged w; waited := waited w;
     circuitBreakers := circuitBreakers w |}.

(** The attempt loop of [ExecuteRequest]: [n] iterations remain, the loop
    variable is [attemptNumber]; [attempts] is the local attempt history,
    returned next to the result.  [time.After(d)] fires at once for a [d]
    that is not positive. *)
Fixpoint attemptLoop (cfg : Config) (env : Env) (r : ProviderRouter) (req : Request)
  (n : nat) (attemptNumber : Z) (lastProvider : string) (lastError : option Error)
  (attempts : list Attempt) (w : World)
  : (Response + ExecError) * list Attempt * World :=
  match n with
  | O => (inr (MaxRetriesExceededError (length attempts) lastError), attempts, w)
  | S n' =>
      match SelectProvider r req attemptNumber lastProvider with
      | inr err => (inr (Err err), attempts, w)
      | inl provider =>
          let '(attempt, res, w1) := executeAttempt cfg env r attemptNumber provider w in
          let attempts1 := attempts ++ [attempt] in
          match res with
          | inl response =>
              (inl {| Content := Content response; RespProvider := provider;
                      Attempts := attemptNumber;
                      TokensUsed := TokensUsed response |}, attempts1, w1)
          | inr err =>
              if negb (isRetryable err) then (inr (Err err), attempts1, w1)
              else if MaxRetries (Retry cfg) <=? attemptNumber then
                (inr (MaxRetriesExceededError (length attempts1) (Some err)),
                 attempts1, w1)
              else
                let waitTime :=
                  calculateBackoff (unrepresentable env) (Retry cfg) attemptNumber
                                   (random env (waited w1)) in
                if ctxDone env (waited w1) then
                  (inr CtxErr, attempts1,
                   elapse (Z.max 0 (Z.min (cancelledAfter env (waited w1)) waitTime)) w1)
                else
                  let w2 := {| clock := clock w1 + Z.max 0 waitTime;
                               exchanged := exchanged w1;
                               waited := S (waited w1);
                               circuitBreakers := circuitBreakers w1 |} in
                  attemptLoop cfg env r req n' (attemptNumber + 1) provider (Some err)
                              attempts1 w2
          end
      end
  end.

Definition ExecuteRequest (cfg : Config) (env : Env) (r : ProviderRouter)
  (req : Request) (w : World) : (Response + ExecError) * list Attempt * World :=
  attemptLoop cfg env r req (Z.to_nat (MaxRetries (Retry cfg))) 1 "" None [] w.

End Go.

(** ** Streaming relay (TypeScript, M6) *)

Module Stream.

Local Open Scope string_scope.

(** *** JavaScript values and strings *)

(** The values [JSON.parse] returns.  An object is the list of its own
    properties (duplicate keys already resolved by the parser). *)
Inductive Json :=
  | JNull
  | JBool (b : bool)
  | JNumber (q : Q)
  | JString (s : string)
  | JArray (elements : list Json)
  | JObject (properties : list (string * Json)).

(** A JavaScript expression value: [None] is [undefined]. *)
Definition JsValue := option Json.

Fixpoint property (key : string) (properties : list (string * Json)) : JsValue :=
  match properties with
  | [] => None
  | (k, v) :: rest => if String.eqb k key then Some v else property key rest
  end.

(** [v[key]] for a [v] that is neither [null] nor [undefined], for the keys
    the relay uses (the names [choices], [delta], [content] and the index 0):
    an array or a string answers the index only, numbers and booleans answer
    nothing. *)
Definition member (v : Json) (key : string) : JsValue :=
  match v with
  | JObject properties => property key properties
  | JArray elements => if String.eqb key "0" then head elements else None
  | JString (String c _) => if String.eqb key "0" then Some (JString (String c "")) else None
  | _ => None
  end.

(** One link [?.key] of an optional chain. *)
Definition optMember (v : JsValue) (key : string) : JsValue :=
  match v with
  | None | Some JNull => None
  | Some x => member x key
  end.

(** [parsed.choices?.[0]?.delta?.content]; [None] when the first, unguarded
    access throws a [TypeError] ([parsed] is [null]).  A nullish link ends
    the whole chain with [undefined]. *)
Definition contentDelta (parsed : Json) : option JsValue :=
  match parsed with
  | JNull => None
  | _ =>
      Some (match optMember (member parsed "choices") "0" with
            | None | Some JNull => None
            | Some choice =>
                match member choice "delta" with
                | None | Some JNull => None
                | Some delta => member delta "content"
                end
            end)
  end.

(** [if (content)] *)
Definition truthy (v : JsValue) : bool :=
  match v with
  | None | Some JNull => false
  | Some (JBool b) => b
  | Some (JNumber q) => negb (Qeq_bool q 0)
  | Some (JString s) => negb (String.eqb s "")
  | Some (JArray _) | Some (JObject _) => true
  end.

(** A string is the JavaScript string in UTF-8, one [ascii] per byte.  The
    line feed, the prefix [data: ] and the six positions that [slice] skips
    after it are ASCII, so they are the same bytes here as they are code
    units there. *)

(** [s.slice(n)] *)
Fixpoint slice (n : nat) (s : string) : string :=
  match n, s with
  | O, _ => s
  | S n', String _ rest => slice n' rest
  | S _, EmptyString => EmptyString
  end.

Definition utf8 (bytes : list nat) : string :=
  foldr (fun byte s => String (Ascii.ascii_of_nat byte) s) "" bytes.

(** The code points that [trim] removes, each in UTF-8: the white space and
    line terminators of ECMAScript, U+0009 to U+000D, U+0020, U+00A0, U+1680,
    U+2000 to U+200A, U+2028, U+2029, U+202F, U+205F, U+3000 and U+FEFF. *)
Definition whiteSpace : list string :=
  utf8 <$> [ [9]; [10]; [11]; [12]; [13]; [32]; [194; 160]; [225; 154; 128];
             [226; 128; 128]; [226; 128; 129]; [226; 128; 130]; [226; 128; 131];
             [226; 128; 132]; [226; 128; 133]; [226; 128; 134]; [226; 128; 135];
             [226; 128; 136]; [226; 128; 137]; [226; 128; 138];
             [226; 128; 168]; [226; 128; 169]; [226; 128; 175]; [226; 129; 159];
             [227; 128; 128]; [239; 187; 191] ]%nat.

(** [s] without the member of [spaces] it starts with, if there is one. *)
Definition dropFirst (spaces : list string) (s : string) : option string :=
  (fun space => slice (String.length space) s)
    <$> List.find (fun space => String.prefix space s) spaces.

(** At most [n] leading members of [spaces] removed. *)
Fixpoint dropLeading (spaces : list string) (n : nat) (s : string) : string :=
  match n with
  | O => s
  | S n' =>
      match dropFirst spaces s with
      | Some rest => dropLeading spaces n' rest
      | None => s
      end
  end.

Definition trimStart (s : string) : string :=
  dropLeading whiteSpace (String.length s) s.

(** The same from the other end, on the reversed string. *)
Definition trimEnd (s : string) : string :=
  String.rev (dropLeading (String.rev <$> whiteSpace) (String.length s) (String.rev s)).

(** [s.trim()] *)
Definition trim (s : string) : string := trimEnd (trimStart s).

(** [s.split('\n')]: the pieces before the last one, and the last one. *)
Fixpoint splitLines (s : string) : list string * string :=
  match s with
  | EmptyString => ([], EmptyString)
  | String c rest =>
      let '(lines, last) := splitLines rest in
      if Ascii.eqb c (Ascii.ascii_of_nat 10)
      then (EmptyString :: lines, last)
      else match lines with
           | [] => ([], String c last)
           | l :: ls => (String c l :: ls, last)
           end
  end.

(** *** src/provider/streamingClient.ts *)

Inductive StreamError :=
  | StreamStalled                   (* 'Stream stalled - chunk timeout' *)
  | MalformedChunk                  (* 'Malformed chunk' *)
  | ProviderReturned (status : Z)   (* `Provider returned ${status}` *)
  | NoResponseBody                  (* 'No response body' *)
  | UpstreamError.                  (* a rejected fetch or read *)

Inductive Callback :=
  | onChunk (chunk : string)
  | onDone
  | onError (error : StreamError) (partialContent : string).

Inductive Status := Active | Completed | Stalled | Malformed | Broken.

(** The local variables of [streamRequest] and the callbacks made so far. *)
Record Relay := {
  buffer : string;
  partialContent : string;
  emitted : list Callback;
  status : Status
}.

Definition initial : Relay :=
  {| buffer := ""; partialContent := ""; emitted := []; status := Active |}.

Definition finish (st : Relay) (cb : Callback) (s : Status) : Relay :=
  {| buffer := buffer st; partialContent := partialContent st;
     emitted := emitted st ++ [cb]; status := s |}.

Section Relay.

(** [JSON.parse]: [None] when it throws. *)
Variable parse : string -> option Json.
(** Number-to-string conversion of the engine, used when [+=] coerces. *)
Variable numberToString : Q -> string.

(** String coercion of the right operand of [partialContent += content];
    [None] when it throws a [TypeError].  An object of [JSON.parse] has the
    methods of [Object.prototype] unless a property of its own hides them:
    with an own [toString], which is no function, no method is left that
    yields a primitive.  An array joins the coercions of its elements, with
    nothing for [null]. *)
Fixpoint coerce (v : Json) : option string :=
  match v with
  | JNull => Some "null"
  | JBool b => Some (if b then "true" else "false")
  | JNumber q => Some (numberToString q)
  | JString s => Some s
  | JArray elements =>
      String.concat ","
        <$> mapM (fun e => match e with JNull => Some "" | _ => coerce e end) elements
  | JObject properties =>
      match property "toString" properties with
      | Some _ => None
      | None => Some "[object Object]"
      end
  end.

(** The string of a value that coerces. *)
Definition toString (v : Json) : string := default "" (coerce v).

(** The body of [if (line.startsWith('data: ')) { ... }] for the payload
    [data]; a line whose parsing throws ends the stream. *)
Definition processData (data : string) (st : Relay) : Relay :=
  if String.eqb data "[DONE]" then finish st onDone Completed
  else
    match parse data with
    | None => finish st (onError MalformedChunk (partialContent st)) Malformed
    | Some parsed =>
        match contentDelta parsed with
        | None => finish st (onError MalformedChunk (partialContent st)) Malformed
        | Some content =>
            if truthy content then
              match content ≫= coerce with
              | Some text =>
                  {| buffer := buffer st;
                     partialContent := partialContent st ++ text;
                     emitted := emitted st ++ [onChunk data];
                     status := Active |}
              | None => finish st (onError MalformedChunk (partialContent st)) Malformed
              end
            else st
        end
    end.

Definition processLine (line : string) (st : Relay) : Relay :=
  if String.prefix "data: " line then processData (trim (slice 6 line)) st else st.

(** [for (const line of lines)], left by [return] as soon as the stream ends. *)
Fixpoint processLines (lines : list string) (st : Relay) : Relay :=
  match lines with
  | [] => st
  | line :: rest =>
      let st' := processLine line st in
      match status st' with
      | Active => processLines rest st'
      | _ => st'
      end
  end.

(** What one [await reader.read()] brings: decoded text, the end of the
    body, a rejection, or nothing before the chunk timer fires (the timer
    callback reports the stall and aborts, and the rejected read returns
    silently). *)
Inductive Read :=
  | ReadText (text : string)
  | ReadDone
  | ReadRejected
  | ChunkTimeout.

Definition onRead (r : Read) (st : Relay) : Relay :=
  match r with
  | ReadDone => finish st onDone Completed
  | ReadRejected => finish st (onError UpstreamError (partialContent st)) Broken
  | ChunkTimeout => finish st (onError StreamStalled (partialContent st)) Stalled
  | ReadText text =>
      let '(lines, last) := splitLines (buffer st ++ text) in
      processLines lines
        {| buffer := last; partialContent := partialContent st;
           emitted := emitted st; status := status st |}
  end.

(** The [while (true)] loop over the reads that have happened so far. *)
Fixpoint readLoop (reads : list Read) (st : Relay) : Relay :=
  match reads with
  | [] => st
  | r :: rest =>
      let st' := onRead r st in
      match status st' with
      | Active => readLoop rest st'
      | _ => st'
      end
  end.

(** What [fetch] resolves to. *)
Inductive Connection :=
  | FetchRejected
  | FetchResponse (status : Z) (hasBody : bool).

Definition streamRequest (c : Connection) (reads : list Read) : Relay :=
  match c with
  | FetchRejected => finish initial (onError UpstreamError "") Broken
  | FetchResponse status hasBody =>
      if negb ((200 <=? status)%Z && (status <=? 299)%Z)
      then finish initial (onError (ProviderReturned status) "") Broken
      else if negb hasBody
      then finish initial (onError NoResponseBody "") Broken
      else readLoop reads initial
  end.

(** *** src/handlers/streaming.ts *)

(** What the handler does, in order: the single upstream request it issues
    through [client.streamRequest], and what it writes to the caller. *)
Inductive Action :=
  | Upstream (url : string)
  | WriteChunk (chunk : string)          (* `data: ${chunk}\n\n` *)
  | WriteDone                            (* 'data: [DONE]\n\n' *)
  | WriteError (error : StreamError) (partial_content : string)
  | End.

Definition relay (cb : Callback) : list Action :=
  match cb with
  | onChunk chunk => [WriteChunk chunk]
  | onDone => [WriteDone; End]
  | onError error partial => [WriteError error partial; End]
  end.

Definition streamingHandler (providerUrl : string) (c : Connection)
  (reads : list Read) : list Action :=
  Upstream providerUrl :: List.concat (List.map relay (emitted (streamRequest c reads))).

End Relay.

End Stream.

(** ** Specification-side definitions used in the statements *)

(** Would [canExecute] admit a request to this breaker at time [now]? *)
Definition admits (now : Z) (cb : Ts.CircuitBreaker) : bool :=
  fst (Ts.canExecute now cb).

(** A sequence of [canExecute] calls at the given times on one breaker: the
    answers in order and the breaker after the last call.  Calls on one
    breaker never overlap (one JavaScript thread), so concurrent callers are
    some such sequence. *)
Fixpoint canExecuteAll (nows : list Z) (cb : Ts.CircuitBreaker)
  : list bool * Ts.CircuitBreaker :=
  match nows with
  | [] => ([], cb)
  | now :: rest =>
      let '(ok, cb1) := Ts.canExecute now cb in
      let '(oks, cb2) := canExecuteAll rest cb1 in
      (ok :: oks, cb2)
  end.

(** The same for the Go breaker, whose [IsOpen] runs under its mutex. *)
Fixpoint IsOpenAll (nows : list Z) (cb : Go.CircuitBreaker)
  : list bool * Go.CircuitBreaker :=
  match nows with
  | [] => ([], cb)
  | now :: rest =>
      let '(o, cb1) := Go.IsOpen now cb in
      let '(os, cb2) := IsOpenAll rest cb1 in
      (o :: os, cb2)
  end.

(** [n] failures recorded in a row at the given times. *)
Definition recordFailures (times : list Z) (cb : Ts.CircuitBreaker) : Ts.CircuitBreaker :=
  foldl (fun cb now => Ts.recordFailure now cb) cb times.

(** The provider object after [provider.circuit.canExecute()] ran on it. *)
Definition consulted (now : Z) (p : Ts.Provider) : Ts.Provider :=
  Ts.withCircuit p (snd (Ts.canExecute now (Ts.circuit p))).

(** Position of the first provider of [ps] that satisfies [f], counting the
    head of [ps] as position [i]. *)
Fixpoint findIndexFrom (f : Ts.Provider -> bool) (i : nat) (ps : list Ts.Provider)
  : option nat :=
  match ps with
  | [] => None
  | p :: rest => if f p then Some i else findIndexFrom f (S i) rest
  end.

(** Position of the first provider named [c]; the length when there is none. *)
Fixpoint firstNamed (c : string) (ps : list Ts.Provider) : nat :=
  match ps with
  | [] => O
  | p :: rest => if String.eqb (Ts.name p) c then O else S (firstNamed c rest)
  end.

(** A failover candidate: another provider whose circuit admits a request. *)
Definition candidate (now : Z) (c : string) (p : Ts.Provider) : bool :=
  negb (String.eqb (Ts.name p) c) && admits now (Ts.circuit p).

(** Failover order as the router implements it: the first candidate after
    the current provider, else (wrapping around) the first one before it. *)
Definition nextInRotation (now : Z) (c : string) (r : Ts.Router) : option nat :=
  let cut := firstNamed c r in
  match findIndexFrom (candidate now c) (S cut) (drop (S cut) r) with
  | Some j => Some j
  | None => findIndexFrom (candidate now c) 0 (take cut r)
  end.

(** Is the caught value a [ProviderError] with [failover] set (the
    FailoverOnly class; [doRequest] builds it for status 429 only)? *)
Definition isFailover (t : Ts.Thrown) : bool :=
  match t with
  | Ts.ThrownProviderError e => Ts.failover e
  | Ts.ThrownError => false
  end.

Definition failoverOnly (o : Ts.Outcome) : bool :=
  match o with
  | Ts.Failed t => isFailover t
  | Ts.Responded _ => false
  end.

(** The event is an attempt that failed in the FailoverOnly class. *)
Definition rateLimited (e : Ts.Event) : bool :=
  match e with
  | Ts.EvAttempt _ _ _ o => failoverOnly o
  | Ts.EvSleep _ => false
  end.

(** What may come right after an event: after an attempt that failed in the
    FailoverOnly class, only attempt number 1 on another provider. *)
Definition follows (e1 e2 : Ts.Event) : Prop :=
  match e1 with
  | Ts.EvAttempt p _ _ o =>
      failoverOnly o = true ->
      match e2 with
      | Ts.EvAttempt p' k' _ _ => k' = 1 /\ p' <> p
      | Ts.EvSleep _ => False
      end
  | Ts.EvSleep _ => True
  end.

(** Every two consecutive events of a trace are related by [R]. *)
Definition adjacent (R : Ts.Event -> Ts.Event -> Prop) (tr : list Ts.Event) : Prop :=
  forall pre e1 e2 post, tr = pre ++ e1 :: e2 :: post -> R e1 e2.

(** The attempt ([p], number [k]) may be appended to the trace. *)
Definition allowsNext (tr : list Ts.Event) (p : string) (k : Z) : Prop :=
  forall e, last tr = Some e -> follows e (Ts.EvAttempt p k false (Ts.Responded "")).

Definition attemptsOf (tr : list Ts.Event) : list (string * Z) :=
  omap (fun e => match e with
                 | Ts.EvAttempt p k _ _ => Some (p, k)
                 | Ts.EvSleep _ => None
                 end) tr.

(** *** Scenarios *)

(** A fresh gateway at time 1000 with the two default providers. *)
Definition freshGateway : Ts.World :=
  {| Ts.clock := 1000; Ts.fetched := 0; Ts.drawn := 0;
     Ts.router := Ts.newRouter "http://localhost:8001" "http://localhost:8002";
     Ts.trace := [] |}.

Definition okBody : option (option string) := Some (Some "hello"%string).

(** Upstream answers 429, then 200: a rate limit on the first provider. *)
Definition rateLimitedOnce : Ts.Env :=
  {| Ts.upstream := fun n => match n with
                             | O => (10, Ts.FetchStatus 429 None)
                             | _ => (10, Ts.FetchStatus 200 okBody)
                             end;
     Ts.random := fun _ => (1 # 2)%Q |}.

(** Upstream answers 429 twice, then 200: both providers rate limited. *)
Definition rateLimitedTwice : Ts.Env :=
  {| Ts.upstream := fun n => match n with
                             | O | 1%nat => (10, Ts.FetchStatus 429 None)
                             | _ => (10, Ts.FetchStatus 200 okBody)
                             end;
     Ts.random := fun _ => (1 # 2)%Q |}.

(** Upstream answers 429 three times, then 200. *)
Definition rateLimitedThrice : Ts.Env :=
  {| Ts.upstream := fun n => if (n <? 3)%nat then (10, Ts.FetchStatus 429 None)
                             else (10, Ts.FetchStatus 200 okBody);
     Ts.random := fun _ => (1 # 2)%Q |}.

(** The first provider of a fresh gateway. *)
Definition openaiProvider : Ts.Provider :=
  {| Ts.name := "openai"; Ts.url := "http://localhost:8001";
     Ts.circuit := Ts.newCircuitBreaker Ts.defaultCircuitConfig |}.

(** The gateway after the first run of a call on [rateLimitedOnce]: openai
    answered 429 to attempt 1. *)
Definition afterRateLimit : Ts.World :=
  snd (Ts.callWithRetry rateLimitedOnce Ts.defaultRetryConfig 0 freshGateway).

(** Upstream answers 500 to everything. *)
Definition alwaysServerError : Ts.Env :=
  {| Ts.upstream := fun _ => (10, Ts.FetchStatus 500 None);
     Ts.random := fun _ => (1 # 2)%Q |}.

(** A gateway whose first provider has one failure on record (say a 429 of
    an earlier request), its circuit still closed. *)
Definition oneFailureOnRecord : Ts.World :=
  {| Ts.clock := 1000; Ts.fetched := 0; Ts.drawn := 0;
     Ts.router :=
       [ {| Ts.name := "openai"; Ts.url := "http://localhost:8001";
            Ts.circuit := {| Ts.state := Ts.closed; Ts.consecutiveFails := 1;
                             Ts.lastFailure := 500;
                             Ts.config := Ts.defaultCircuitConfig |} |};
         {| Ts.name := "anthropic"; Ts.url := "http://localhost:8002";
            Ts.circuit := Ts.newCircuitBreaker Ts.defaultCircuitConfig |} ];
     Ts.trace := [] |}.

(** A Go breaker that opened at time 0 with a timeout of 30. *)
Definition openedAtZero : Go.CircuitBreaker :=
  {| Go.threshold := 5; Go.timeout := 30; Go.state := Go.StateOpen;
     Go.failureCount := 5; Go.successCount := 0;
     Go.lastFailureTime := 0; Go.openedAt := 0 |}.

(** A closed Go breaker with two failures on record. *)
Definition twoFailures : Go.CircuitBreaker :=
  {| Go.threshold := 5; Go.timeout := 30; Go.state := Go.StateClosed;
     Go.failureCount := 2; Go.successCount := 0;
     Go.lastFailureTime := 0; Go.openedAt := 0 |}.

(** A TypeScript breaker that opened on a failure at time 0. *)
Definition trippedAtZero : Ts.CircuitBreaker :=
  {| Ts.state := Ts.open; Ts.consecutiveFails := 3; Ts.lastFailure := 0;
     Ts.config := Ts.defaultCircuitConfig |}.

(** A retry configuration with a base delay of one millisecond. *)
Definition oneMillisecond : Ts.RetryConfig :=
  {| Ts.maxAttempts := 3; Ts.baseDelay := 1; Ts.maxDelay := 10 |}.

(** The Go gateway of the demo: both providers serve gpt-4, three tries per
    request, circuits open after five failures for thirty seconds (time in
    nanoseconds). *)
Definition demoConfig : Go.Config :=
  {| Go.Retry := {| Go.MaxRetries := 3; Go.BaseBackoff := 2000000000;
                    Go.MaxBackoff := 60000000000 |};
     Go.CircuitBreakerCfg := {| Go.Threshold := 5; Go.Timeout := 30000000000 |};
     Go.Providers :=
       [ {| Go.Name := "openai"; Go.Models := ["gpt-4"]; Go.Priority := 1 |};
         {| Go.Name := "anthropic"; Go.Models := ["gpt-4"]; Go.Priority := 2 |} ] |}.

Definition demoRouter : Go.ProviderRouter := Go.NewProviderRouter (Go.Providers demoConfig).

Definition gpt4Request : Go.Request := {| Go.Model := "gpt-4"; Go.PreferredProvider := "" |}.

(** Every exchange succeeds after 50 ms. *)
Definition healthyUpstream : Go.Env :=
  {| Go.exchange := fun _ => (50000000, Go.Reply 200 (Some (Some ("hello"%string, 7))));
     Go.random := fun _ => (1 # 2)%Q;
     Go.ctxDone := fun _ => false;
     Go.cancelledAfter := fun _ => 0;
     Go.unrepresentable := fun _ => - 2 ^ 63 |}.

(** At second 100 the breaker of openai has been open since second 90; the
    breaker of anthropic does not exist yet (it would be created closed). *)
Definition openaiTripped : Go.World :=
  {| Go.clock := 100000000000; Go.exchanged := 0; Go.waited := 0;
     Go.circuitBreakers :=
       {[ "openai"%string :=
            {| Go.threshold := 5; Go.timeout := 30000000000; Go.state := Go.StateOpen;
               Go.failureCount := 5; Go.successCount := 0;
               Go.lastFailureTime := 90000000000; Go.openedAt := 90000000000 |} ]} |}.

(** *** Stream relay *)

(** The chunks handed to [onChunk], in order. *)
Definition chunksOf (cbs : list Stream.Callback) : list string :=
  omap (fun cb => match cb with
                  | Stream.onChunk chunk => Some chunk
                  | _ => None
                  end) cbs.

(** The content delta a forwarded chunk carries, as the relay appends it. *)
Definition deltaOf (parse : string -> option Stream.Json) (numberToString : Q -> string)
  (chunk : string) : string :=
  match parse chunk with
  | Some parsed =>
      match Stream.contentDelta parsed with
      | Some content => from_option (Stream.toString numberToString) "" content
      | None => ""
      end
  | None => ""
  end.

(** Concatenation of the content deltas of the chunks forwarded so far. *)
Definition forwardedDeltas (parse : string -> option Stream.Json)
  (numberToString : Q -> string) (cbs : list Stream.Callback) : string :=
  foldr (fun chunk acc => (deltaOf parse numberToString chunk ++ acc)%string) ""%string
        (chunksOf cbs).

(** The chunk has no content delta, or an empty one. *)
Definition missingOrEmpty (parsed : Stream.Json) : Prop :=
  Stream.contentDelta parsed = Some None
  \/ Stream.contentDelta parsed = Some (Some (Stream.JString "")).

(** A provider chunk with the given content delta. *)
Definition chunkWith (content : string) : Stream.Json :=
  Stream.JObject
    [("choices", Stream.JArray
       [Stream.JObject [("delta", Stream.JObject [("content", Stream.JString content)])]])]%string.

(** A stand-in for [JSON.parse] on three payloads: two chunks with content and
    one without; anything else fails to parse. *)
Definition sampleParse (data : string) : option Stream.Json :=
  if String.eqb data "chunk-1" then Some (chunkWith "Hello")
  else if String.eqb data "chunk-2" then Some (chunkWith " world")
  else if String.eqb data "role-only" then
    Some (Stream.JObject
            [("choices", Stream.JArray [Stream.JObject [("delta", Stream.JObject [])]])]%string)
  else None.

Definition noNumbers (q : Q) : string := "".

(** Two reads with one chunk each. *)
Definition twoChunks : list Stream.Read :=
  [ Stream.ReadText ("data: chunk-1" ++ String (Ascii.ascii_of_nat 10) "");
    Stream.ReadText ("data: chunk-2" ++ String (Ascii.ascii_of_nat 10) "") ]%string.

(** A read of three lines: a chunk without content, a line that is no JSON,
    and a chunk. *)
Definition garbledRead : string :=
  ("data: role-only" ++ String (Ascii.ascii_of_nat 10) ""
   ++ "data: {oops" ++ String (Ascii.ascii_of_nat 10) ""
   ++ "data: chunk-1" ++ String (Ascii.ascii_of_nat 10) "")%string.

Definition isChunk (cb : Stream.Callback) : Prop :=
  match cb with Stream.onChunk _ => True | _ => False end.

(** What the relay maintains: the partial content is the concatenation of
    the forwarded deltas; an active relay has made chunk callbacks only; an
    ended relay has made exactly one more callback, and if that one reports
    an error it carries the partial content. *)
Record Sound (parse : string -> option Stream.Json) (numberToString : Q -> string)
  (st : Stream.Relay) : Prop := {
  sound_partial :
    Stream.partialContent st = forwardedDeltas parse numberToString (Stream.emitted st);
  sound_active : Stream.status st = Stream.Active -> Forall isChunk (Stream.emitted st);
  sound_ended : Stream.status st <> Stream.Active ->
    exists chunks final,
      Stream.emitted st = chunks ++ [final] /\ Forall isChunk chunks /\ ~ isChunk final
      /\ forall e partial, final = Stream.onError e partial ->
                           partial = Stream.partialContent st
}.

Definition sleepsOf (tr : list Ts.Event) : list Z :=
  omap (fun e => match e with
                 | Ts.EvSleep ms => Some ms
                 | Ts.EvAttempt _ _ _ _ => None
                 end) tr.

(** Five attempts per provider, base delay 1000 ms, cap 10000 ms. *)
Definition fiveAttempts : Ts.RetryConfig :=
  {| Ts.maxAttempts := 5; Ts.baseDelay := 1000; Ts.maxDelay := 10000 |}.

(** The first four requests time out, the fifth is answered; every random
    sample is 0.5, which makes the jitter factor exactly 1. *)
Definition timesOutFourTimes : Ts.Env :=
  {| Ts.upstream := fun n => if (n <? 4)%nat then (3000, Ts.FetchAborted)
                             else (10, Ts.FetchStatus 200 okBody);
     Ts.random := fun _ => (1 # 2)%Q |}.

(** ** Further definitions used in the statements *)

(** *** Retry runs *)

(** The attempts a retry run of [m] requests on provider [p] leaves in the
    trace: [m] consecutive numbers from [first] on, in order. *)
Definition attemptsOn (p : string) (first : Z) (m : nat) : list (string * Z) :=
  (fun k => (p, k)) <$> seqZ first (Z.of_nat m).

(** *** Breaker histories *)

(** The operations of the TypeScript breaker, with the time they run at. *)
Inductive TsOp :=
  | TsCanExecute (now : Z)
  | TsRecordSuccess
  | TsRecordFailure (now : Z).

Definition tsApply (cb : Ts.CircuitBreaker) (op : TsOp) : Ts.CircuitBreaker :=
  match op with
  | TsCanExecute now => snd (Ts.canExecute now cb)
  | TsRecordSuccess => Ts.recordSuccess cb
  | TsRecordFailure now => Ts.recordFailure now cb
  end.

(** The operations of the Go breaker. *)
Inductive GoOp :=
  | GoIsOpen (now : Z)
  | GoRecordSuccess
  | GoRecordFailure (now : Z).

Definition goApply (cb : Go.CircuitBreaker) (op : GoOp) : Go.CircuitBreaker :=
  match op with
  | GoIsOpen now => snd (Go.IsOpen now cb)
  | GoRecordSuccess => Go.RecordSuccess cb
  | GoRecordFailure now => Go.RecordFailure now cb
  end.

(** *** Go router *)

(** The providers that list [model], in configuration order, once per
    occurrence of the model in a provider's list. *)
Definition serving (model : string) (providers : list Go.ProviderConfig) : list string :=
  providers ≫= (fun p => (fun _ => Go.Name p) <$> filter (fun m => m = model) (Go.Models p)).

(** The providers [SelectProvider] chooses from. *)
Definition eligibleFor (r : Go.ProviderRouter) (req : Go.Request) : list string :=
  default [] (Go.modelToProvider r !! Go.Model req).

(** *** Go client *)

(** Does [SendRequest] count the exchange as a failure of the provider:
    everything but a 200 reply whose body parses. *)
Definition failing (x : Go.Exchange) : bool :=
  match x with
  | Go.Reply status (Some _) => negb (status =? 200)
  | _ => true
  end.

(** [n] calls of [SendRequest] for one provider, one after the other. *)
Fixpoint sendRepeatedly (cfg : Go.Config) (env : Go.Env) (provider : string)
  (n : nat) (w : Go.World) : Go.World :=
  match n with
  | O => w
  | S n' => sendRepeatedly cfg env provider n' (snd (Go.SendRequest cfg env provider w))
  end.

(** *** Streaming relay *)

Definition newline : string := String (Ascii.ascii_of_nat 10) "".

Fixpoint hasNewline (s : string) : bool :=
  match s with
  | EmptyString => false
  | String c rest => Ascii.eqb c (Ascii.ascii_of_nat 10) || hasNewline rest
  end.

(** [[...lines, last].join('\n')] *)
Definition joinLines (lines : list string) (last : string) : string :=
  foldr (fun l acc => (l ++ newline ++ acc)%string) last lines.

(** What a caller of [streamRequest] can see of the relay. *)
Definition observe (st : Stream.Relay) : list Stream.Callback * string * Stream.Status :=
  (Stream.emitted st, Stream.partialContent st, Stream.status st).

(** [chunks.join('')] *)
Definition joinAll (chunks : list string) : string :=
  foldr (fun c acc => (c ++ acc)%string) ""%string chunks.

(** The callback that ends a relay in the given status; [broken] is the
    error of a relay that broke. *)
Definition terminal (broken : Stream.StreamError) (st : Stream.Relay) : list Stream.Callback :=
  match Stream.status st with
  | Stream.Active => []
  | Stream.Completed => [Stream.onDone]
  | Stream.Stalled => [Stream.onError Stream.StreamStalled (Stream.partialContent st)]
  | Stream.Malformed => [Stream.onError Stream.MalformedChunk (Stream.partialContent st)]
  | Stream.Broken => [Stream.onError broken (Stream.partialContent st)]
  end.

(** The error [streamRequest] reports when the connection, not a chunk, fails. *)
Definition connectionError (c : Stream.Connection) : Stream.StreamError :=
  match c with
  | Stream.FetchRejected => Stream.UpstreamError
  | Stream.FetchResponse status hasBody =>
      if negb ((200 <=? status) && (status <=? 299)) then Stream.ProviderReturned status
      else if negb hasBody then Stream.NoResponseBody
      else Stream.UpstreamError
  end.

(** The payload [p] is a chunk whose content delta is the non-empty string
    [s]. *)
Definition carries (parse : string -> option Stream.Json) (p s : string) : Prop :=
  p <> "[DONE]"%string /\ s <> ""%string
  /\ exists parsed, parse p = Some parsed
       /\ Stream.contentDelta parsed = Some (Some (Stream.JString s)).

(** Handling the payload [p] throws inside the [try] block: [JSON.parse]
    rejects it, or it parses to [null], whose [choices] cannot be read, or
    its content delta is truthy and cannot be coerced to a string. *)
Definition throws (parse : string -> option Stream.Json) (numberToString : Q -> string)
  (p : string) : bool :=
  match parse p with
  | None => true
  | Some parsed =>
      match Stream.contentDelta parsed with
      | None => true
      | Some content =>
          match content ≫= Stream.coerce numberToString with
          | Some _ => false
          | None => Stream.truthy content
          end
      end
  end.

(** The payload [p] is a chunk without content (a role or a finish reason
    only, or an empty delta). *)
Definition silent (parse : string -> option Stream.Json) (p : string) : Prop :=
  p <> "[DONE]"%string
  /\ exists parsed, parse p = Some parsed /\ missingOrEmpty parsed.

(** The lines of an event stream before its closing line: data lines that
    carry content, and lines the relay passes over (blank lines, comments,
    other fields, chunks without content). *)
Inductive SseLine :=
  | DataLine (raw delta : string)     (* the line is [data: ] followed by [raw] *)
  | OtherLine (text : string).

Definition lineText (l : SseLine) : string :=
  match l with
  | DataLine raw _ => ("data: " ++ raw)%string
  | OtherLine text => text
  end.

Definition wellFormed (parse : string -> option Stream.Json) (l : SseLine) : Prop :=
  match l with
  | DataLine raw delta => hasNewline raw = false /\ carries parse (Stream.trim raw) delta
  | OtherLine text =>
      hasNewline text = false
      /\ (String.prefix "data: " text = false
          \/ silent parse (Stream.trim (Stream.slice 6 text)))
  end.

Definition linePayloads (ls : list SseLine) : list string :=
  omap (fun l => match l with
                 | DataLine raw _ => Some (Stream.trim raw)
                 | OtherLine _ => None
                 end) ls.

Definition lineDeltas (ls : list SseLine) : list string :=
  omap (fun l => match l with
                 | DataLine _ delta => Some delta
                 | OtherLine _ => None
                 end) ls.

(** The text of the lines, each ended by a newline. *)
Definition wire (ls : list string) : string :=
  joinAll ((fun l => l ++ newline)%string <$> ls).

(** ** Request validation and the HTTP handler (Go) *)

Module Api.

(** *** internal/models/request.go *)

Record Message := {
  Role : string;
  Content : string
}.

(** The whole of [models.Request]; [Go.Request] keeps the two fields the
    engine reads.  [Temperature] is a float64, idealised as a rational (a
    decoded JSON number is neither NaN nor infinite). *)
Record Request := {
  Model : string;
  Messages : list Message;
  Temperature : Q;
  MaxTokens : Z;
  Stream : bool;
  PreferredProvider : string
}.

Definition engineRequest (req : Request) : Go.Request :=
  {| Go.Model := Model req; Go.PreferredProvider := PreferredProvider req |}.

(** *** internal/validator/validator.go *)

(** [errors.NewValidationError(field, msg)]: one constructor per call site,
    the numbers that the call formats into the field or the message kept as
    numbers. *)
Inductive ValidationError :=
  | ModelRequired                           (* "model" *)
  | MessageRequired                         (* "messages", at least one *)
  | RoleRequired (i : nat)                  (* "messages[i].role" *)
  | ContentRequired (i : nat)               (* "messages[i].content" *)
  | TemperatureOutOfRange                   (* "temperature" *)
  | MaxTokensExceedsLimit (limit : Z) (model : string)        (* "max_tokens" *)
  | InputExceedsLimit (estimatedTokens limit : Z).            (* "messages" *)

Record Validator := {
  maxTokenLimits : gmap string Z
}.

Definition NewValidator : Validator :=
  {| maxTokenLimits :=
       list_to_map [ ("gpt-4", 8192); ("gpt-4-32k", 32768); ("gpt-3.5-turbo", 4096);
                     ("claude-3-opus", 200000); ("claude-3-sonnet", 200000) ]%string |}.

(** [for i, msg := range req.Messages]: the first complaint, if any; [i] is
    the index of the head of [messages]. *)
Fixpoint validateMessages (i : nat) (messages : list Message) : option ValidationError :=
  match messages with
  | [] => None
  | msg :: rest =>
      if String.eqb (Role msg) "" then Some (RoleRequired i)
      else if String.eqb (Content msg) "" then Some (ContentRequired i)
      else validateMessages (S i) rest
  end.

(** [totalChars += len(msg.Content)] over the messages; [len] counts bytes. *)
Definition totalChars (messages : list Message) : Z :=
  foldl (fun total msg => total + Z.of_nat (String.length (Content msg))) 0 messages.

(** [ValidateRequest]: [None] is [nil].  Integer division truncates. *)
Definition ValidateRequest (v : Validator) (req : Request) : option ValidationError :=
  if String.eqb (Model req) "" then Some ModelRequired
  else if (length (Messages req) =? 0)%nat then Some MessageRequired
  else
    match validateMessages 0 (Messages req) with
    | Some e => Some e
    | None =>
        if negb (Qle_bool 0 (Temperature req)) || negb (Qle_bool (Temperature req) 2)
        then Some TemperatureOutOfRange
        else
          let tooMany :=
            if 0 <? MaxTokens req then
              match maxTokenLimits v !! Model req with
              | Some limit =>
                  if limit <? MaxTokens req
                  then Some (MaxTokensExceedsLimit limit (Model req))
                  else None
              | None => None
              end
            else None in
          match tooMany with
          | Some e => Some e
          | None =>
              let estimatedTokens := totalChars (Messages req) ÷ 4 in
              match maxTokenLimits v !! Model req with
              | Some limit =>
                  if limit <? estimatedTokens
                  then Some (InputExceedsLimit estimatedTokens limit)
                  else None
              | None => None
              end
          end
    end.

Definition CountTokens (messages : list Message) : Z :=
  totalChars messages ÷ 4.

(** *** internal/api/handlers.go *)

(** The JSON bodies of [c.JSON]. *)
Inductive Body :=
  | InvalidRequestFormat                      (* "invalid request format" *)
  | ValidationFailed (e : ValidationError)    (* "validation failed" *)
  | RequestFailed (e : Go.ExecError)          (* "request failed" *)
  | Completion (response : Go.Response).

(** [ChatCompletion]: the status and body it answers with, and the world
    after.  [bound] is what [c.ShouldBindJSON(&req)] makes of the request
    body, [None] when it returns an error. *)
Definition ChatCompletion (cfg : Go.Config) (env : Go.Env) (v : Validator)
  (r : Go.ProviderRouter) (bound : option Request) (w : Go.World)
  : Z * Body * Go.World :=
  match bound with
  | None => (400, InvalidRequestFormat, w)
  | Some req =>
      match ValidateRequest v req with
      | Some e => (400, ValidationFailed e, w)
      | None =>
          let '(res, _, w') := Go.ExecuteRequest cfg env r (engineRequest req) w in
          match res with
          | inr e => (500, RequestFailed e, w')
          | inl response => (200, Completion response, w')
          end
      end
  end.

End Api.

(** The content of all messages, one after the other. *)
Definition allContent (messages : list Api.Message) : string :=
  joinAll (Api.Content <$> messages).

(** A message with a role and a content. *)
Definition filled (m : Api.Message) : Prop :=
  Api.Role m <> ""%string /\ Api.Content m <> ""%string.

(** ** Mock provider (TypeScript, M1) *)

Module Mock.

Local Open Scope string_scope.

Definition quote : string := String (Ascii.ascii_of_nat 34) "".

Section Mock.

(** [JSON.stringify] *)
Variable stringify : Stream.Json -> string.
(** Number-to-string conversion of the engine, used by the template literal. *)
Variable numberToString : Q -> string.
(** [parseInt(s, 10)]: [None] is [NaN]. *)
Variable parseInt : string -> option Z.

Definition chunks : list string :=
  ["Hello"; " from"; " streaming"; " mock"; " provider"; "!"].

(** [{ id: `mock-${i}`, choices: [{ delta: { content: chunks[i] } }] }] *)
Definition chunkObject (i : nat) (chunk : string) : Stream.Json :=
  Stream.JObject
    [ ("id", Stream.JString ("mock-" ++ numberToString (inject_Z (Z.of_nat i))));
      ("choices", Stream.JArray
         [Stream.JObject [("delta", Stream.JObject [("content", Stream.JString chunk)])]]) ].

(** The malformed event written at the failing chunk. *)
Definition broken : string :=
  "data: {" ++ quote ++ "broken" ++ quote ++ ": " ++ newline ++ newline.

(** [failChunk ? parseInt(failChunk, 10) : -1] *)
Definition failAt (failChunk : option string) : option Z :=
  match failChunk with
  | None => Some (-1)
  | Some s => if String.eqb s "" then Some (-1) else parseInt s
  end.

(** The [for] loop of [handleStreaming] from index [i] on, and what follows
    it: the strings handed to [res.write], in order.  Both ways out end the
    response. *)
Fixpoint streamFrom (failAt : option Z) (i : nat) (rest : list string) : list string :=
  match rest with
  | [] => ["data: [DONE]" ++ newline ++ newline]
  | chunk :: rest' =>
      if match failAt with
         | Some n => (0 <? n)%Z && (Z.of_nat i + 1 =? n)%Z
         | None => false
         end
      then [broken]
      else ("data: " ++ stringify (chunkObject i chunk) ++ newline ++ newline)
             :: streamFrom failAt (S i) rest'
  end.

Definition handleStreaming (failChunk : option string) : list string :=
  streamFrom (failAt failChunk) 0 chunks.

End Mock.

End Mock.

(** How many chunks the mock sends before it ends the stream. *)
Definition sentChunks (failAt : option Z) : nat :=
  match failAt with
  | Some n =>
      if (0 <? n) && (n <=? Z.of_nat (length Mock.chunks))
      then Z.to_nat (n - 1) else length Mock.chunks
  | None => length Mock.chunks
  end.

(** The relay with another buffer. *)
Definition withBuffer (b : string) (st : Stream.Relay) : Stream.Relay :=
  {| Stream.buffer := b; Stream.partialContent := Stream.partialContent st;
     Stream.emitted := Stream.emitted st; Stream.status := Stream.status st |}.

(** The last callback of an ended relay is the one its status names. *)
Definition Ended (broken : Stream.StreamError) (st : Stream.Relay) : Prop :=
  Stream.status st <> Stream.Active ->
  exists cb, terminal broken st = [cb] /\ last (Stream.emitted st) = Some cb.

(** The data of the mock's event for chunk [i]. *)
Definition mockPayload (stringify : Stream.Json -> string) (numberToString : Q -> string)
  (i : nat) (chunk : string) : string :=
  stringify (Mock.chunkObject numberToString i chunk).

(** What the relay needs of [JSON.stringify] and [JSON.parse] on the chunk
    objects the mock builds: the text is one line without surrounding white
    space, and parses back to the object. *)
Definition jsonRoundTrip (parse : string -> option Stream.Json)
  (stringify : Stream.Json -> string) (numberToString : Q -> string) : Prop :=
  forall i chunk, Mock.chunks !! i = Some chunk ->
    parse (mockPayload stringify numberToString i chunk)
    = Some (Mock.chunkObject numberToString i chunk)
    /\ hasNewline (mockPayload stringify numberToString i chunk) = false
    /\ Stream.trim (mockPayload stringify numberToString i chunk)
       = mockPayload stringify numberToString i chunk
    /\ mockPayload stringify numberToString i chunk <> "[DONE]"%string.

(** The lines of the mock's events for the chunks [cs], the first of which
    has index [i]: a data line and a blank line each. *)
Fixpoint eventsFrom (stringify : Stream.Json -> string) (numberToString : Q -> string)
  (i : nat) (cs : list string) : list SseLine :=
  match cs with
  | [] => []
  | c :: cs' =>
      DataLine (mockPayload stringify numberToString i c) c
        :: OtherLine "" :: eventsFrom stringify numberToString (S i) cs'
  end.

(** *** Further scenarios *)

(** Upstream answers 404 to everything. *)
Definition alwaysNotFound : Ts.Env :=
  {| Ts.upstream := fun _ => (10, Ts.FetchStatus 404 None);
     Ts.random := fun _ => (1 # 2)%Q |}.

(** A Go breaker probing after its timeout. *)
Definition probing : Go.CircuitBreaker :=
  {| Go.threshold := 5; Go.timeout := 30; Go.state := Go.StateHalfOpen;
     Go.failureCount := 5; Go.successCount := 0;
     Go.lastFailureTime := 0; Go.openedAt := 0 |}.

(** A Go gateway that has not talked to any provider yet. *)
Definition idleGateway : Go.World :=
  {| Go.clock := 0; Go.exchanged := 0; Go.waited := 0; Go.circuitBreakers := ∅ |}.

(** Every exchange is answered 503 after 50 ms. *)
Definition alwaysUnavailable : Go.Env :=
  {| Go.exchange := fun _ => (50000000, Go.Reply 503 None);
     Go.random := fun _ => (1 # 2)%Q;
     Go.ctxDone := fun _ => false;
     Go.cancelledAfter := fun _ => 0;
     Go.unrepresentable := fun _ => - 2 ^ 63 |}.

(** Two chunks with content, a blank line between them. *)
Definition twoEvents : list SseLine :=
  [DataLine "chunk-1" "Hello"; OtherLine ""; DataLine "chunk-2" " world"]%string.

(** A chat request whose second message has no content. *)
Definition emptySecondMessage : Api.Request :=
  {| Api.Model := "gpt-4";
     Api.Messages := [ {| Api.Role := "system"; Api.Content := "Be brief." |};
                       {| Api.Role := "user"; Api.Content := "" |} ];
     Api.Temperature := 1; Api.MaxTokens := 100; Api.Stream := false;
     Api.PreferredProvider := "" |}%string.

(** A stand-in for [JSON.stringify] on the mock's chunk objects: the id and
    the content, separated by a bar. *)
Definition sampleStringify (v : Stream.Json) : string :=
  match v with
  | Stream.JObject
      [ (_, Stream.JString id);
        (_, Stream.JArray
              [Stream.JObject [(_, Stream.JObject [(_, Stream.JString content)])]]) ] =>
      (id ++ "|" ++ content)%string
  | _ => ""%string
  end.

(** The matching stand-in for [JSON.parse]: the chunk object of the text, if
    the text is one of the mock's chunks. *)
Definition mockParse (data : string) : option Stream.Json :=
  snd <$> List.find (fun entry => String.eqb (fst entry) data)
            (imap (fun i chunk => (mockPayload sampleStringify noNumbers i chunk,
                                   Mock.chunkObject noNumbers i chunk))
                  Mock.chunks).

(** A stand-in for [parseInt] that reads the one text used below. *)
Definition sampleParseInt (s : string) : option Z :=
  if String.eqb s "3" then Some 3 else None.

(** ** Circuit breaker *)

Lemma canExecute_closed now cb :
  Ts.state cb = Ts.closed -> Ts.canExecute now cb = (true, cb).
Proof. intros H. unfold Ts.canExecute. now rewrite H. Qed.

Lemma canExecute_refuses now cb :
  Ts.state cb = Ts.open ->
  now - Ts.lastFailure cb <= Ts.resetTimeout (Ts.config cb) ->
  Ts.canExecute now cb = (false, cb).
Proof.
  intros Hs Hle. unfold Ts.canExecute. rewrite Hs.
  destruct (Z.ltb_spec (Ts.resetTimeout (Ts.config cb)) (now - Ts.lastFailure cb)); [lia | reflexivity].
Qed.

Lemma canExecute_resets now cb :
  Ts.state cb = Ts.open ->
  Ts.resetTimeout (Ts.config cb) < now - Ts.lastFailure cb ->
  Ts.canExecute now cb =
    (true, {| Ts.state := Ts.closed; Ts.consecutiveFails := 0;
              Ts.lastFailure := Ts.lastFailure cb; Ts.config := Ts.config cb |}).
Proof.
  intros Hs Hlt. unfold Ts.canExecute. rewrite Hs.
  destruct (Z.ltb_spec (Ts.resetTimeout (Ts.config cb)) (now - Ts.lastFailure cb)); [reflexivity | lia].
Qed.

(** A refusal leaves the breaker as it was. *)
Lemma canExecute_false_inv now cb :
  fst (Ts.canExecute now cb) = false ->
  Ts.canExecute now cb = (false, cb) /\ Ts.state cb = Ts.open
  /\ now - Ts.lastFailure cb <= Ts.resetTimeout (Ts.config cb).
Proof.
  unfold Ts.canExecute. destruct (Ts.state cb) eqn:Hs; simpl; [discriminate |].
  destruct (Z.ltb_spec (Ts.resetTimeout (Ts.config cb)) (now - Ts.lastFailure cb));
    simpl; [discriminate | auto].
Qed.

Lemma canExecuteAll_closed nows cb :
  Ts.state cb = Ts.closed ->
  canExecuteAll nows cb = (List.map (fun _ => true) nows, cb).
Proof.
  intros Hs. induction nows as [| now rest IH]; simpl; [reflexivity |].
  rewrite (canExecute_closed _ _ Hs), IH. reflexivity.
Qed.

Lemma canExecuteAll_refuses nows cb :
  Ts.state cb = Ts.open ->
  Forall (fun now => now - Ts.lastFailure cb <= Ts.resetTimeout (Ts.config cb)) nows ->
  canExecuteAll nows cb = (List.map (fun _ => false) nows, cb).
Proof.
  intros Hs Hall. induction Hall as [| now rest Hnow _ IH]; simpl; [reflexivity |].
  rewrite (canExecute_refuses _ _ Hs Hnow), IH. reflexivity.
Qed.

Lemma recordFailure_config now cb :
  Ts.config (Ts.recordFailure now cb) = Ts.config cb.
Proof. reflexivity. Qed.

Lemma recordFailures_snoc times now cb :
  recordFailures (times ++ [now]) cb = Ts.recordFailure now (recordFailures times cb).
Proof. unfold recordFailures. now rewrite foldl_app. Qed.

Lemma recordFailures_count times cb :
  Ts.consecutiveFails (recordFailures times cb)
  = Ts.consecutiveFails cb + Z.of_nat (length times)
  /\ Ts.config (recordFailures times cb) = Ts.config cb.
Proof.
  induction times as [| now times IH] using rev_ind; simpl.
  - split; [lia | reflexivity].
  - rewrite recordFailures_snoc, length_app. simpl.
    destruct IH as [IHc IHg]. split; [rewrite IHc; lia | exact IHg].
Qed.

Lemma recordFailures_opens times cb :
  times <> [] ->
  Ts.failureThreshold (Ts.config cb) <= Ts.consecutiveFails cb + Z.of_nat (length times) ->
  Ts.state (recordFailures times cb) = Ts.open.
Proof.
  destruct times as [| now times _] using rev_ind; [congruence |].
  intros _ Hreach. rewrite recordFailures_snoc.
  destruct (recordFailures_count times cb) as [Hc Hg].
  unfold Ts.recordFailure; simpl. rewrite Hc, Hg.
  rewrite length_app in Hreach; simpl in Hreach.
  destruct (Z.leb_spec (Ts.failureThreshold (Ts.config cb))
              (Ts.consecutiveFails cb + Z.of_nat (length times) + 1)); [reflexivity | lia].
Qed.

Lemma recordFailures_lastFailure times now cb :
  Ts.lastFailure (recordFailures (times ++ [now]) cb) = now.
Proof. now rewrite recordFailures_snoc. Qed.

(** ** Router *)

Lemma consulted_refused now p :
  admits now (Ts.circuit p) = false -> consulted now p = p.
Proof.
  intros H. apply canExecute_false_inv in H as [H _].
  unfold consulted. rewrite H. now destruct p.
Qed.

Lemma findIndexFrom_Some f i ps j :
  findIndexFrom f i ps = Some j ->
  (i <= j)%nat /\ exists p, ps !! (j - i)%nat = Some p /\ f p = true
  /\ forall k q, (k < j - i)%nat -> ps !! k = Some q -> f q = false.
Proof.
  revert i. induction ps as [| p rest IH]; intros i; simpl; [discriminate |].
  destruct (f p) eqn:Hf.
  - intros [= <-]. split; [lia |]. exists p. rewrite Nat.sub_diag. simpl.
    repeat split; auto. intros k q Hk. lia.
  - intros H. apply IH in H as (Hle & q & Hq & Hfq & Hbefore).
    split; [lia |]. exists q. replace (j - i)%nat with (S (j - S i)) by lia.
    simpl. repeat split; auto.
    intros k q' Hk Hq'. destruct k as [| k]; simpl in Hq'.
    + now inversion Hq'; subst.
    + apply (Hbefore k); [lia | exact Hq'].
Qed.

Lemma findIndexFrom_None f i ps :
  findIndexFrom f i ps = None <-> Forall (fun p => f p = false) ps.
Proof.
  revert i. induction ps as [| p rest IH]; intros i; simpl.
  - split; [constructor | reflexivity].
  - destruct (f p) eqn:Hf.
    + split; [discriminate |]. intros H. inversion H; congruence.
    + rewrite IH. split; [now constructor | intros H; now inversion H].
Qed.

Lemma firstExecutable_spec now i ps :
  fst (Ts.firstExecutable now i ps) = findIndexFrom (fun p => admits now (Ts.circuit p)) i ps
  /\ match fst (Ts.firstExecutable now i ps) with
     | Some j => snd (Ts.firstExecutable now i ps) = alter (consulted now) (j - i)%nat ps
     | None => snd (Ts.firstExecutable now i ps) = ps
     end.
Proof.
  revert i. induction ps as [| p rest IH]; intros i; simpl; [auto |].
  unfold admits at 1. destruct (Ts.canExecute now (Ts.circuit p)) as [ok cb] eqn:Hc.
  simpl. destruct ok; simpl.
  - rewrite Nat.sub_diag. simpl. unfold consulted. now rewrite Hc.
  - specialize (IH (S i)).
    destruct (Ts.firstExecutable now (S i) rest) as [r rest'] eqn:Hr. simpl in *.
    destruct IH as [IH1 IH2]. split; [exact IH1 |].
    assert (Hp : Ts.withCircuit p cb = p).
    { rewrite <- (consulted_refused now p); [unfold consulted; now rewrite Hc |].
      unfold admits. now rewrite Hc. }
    rewrite Hp. destruct r as [j |].
    + rewrite IH1 in *. symmetry in IH1. apply findIndexFrom_Some in IH1 as [Hle _].
      replace (j - i)%nat with (S (j - S i)) by lia. simpl. now rewrite IH2.
    + now rewrite IH2.
Qed.

Lemma withCircuit_consulted now p ok cb :
  Ts.canExecute now (Ts.circuit p) = (ok, cb) -> Ts.withCircuit p cb = consulted now p.
Proof. intros H. unfold consulted. now rewrite H. Qed.

Lemma scanAfter_found_spec now c i ps :
  fst (Ts.scanAfter now c true i ps) = findIndexFrom (candidate now c) i ps
  /\ match fst (Ts.scanAfter now c true i ps) with
     | Some j => snd (Ts.scanAfter now c true i ps) = alter (consulted now) (j - i)%nat ps
     | None => snd (Ts.scanAfter now c true i ps) = ps
     end.
Proof.
  revert i. induction ps as [| p rest IH]; intros i; simpl; [auto |].
  unfold candidate at 1. specialize (IH (S i)).
  destruct (Ts.scanAfter now c true (S i) rest) as [r rest'] eqn:Hr. simpl in IH.
  destruct IH as [IH1 IH2].
  assert (Hstep : forall j, r = Some j -> (j - i)%nat = S (j - S i)).
  { intros j ->. symmetry in IH1. apply findIndexFrom_Some in IH1 as [Hle _]. lia. }
  destruct (String.eqb (Ts.name p) c) eqn:Hn; simpl.
  - split; [exact IH1 |]. destruct r as [j |]; [| now rewrite IH2].
    rewrite (Hstep j eq_refl). simpl. now rewrite IH2.
  - unfold admits. destruct (Ts.canExecute now (Ts.circuit p)) as [ok cb] eqn:Hc.
    simpl. destruct ok; simpl.
    + rewrite Nat.sub_diag. simpl. now rewrite (withCircuit_consulted _ _ _ _ Hc).
    + split; [exact IH1 |].
      rewrite (withCircuit_consulted _ _ _ _ Hc), consulted_refused
        by (unfold admits; now rewrite Hc).
      destruct r as [j |]; [| now rewrite IH2].
      rewrite (Hstep j eq_refl). simpl. now rewrite IH2.
Qed.

Lemma scanAfter_spec now c i ps :
  fst (Ts.scanAfter now c false i ps)
  = findIndexFrom (candidate now c) (i + S (firstNamed c ps))
      (drop (S (firstNamed c ps)) ps)
  /\ match fst (Ts.scanAfter now c false i ps) with
     | Some j => snd (Ts.scanAfter now c false i ps) = alter (consulted now) (j - i)%nat ps
                 /\ (i <= j)%nat
     | None => snd (Ts.scanAfter now c false i ps) = ps
     end.
Proof.
  revert i. induction ps as [| p rest IH]; intros i; simpl; [auto |].
  destruct (String.eqb (Ts.name p) c) eqn:Hn; simpl.
  - destruct (scanAfter_found_spec now c (S i) rest) as [H1 H2].
    destruct (Ts.scanAfter now c true (S i) rest) as [r rest'] eqn:Hr. simpl in *.
    rewrite Nat.add_1_r. split; [exact H1 |].
    destruct r as [j |]; [| now rewrite H2].
    symmetry in H1. apply findIndexFrom_Some in H1 as [Hle _].
    replace (j - i)%nat with (S (j - S i)) by lia. simpl. rewrite H2. split; [auto | lia].
  - specialize (IH (S i)).
    destruct (Ts.scanAfter now c false (S i) rest) as [r rest'] eqn:Hr. simpl in *.
    destruct IH as [IH1 IH2]. rewrite <- Nat.add_succ_comm. split; [exact IH1 |].
    destruct r as [j |]; [| now rewrite IH2].
    destruct IH2 as [IH2 Hle].
    replace (j - i)%nat with (S (j - S i)) by lia. simpl. rewrite IH2. split; [auto | lia].
Qed.

Lemma scanBefore_spec now c i ps :
  fst (Ts.scanBefore now c i ps) = findIndexFrom (candidate now c) i (take (firstNamed c ps) ps)
  /\ match fst (Ts.scanBefore now c i ps) with
     | Some j => snd (Ts.scanBefore now c i ps) = alter (consulted now) (j - i)%nat ps
                 /\ (i <= j)%nat
     | None => snd (Ts.scanBefore now c i ps) = ps
     end.
Proof.
  revert i. induction ps as [| p rest IH]; intros i; simpl; [auto |].
  destruct (String.eqb (Ts.name p) c) eqn:Hn; simpl; [auto |].
  unfold candidate at 1. rewrite Hn. simpl.
  unfold admits. destruct (Ts.canExecute now (Ts.circuit p)) as [ok cb] eqn:Hc.
  simpl. destruct ok; simpl.
  - rewrite Nat.sub_diag. simpl. rewrite (withCircuit_consulted _ _ _ _ Hc). auto.
  - specialize (IH (S i)).
    destruct (Ts.scanBefore now c (S i) rest) as [r rest'] eqn:Hr. simpl in *.
    destruct IH as [IH1 IH2]. split; [exact IH1 |].
    rewrite (withCircuit_consulted _ _ _ _ Hc), consulted_refused
      by (unfold admits; now rewrite Hc).
    destruct r as [j |]; [| now rewrite IH2].
    destruct IH2 as [IH2 Hle].
    replace (j - i)%nat with (S (j - S i)) by lia. simpl. rewrite IH2. split; [auto | lia].
Qed.

Lemma getNextProvider_spec now c r :
  fst (Ts.getNextProvider now c r) = nextInRotation now c r
  /\ snd (Ts.getNextProvider now c r)
     = match nextInRotation now c r with
       | Some j => alter (consulted now) j r
       | None => r
       end.
Proof.
  unfold Ts.getNextProvider, nextInRotation.
  destruct (scanAfter_spec now c 0 r) as [H1 H2].
  destruct (Ts.scanAfter now c false 0 r) as [a r1] eqn:Ha. simpl in *.
  rewrite <- H1. destruct a as [j |]; simpl.
  - destruct H2 as [H2 _]. rewrite Nat.sub_0_r in H2. auto.
  - subst r1. destruct (scanBefore_spec now c 0 r) as [H3 H4].
    destruct (Ts.scanBefore now c 0 r) as [b r2] eqn:Hb. simpl in *.
    rewrite <- H3. split; [reflexivity |].
    destruct b as [j |]; [| exact H4].
    destruct H4 as [H4 _]. now rewrite Nat.sub_0_r in H4.
Qed.

Lemma getHealthyProvider_spec now r :
  fst (Ts.getHealthyProvider now r) = findIndexFrom (fun p => admits now (Ts.circuit p)) 0 r
  /\ snd (Ts.getHealthyProvider now r)
     = match fst (Ts.getHealthyProvider now r) with
       | Some j => alter (consulted now) j r
       | None => r
       end.
Proof.
  unfold Ts.getHealthyProvider. destruct (firstExecutable_spec now 0 r) as [H1 H2].
  split; [exact H1 |].
  destruct (Ts.firstExecutable now 0 r) as [[j |] r']; simpl in *; [| exact H2].
  now rewrite Nat.sub_0_r in H2.
Qed.

Lemma firstNamed_before c ps k q :
  (k < firstNamed c ps)%nat -> ps !! k = Some q -> String.eqb (Ts.name q) c = false.
Proof.
  revert k. induction ps as [| p rest IH]; intros k; simpl; [lia |].
  destruct (String.eqb (Ts.name p) c) eqn:Hn; [lia |].
  destruct k as [| k]; simpl.
  - now intros _ [= <-].
  - intros Hk. apply IH. lia.
Qed.

Lemma firstNamed_at c ps q :
  ps !! firstNamed c ps = Some q -> String.eqb (Ts.name q) c = true.
Proof.
  induction ps as [| p rest IH]; simpl; [discriminate |].
  destruct (String.eqb (Ts.name p) c) eqn:Hn; simpl; [now intros [= <-] | exact IH].
Qed.

Lemma nextInRotation_Some now c r j :
  nextInRotation now c r = Some j ->
  exists p, r !! j = Some p /\ Ts.name p <> c /\ admits now (Ts.circuit p) = true.
Proof.
  unfold nextInRotation.
  assert (Hcand : forall p, candidate now c p = true ->
                            Ts.name p <> c /\ admits now (Ts.circuit p) = true).
  { intros p. unfold candidate. rewrite andb_true_iff, negb_true_iff.
    intros [Hn Ha]. split; [| exact Ha]. intros He. apply String.eqb_neq in Hn. contradiction. }
  destruct (findIndexFrom (candidate now c) (S (firstNamed c r)) (drop (S (firstNamed c r)) r))
    as [j' |] eqn:Hafter.
  - intros [= ->]. apply findIndexFrom_Some in Hafter as (Hle & p & Hp & Hf & _).
    rewrite lookup_drop in Hp.
    replace (S (firstNamed c r) + (j - S (firstNamed c r)))%nat with j in Hp by lia.
    exists p. split; [exact Hp | now apply Hcand].
  - intros Hbefore. apply findIndexFrom_Some in Hbefore as (_ & p & Hp & Hf & _).
    rewrite Nat.sub_0_r in Hp. apply lookup_take_Some in Hp as [Hp _].
    exists p. split; [exact Hp | now apply Hcand].
Qed.

Lemma nextInRotation_None now c r :
  nextInRotation now c r = None ->
  forall j p, r !! j = Some p -> Ts.name p <> c -> admits now (Ts.circuit p) = false.
Proof.
  unfold nextInRotation.
  destruct (findIndexFrom (candidate now c) (S (firstNamed c r)) (drop (S (firstNamed c r)) r))
    as [j' |] eqn:Hafter; [discriminate |].
  intros Hbefore j p Hp Hname.
  apply findIndexFrom_None in Hafter, Hbefore.
  rewrite Forall_lookup in Hafter, Hbefore.
  assert (Hcand : candidate now c p = false -> admits now (Ts.circuit p) = false).
  { unfold candidate. rewrite andb_false_iff, negb_false_iff.
    intros [Hn | Ha]; [| exact Ha]. apply String.eqb_eq in Hn. contradiction. }
  apply Hcand.
  destruct (lt_eq_lt_dec j (firstNamed c r)) as [[Hlt | Heq] | Hgt].
  - apply (Hbefore j). apply lookup_take_Some. split; [exact Hp | exact Hlt].
  - subst j. apply firstNamed_at in Hp. apply String.eqb_eq in Hp. contradiction.
  - apply (Hafter (j - S (firstNamed c r))%nat). rewrite lookup_drop.
    now replace (S (firstNamed c r) + (j - S (firstNamed c r)))%nat with j by lia.
Qed.

(** ** Retry client: shape of the attempt trace *)

Lemma follows_refused_irrelevant e p k b o :
  follows e (Ts.EvAttempt p k false (Ts.Responded "")) -> follows e (Ts.EvAttempt p k b o).
Proof. destruct e; simpl; auto. Qed.

Lemma adjacent_snoc R tr e :
  adjacent R tr -> (forall e0, last tr = Some e0 -> R e0 e) -> adjacent R (tr ++ [e]).
Proof.
  intros Hadj Hlast pre e1 e2 post Heq.
  destruct post as [| x post _] using rev_ind.
  - change (pre ++ [e1; e2]) with (pre ++ [e1] ++ [e2]) in Heq.
    rewrite app_assoc in Heq. apply app_inj_tail in Heq as [-> <-].
    apply Hlast. now rewrite last_snoc.
  - change (pre ++ e1 :: e2 :: post ++ [x]) with (pre ++ (e1 :: e2 :: post) ++ [x]) in Heq.
    rewrite app_assoc in Heq. apply app_inj_tail in Heq as [-> _].
    now apply (Hadj pre e1 e2 post).
Qed.

Lemma adjacent_nil R : adjacent R [].
Proof. intros [| ? ?] ? ? ? H; discriminate. Qed.

Lemma names_alter (g : Ts.Provider -> Ts.Provider) i (r : list Ts.Provider) :
  (forall p, Ts.name (g p) = Ts.name p) ->
  Ts.name <$> alter g i r = Ts.name <$> r.
Proof.
  intros Hg. apply list_eq. intros j. rewrite !list_lookup_fmap.
  destruct (decide (i = j)) as [-> | Hne].
  - rewrite list_lookup_alter_eq. destruct (r !! j) as [p |]; simpl; [| reflexivity].
    now rewrite Hg.
  - now rewrite list_lookup_alter_ne.
Qed.

Lemma names_updCircuit f i w :
  Ts.name <$> Ts.router (Ts.updCircuit f i w) = Ts.name <$> Ts.router w.
Proof. unfold Ts.updCircuit; simpl. now apply names_alter. Qed.

Lemma names_alter_consulted now j (r : list Ts.Provider) :
  Ts.name <$> alter (consulted now) j r = Ts.name <$> r.
Proof. now apply names_alter. Qed.

Lemma name_of_names (r r' : list Ts.Provider) i :
  Ts.name <$> r' = Ts.name <$> r -> Ts.name <$> (r' !! i) = Ts.name <$> (r !! i).
Proof. intros H. now rewrite <- !list_lookup_fmap, H. Qed.

(** One run of the retry loop keeps the trace well shaped, leaves the
    provider names alone, and when it throws a failover error the last event
    is the rate-limited attempt itself (no sleep after it). *)
Lemma retryLoop_trace env rc i pname n attempt w :
  adjacent follows (Ts.trace w) ->
  allowsNext (Ts.trace w) pname attempt ->
  let '(res, w') := Ts.retryLoop env rc i pname n attempt w in
  adjacent follows (Ts.trace w')
  /\ Ts.name <$> Ts.router w' = Ts.name <$> Ts.router w
  /\ (forall t, res = Ts.Threw t -> isFailover t = true ->
      forall p', p' <> pname -> allowsNext (Ts.trace w') p' 1).
Proof.
  revert attempt w. induction n as [| n IH]; intros attempt w Hadj Hnext; simpl.
  - repeat split; auto. intros t [= <-]. discriminate.
  - unfold Ts.performRequest.
    destruct (Ts.upstream env (Ts.fetched w)) as [dt f].
    set (refused := from_option _ false _).
    set (o := Ts.doRequest f).
    set (w1 := {| Ts.clock := Ts.clock w + dt; Ts.fetched := S (Ts.fetched w);
                  Ts.drawn := Ts.drawn w; Ts.router := Ts.router w;
                  Ts.trace := Ts.trace w ++ [Ts.EvAttempt pname attempt refused o] |}).
    assert (Hadj1 : adjacent follows (Ts.trace w1)).
    { apply adjacent_snoc; [exact Hadj |]. intros e0 He0.
      apply follows_refused_irrelevant. now apply Hnext. }
    destruct o as [c | t] eqn:Ho.
    + repeat split; auto.
      * now rewrite names_updCircuit.
      * intros t [=].
    + set (w2 := Ts.updCircuit (Ts.recordFailure (Ts.clock w1)) i w1).
      set (giveUp := match t with
                     | Ts.ThrownProviderError e => Ts.failover e || negb (Ts.retryable e)
                     | Ts.ThrownError => false
                     end).
      assert (Hn2 : Ts.name <$> Ts.router w2 = Ts.name <$> Ts.router w).
      { unfold w2. now rewrite names_updCircuit. }
      destruct giveUp eqn:Hg.
      * repeat split; auto.
        intros t' [= <-] Hfo p' Hp' e He. simpl in He. rewrite last_snoc in He.
        inversion He; subst e. simpl. intros _. split; [reflexivity | exact Hp'].
      * assert (Hnf : isFailover t = false).
        { unfold giveUp in Hg. destruct t as [e |]; simpl in *; [| reflexivity].
          now apply orb_false_iff in Hg as [Hg _]. }
        set (w3 := if attempt <? Ts.maxAttempts rc
                   then Ts.backoffAndSleep env rc attempt w2 else w2).
        assert (H3 : adjacent follows (Ts.trace w3)
                     /\ allowsNext (Ts.trace w3) pname (attempt + 1)
                     /\ Ts.name <$> Ts.router w3 = Ts.name <$> Ts.router w).
        { unfold w3. destruct (attempt <? Ts.maxAttempts rc); simpl.
          - repeat split; auto.
            + apply adjacent_snoc; [exact Hadj1 |]. intros e0 He0. simpl in He0.
              rewrite last_snoc in He0. inversion He0; subst e0. simpl.
              rewrite Hnf. discriminate.
            + intros e He. rewrite last_snoc in He. now inversion He.
          - repeat split; auto.
            intros e He. simpl in He. rewrite last_snoc in He.
            inversion He; subst e. simpl. rewrite Hnf. discriminate. }
        destruct H3 as (Hadj3 & Hnext3 & Hn3).
        specialize (IH (attempt + 1) w3 Hadj3 Hnext3).
        destruct (Ts.retryLoop env rc i pname n (attempt + 1) w3) as [res w'].
        destruct IH as (IHa & IHn & IHt). repeat split; auto. congruence.
Qed.

Lemma callWithRetry_trace env rc i w :
  adjacent follows (Ts.trace w) ->
  (forall p, Ts.nthProvider w i = Some p -> allowsNext (Ts.trace w) (Ts.name p) 1) ->
  let '(res, w') := Ts.callWithRetry env rc i w in
  adjacent follows (Ts.trace w')
  /\ Ts.name <$> Ts.router w' = Ts.name <$> Ts.router w
  /\ (forall t, res = Ts.Threw t -> isFailover t = true ->
      forall p', Some p' <> (Ts.name <$> Ts.nthProvider w i) -> allowsNext (Ts.trace w') p' 1).
Proof.
  intros Hadj Hnext. unfold Ts.callWithRetry.
  destruct (Ts.nthProvider w i) as [p |] eqn:Hp.
  - pose proof (retryLoop_trace env rc i (Ts.name p) (Z.to_nat (Ts.maxAttempts rc)) 1 w
                  Hadj (Hnext p eq_refl)) as H.
    destruct (Ts.retryLoop env rc i (Ts.name p) (Z.to_nat (Ts.maxAttempts rc)) 1 w)
      as [res w'].
    destruct H as (Ha & Hn & Ht). repeat split; auto.
    intros t Hres Hfo p' Hp'. apply (Ht t Hres Hfo). simpl in Hp'. congruence.
  - repeat split; auto. intros t [= <-]. discriminate.
Qed.

Lemma callLoop_trace env rc fuel i total w :
  adjacent follows (Ts.trace w) ->
  (forall p, Ts.nthProvider w i = Some p -> allowsNext (Ts.trace w) (Ts.name p) 1) ->
  adjacent follows (Ts.trace (snd (Ts.callLoop env rc fuel i total w))).
Proof.
  revert i total w. induction fuel as [| fuel IH]; intros i total w Hadj Hnext; simpl;
    [exact Hadj |].
  pose proof (callWithRetry_trace env rc i w Hadj Hnext) as H.
  destruct (Ts.callWithRetry env rc i w) as [[c pname attempts | t] w1];
    destruct H as (Ha & Hn & Ht); simpl; [exact Ha |].
  change (match t with
          | Ts.ThrownProviderError e => Ts.failover e
          | Ts.ThrownError => false
          end) with (isFailover t).
  destruct (isFailover t) eqn:Hfo; simpl; [| exact Ha].
  destruct (getNextProvider_spec (Ts.clock w1)
              (from_option Ts.name "" (Ts.nthProvider w1 i)) (Ts.router w1)) as [Hs1 Hs2].
  destruct (Ts.getNextProvider (Ts.clock w1) (from_option Ts.name "" (Ts.nthProvider w1 i))
              (Ts.router w1)) as [[j |] r'] eqn:Hnext'; simpl in *; [| exact Ha].
  symmetry in Hs1. rewrite Hs1 in Hs2.
  apply nextInRotation_Some in Hs1 as (q & Hq & Hname & _).
  apply IH; simpl; [exact Ha |].
  intros q' Hq'. unfold Ts.nthProvider in Hq'. simpl in Hq'. subst r'.
  rewrite list_lookup_alter_eq, Hq in Hq'. simpl in Hq'. inversion Hq'; subst q'.
  apply (Ht t eq_refl Hfo). simpl.
  intros Heq. apply Hname.
  pose proof (name_of_names _ _ i Hn) as Hi. unfold Ts.nthProvider in *.
  rewrite <- Heq in Hi. destruct (Ts.router w1 !! i) as [p1 |]; simpl in *; [| discriminate].
  congruence.
Qed.

Lemma call_trace env rc fuel w :
  Ts.trace w = [] ->
  adjacent follows (Ts.trace (snd (Ts.call env rc fuel w))).
Proof.
  intros Hnil. unfold Ts.call.
  destruct (Ts.getHealthyProvider (Ts.clock w) (Ts.router w)) as [[i |] r'];
    simpl; [| rewrite Hnil; apply adjacent_nil].
  apply callLoop_trace; simpl; rewrite Hnil; [apply adjacent_nil |].
  intros p _ e He. discriminate.
Qed.

(** ** Go circuit breaker *)

Lemma IsOpen_half_open now cb :
  Go.state cb = Go.StateHalfOpen -> Go.IsOpen now cb = (false, cb).
Proof. intros H. unfold Go.IsOpen. now rewrite H. Qed.

Lemma IsOpenAll_half_open nows cb :
  Go.state cb = Go.StateHalfOpen ->
  IsOpenAll nows cb = (List.map (fun _ => false) nows, cb).
Proof.
  intros Hs. induction nows as [| now rest IH]; simpl; [reflexivity |].
  rewrite (IsOpen_half_open _ _ Hs), IH. reflexivity.
Qed.

(** ** The claims *)

(** C1 (as the code has it).  Once the timeout has strictly elapsed on an
    open circuit, the first admission check moves the Go breaker to HalfOpen
    and admits the caller, and every further check made while the breaker is
    still HalfOpen admits its caller as well: nothing limits the probes to one.
    In the two-state TypeScript breaker the same first check resets the
    circuit to closed with a zero failure count, and again every caller is
    admitted.  At an elapsed time equal to the timeout the circuit still
    refuses. *)
Theorem C1_probe_admission_is_not_exclusive :
  (forall now nows cb,
      Go.state cb = Go.StateOpen ->
      Go.timeout cb < now - Go.openedAt cb ->
      IsOpenAll (now :: nows) cb
      = (List.map (fun _ => false) (now :: nows), Go.setState cb Go.StateHalfOpen))
  /\ (forall now cb,
      Go.state cb = Go.StateOpen ->
      now - Go.openedAt cb <= Go.timeout cb ->
      Go.IsOpen now cb = (true, cb))
  /\ (forall now nows cb,
      Ts.state cb = Ts.open ->
      Ts.resetTimeout (Ts.config cb) < now - Ts.lastFailure cb ->
      canExecuteAll (now :: nows) cb
      = (List.map (fun _ => true) (now :: nows),
         {| Ts.state := Ts.closed; Ts.consecutiveFails := 0;
            Ts.lastFailure := Ts.lastFailure cb; Ts.config := Ts.config cb |})).
Proof.
  split; [| split].
  - intros now nows cb Hs Hlt. simpl. unfold Go.IsOpen at 1. rewrite Hs.
    destruct (Z.ltb_spec (Go.timeout cb) (now - Go.openedAt cb)); [| lia].
    now rewrite IsOpenAll_half_open.
  - intros now cb Hs Hle. unfold Go.IsOpen. rewrite Hs.
    destruct (Z.ltb_spec (Go.timeout cb) (now - Go.openedAt cb)); [lia | reflexivity].
  - intros now nows cb Hs Hlt. simpl. rewrite (canExecute_resets _ _ Hs Hlt).
    now rewrite canExecuteAll_closed.
Qed.

Lemma C1_probe_admission_witness :
  (Go.state openedAtZero = Go.StateOpen
   /\ Go.timeout openedAtZero < 31 - Go.openedAt openedAtZero)
  /\ IsOpenAll [31; 31; 31] openedAtZero
     = ([false; false; false], Go.setState openedAtZero Go.StateHalfOpen).
Proof.
  split; [split; [reflexivity | simpl; lia] |].
  apply (proj1 C1_probe_admission_is_not_exclusive 31 [31; 31] openedAtZero);
    [reflexivity | simpl; lia].
Defined.

(** C1 as stated fails: two callers that check the same open circuit right
    after its timeout are both admitted ([IsOpen] answers false to both, and
    [canExecute] answers true to both). *)
Lemma C1_second_caller_is_admitted :
  fst (IsOpenAll [31; 31] openedAtZero) = [false; false]
  /\ fst (canExecuteAll [30001; 30001] trippedAtZero) = [true; true].
Proof. split; reflexivity. Qed.

(** C5 (as the code has it).  A success recorded while the Go breaker is
    HalfOpen closes it with a failure count of 0.  In state Closed the Go
    breaker only decrements a positive failure count by one, and in state
    Open it leaves count and state alone.  The two-state TypeScript breaker
    resets the count to 0 in both of its states and keeps its state. *)
Theorem C5_recordSuccess :
  (forall cb, Go.state cb = Go.StateHalfOpen ->
      Go.state (Go.RecordSuccess cb) = Go.StateClosed
      /\ Go.failureCount (Go.RecordSuccess cb) = 0)
  /\ (forall cb, Go.state cb = Go.StateClosed ->
      Go.state (Go.RecordSuccess cb) = Go.StateClosed
      /\ Go.failureCount (Go.RecordSuccess cb)
         = if 0 <? Go.failureCount cb then Go.failureCount cb - 1 else Go.failureCount cb)
  /\ (forall cb, Go.state cb = Go.StateOpen ->
      Go.state (Go.RecordSuccess cb) = Go.StateOpen
      /\ Go.failureCount (Go.RecordSuccess cb) = Go.failureCount cb)
  /\ (forall cb,
      Ts.consecutiveFails (Ts.recordSuccess cb) = 0
      /\ Ts.state (Ts.recordSuccess cb) = Ts.state cb).
Proof.
  repeat split; try (unfold Go.RecordSuccess; rewrite H; reflexivity).
Qed.

(** C5 as stated fails: a success recorded on a closed Go breaker with two
    failures on record leaves one failure on record. *)
Lemma C5_closed_success_only_decrements :
  Go.state twoFailures = Go.StateClosed
  /\ Go.failureCount (Go.RecordSuccess twoFailures) = 1.
Proof. split; reflexivity. Qed.

Lemma C5_recordSuccess_witness :
  Go.state (Go.setState openedAtZero Go.StateHalfOpen) = Go.StateHalfOpen
  /\ Go.state (Go.RecordSuccess (Go.setState openedAtZero Go.StateHalfOpen)) = Go.StateClosed
  /\ Go.failureCount (Go.RecordSuccess (Go.setState openedAtZero Go.StateHalfOpen)) = 0.
Proof.
  split; [reflexivity |].
  apply (proj1 C5_recordSuccess (Go.setState openedAtZero Go.StateHalfOpen)).
  reflexivity.
Defined.

Lemma refused_not_healthy now (r : list Ts.Provider) i p :
  r !! i = Some p -> admits now (Ts.circuit p) = false ->
  fst (Ts.getHealthyProvider now r) <> Some i.
Proof.
  intros Hp Hrefuse Hsel.
  rewrite (proj1 (getHealthyProvider_spec now r)) in Hsel.
  apply findIndexFrom_Some in Hsel as (_ & q & Hq & Hadm & _).
  rewrite Nat.sub_0_r in Hq. congruence.
Qed.

Lemma refused_not_next now c (r : list Ts.Provider) i p :
  r !! i = Some p -> admits now (Ts.circuit p) = false ->
  fst (Ts.getNextProvider now c r) <> Some i.
Proof.
  intros Hp Hrefuse Hsel.
  rewrite (proj1 (getNextProvider_spec now c r)) in Hsel.
  apply nextInRotation_Some in Hsel as (q & Hq & _ & Hadm). congruence.
Qed.

(** C6 (as the code has it).  When recorded failures bring the consecutive
    count to the threshold the circuit is open; while it is open and no more
    than the reset timeout has passed since the last failure, every
    [canExecute] call answers false and leaves the breaker untouched, so
    neither [getHealthyProvider] nor [getNextProvider] selects that provider.
    (Retries of a [callWithRetry] run already under way do not consult the
    circuit.) *)
Theorem C6_open_circuit_is_not_selected (cb : Ts.CircuitBreaker) (times : list Z) :
  times <> [] ->
  Ts.failureThreshold (Ts.config cb)
    <= Ts.consecutiveFails cb + Z.of_nat (length times) ->
  let cb' := recordFailures times cb in
  Ts.state cb' = Ts.open
  /\ (forall nows,
        Forall (fun now => now - Ts.lastFailure cb' <= Ts.resetTimeout (Ts.config cb')) nows ->
        canExecuteAll nows cb' = (List.map (fun _ => false) nows, cb'))
  /\ (forall now (r : list Ts.Provider) i p,
        r !! i = Some p -> Ts.circuit p = cb' ->
        now - Ts.lastFailure cb' <= Ts.resetTimeout (Ts.config cb') ->
        fst (Ts.getHealthyProvider now r) <> Some i
        /\ forall c, fst (Ts.getNextProvider now c r) <> Some i).
Proof.
  intros Hne Hreach cb'.
  assert (Hopen : Ts.state cb' = Ts.open) by now apply recordFailures_opens.
  split; [exact Hopen | split].
  - intros nows Hall. now apply canExecuteAll_refuses.
  - intros now r i p Hp Hcb Hwin.
    assert (Hrefuse : admits now (Ts.circuit p) = false).
    { unfold admits. rewrite Hcb. now rewrite canExecute_refuses. }
    split; [| intros c]; eauto using refused_not_healthy, refused_not_next.
Qed.

Lemma C6_open_circuit_witness :
  ([100; 200; 300] <> []
   /\ Ts.failureThreshold (Ts.config (Ts.newCircuitBreaker Ts.defaultCircuitConfig))
      <= Ts.consecutiveFails (Ts.newCircuitBreaker Ts.defaultCircuitConfig)
         + Z.of_nat (length [100; 200; 300]))
  /\ Ts.state (recordFailures [100; 200; 300] (Ts.newCircuitBreaker Ts.defaultCircuitConfig))
     = Ts.open.
Proof.
  assert (H1 : [100; 200; 300] <> []) by discriminate.
  assert (H2 : Ts.failureThreshold (Ts.config (Ts.newCircuitBreaker Ts.defaultCircuitConfig))
               <= Ts.consecutiveFails (Ts.newCircuitBreaker Ts.defaultCircuitConfig)
                  + Z.of_nat (length [100; 200; 300])) by (simpl; lia).
  split; [split; assumption |].
  exact (proj1 (C6_open_circuit_is_not_selected
                  (Ts.newCircuitBreaker Ts.defaultCircuitConfig) [100; 200; 300] H1 H2)).
Defined.

(** C6 as stated fails: with one failure already on record, two server
    errors open the circuit during a [callWithRetry] run, and the third
    attempt of that run is still sent to the provider, 2000 ms after the
    failure that opened the circuit (the attempt is flagged as refused). *)
Lemma C6_retry_reaches_open_circuit :
  Ts.trace (snd (Ts.call alwaysServerError Ts.defaultRetryConfig 10 oneFailureOnRecord))
  = [ Ts.EvAttempt "openai" 1 false (Ts.Failed (Ts.ThrownProviderError (Ts.serverError 500)));
      Ts.EvSleep 1000;
      Ts.EvAttempt "openai" 2 false (Ts.Failed (Ts.ThrownProviderError (Ts.serverError 500)));
      Ts.EvSleep 2000;
      Ts.EvAttempt "openai" 3 true (Ts.Failed (Ts.ThrownProviderError (Ts.serverError 500))) ].
Proof. vm_compute. reflexivity. Qed.

(** C2 (as the code has it).  [getNextProvider] wraps around: it returns the
    first provider after the current one whose circuit admits a request, else
    the first such provider before the current one, whether or not that
    provider was tried earlier for the request.  It never returns a provider
    with the current name, and it returns none exactly when no other
    provider's circuit admits a request; [call] then fails with the last
    error.  The Go router excludes nothing either: [SelectProvider] answers
    with a provider whenever the model is served at all, and on a retry it
    answers with the previous provider again when no other serves the model. *)
Theorem C2_getNextProvider_wraps_around (now : Z) (c : string) (r : list Ts.Provider) :
  fst (Ts.getNextProvider now c r) = nextInRotation now c r
  /\ (forall j, fst (Ts.getNextProvider now c r) = Some j ->
        exists p, r !! j = Some p /\ Ts.name p <> c /\ admits now (Ts.circuit p) = true)
  /\ (fst (Ts.getNextProvider now c r) = None <->
        forall j p, r !! j = Some p -> Ts.name p <> c -> admits now (Ts.circuit p) = false)
  /\ (forall env rc fuel i total w t w1,
        Ts.callWithRetry env rc i w = (Ts.Threw t, w1) ->
        isFailover t = true ->
        fst (Ts.getNextProvider (Ts.clock w1)
               (from_option Ts.name "" (Ts.nthProvider w1 i)) (Ts.router w1)) = None ->
        fst (Ts.callLoop env rc (S fuel) i total w) = Ts.AllAttemptsFailed t)
  /\ (forall gr req n prev,
        (exists p, Go.SelectProvider gr req n prev = inl p)
        <-> default [] (Go.modelToProvider gr !! Go.Model req) <> [])
  /\ (forall gr req n prev,
        n <> 1 -> Go.modelToProvider gr !! Go.Model req = Some [prev] ->
        Go.SelectProvider gr req n prev = inl prev).
Proof.
  destruct (getNextProvider_spec now c r) as [Hspec _].
  split; [exact Hspec | split; [| split; [| split; [| split]]]].
  - intros j Hj. rewrite Hspec in Hj. now apply nextInRotation_Some.
  - rewrite Hspec. split; [apply nextInRotation_None |].
    intros Hall. destruct (nextInRotation now c r) as [j |] eqn:Hj; [| reflexivity].
    apply nextInRotation_Some in Hj as (p & Hp & Hname & Hadm).
    rewrite (Hall j p Hp Hname) in Hadm. discriminate.
  - intros env rc fuel i total w t w1 Hcall Hfo Hnone. simpl. rewrite Hcall.
    change (match t with
            | Ts.ThrownProviderError e => Ts.failover e
            | Ts.ThrownError => false
            end) with (isFailover t).
    rewrite Hfo.
    destruct (Ts.getNextProvider (Ts.clock w1)
                (from_option Ts.name "" (Ts.nthProvider w1 i)) (Ts.router w1))
      as [[j |] r']; simpl in *; [discriminate | reflexivity].
  - intros gr req n prev. unfold Go.SelectProvider.
    destruct (default [] (Go.modelToProvider gr !! Go.Model req)) as [| first rest].
    + split; [intros [p Hp]; discriminate | congruence].
    + split; [discriminate | intros _].
      destruct (n =? 1); [destruct (_ && _) |]; eauto.
      destruct (List.find _ _); eauto.
  - intros gr req n prev Hn Hmodel. unfold Go.SelectProvider. rewrite Hmodel. simpl.
    destruct (Z.eqb_spec n 1) as [-> | _]; [contradiction |].
    now rewrite String.eqb_refl.
Qed.

Lemma C2_wraps_around_witness :
  fst (Ts.getNextProvider 1000 "anthropic" (Ts.router freshGateway)) = Some 0%nat
  /\ exists p, Ts.router freshGateway !! 0%nat = Some p /\ Ts.name p <> "anthropic"
               /\ admits 1000 (Ts.circuit p) = true.
Proof.
  assert (H : fst (Ts.getNextProvider 1000 "anthropic" (Ts.router freshGateway)) = Some 0%nat)
    by reflexivity.
  split; [exact H |].
  exact (proj1 (proj2 (C2_getNextProvider_wraps_around 1000 "anthropic"
                         (Ts.router freshGateway))) 0%nat H).
Defined.

(** C2 as stated fails: when both providers answer 429 in turn, the router
    hands the first provider out again after both have been tried, and the
    request is attempted on it a second time.  The Go router, on the second
    attempt of a request whose two providers include the one just tried,
    returns a provider and never none; with the demo configuration the third
    attempt goes back to openai. *)
Lemma C2_tried_provider_is_selected_again :
  attemptsOf (Ts.trace (snd (Ts.call rateLimitedTwice Ts.defaultRetryConfig 10 freshGateway)))
  = [("openai", 1); ("anthropic", 1); ("openai", 1)]
  /\ fst (Ts.call rateLimitedTwice Ts.defaultRetryConfig 10 freshGateway)
     = Ts.CallReturned "hello" "openai" 7
  /\ Go.SelectProvider demoRouter gpt4Request 2 "openai" = inl "anthropic"%string
  /\ Go.SelectProvider demoRouter gpt4Request 3 "anthropic" = inl "openai"%string.
Proof. repeat split; vm_compute; reflexivity. Qed.

(** C3 (failing input).  Provider openai answers 429 to its first attempt
    and anthropic answers 200 to its first attempt: two attempts are made,
    one per provider, and the response reports [attempts = 4], because
    [call] adds [maxAttempts] (3) for the provider it left instead of the
    attempts made there. *)
Theorem C3_reported_attempts_overcount :
  attemptsOf (Ts.trace (snd (Ts.call rateLimitedOnce Ts.defaultRetryConfig 10 freshGateway)))
  = [("openai", 1); ("anthropic", 1)]
  /\ fst (Ts.call rateLimitedOnce Ts.defaultRetryConfig 10 freshGateway)
     = Ts.CallReturned "hello" "anthropic" 4.
Proof. split; vm_compute; reflexivity. Qed.

Lemma doRequest_failoverOnly f :
  failoverOnly (Ts.doRequest f) = true <-> exists body, f = Ts.FetchStatus 429 body.
Proof.
  split.
  - destruct f as [| | | status body]; simpl; try discriminate.
    destruct (Z.leb_spec 500 status); simpl; [discriminate |].
    destruct (Z.eqb_spec status 429) as [-> | Hne]; simpl; [eauto |].
    destruct (400 <=? status); simpl; [discriminate |].
    destruct body as [[c |] |]; discriminate.
  - intros [body ->]. reflexivity.
Qed.

Lemma admitted_stays_admitted now cb :
  admits now cb = true -> admits now (snd (Ts.canExecute now cb)) = true.
Proof.
  unfold admits, Ts.canExecute. destruct (Ts.state cb) eqn:Hs; simpl.
  - now rewrite Hs.
  - destruct (Ts.resetTimeout (Ts.config cb) <? now - Ts.lastFailure cb); simpl;
      [reflexivity | discriminate].
Qed.

Lemma admits_iff now cb :
  admits now cb = true
  <-> Ts.state cb = Ts.closed
      \/ Ts.resetTimeout (Ts.config cb) < now - Ts.lastFailure cb.
Proof.
  unfold admits, Ts.canExecute. destruct (Ts.state cb); simpl.
  - split; auto.
  - destruct (Z.ltb_spec (Ts.resetTimeout (Ts.config cb)) (now - Ts.lastFailure cb)); simpl.
    + split; auto.
    + split; [discriminate | intros [Hc | Hlt]; [discriminate | lia]].
Qed.

(** An element with a property that no element of [l1] has lies in [l2]. *)
Lemma split_after {A} (P : A -> bool) (l1 l2 pre post : list A) (e : A) :
  Forall (fun x => P x = false) l1 -> P e = true ->
  l1 ++ l2 = pre ++ e :: post ->
  exists pre', pre = l1 ++ pre' /\ l2 = pre' ++ e :: post.
Proof.
  intros Hl1 He. revert pre. induction Hl1 as [| x l1 Hx _ IH]; intros pre Heq.
  - exists pre. auto.
  - destruct pre as [| y pre]; simpl in Heq.
    + injection Heq as -> _. congruence.
    + injection Heq as -> Heq. destruct (IH pre Heq) as (pre' & -> & ->). eauto.
Qed.

(** The events of one run of the retry loop: they are appended to the trace,
    the first is the attempt with the loop's number, and an attempt that is
    rate limited is the last of them and is what the run throws. *)
Lemma retryLoop_events env rc i pname n attempt w :
  exists new,
    Ts.trace (snd (Ts.retryLoop env rc i pname n attempt w)) = Ts.trace w ++ new
    /\ Ts.name <$> Ts.router (snd (Ts.retryLoop env rc i pname n attempt w))
       = Ts.name <$> Ts.router w
    /\ (n <> O ->
        exists rest,
          new = Ts.EvAttempt pname attempt
                  (from_option
                     (fun p => negb (fst (Ts.canExecute (Ts.clock w) (Ts.circuit p))))
                     false (Ts.nthProvider w i))
                  (Ts.doRequest (snd (Ts.upstream env (Ts.fetched w)))) :: rest)
    /\ (forall pre e post, new = pre ++ e :: post -> rateLimited e = true ->
          post = []
          /\ exists k b t, e = Ts.EvAttempt pname k b (Ts.Failed t)
               /\ fst (Ts.retryLoop env rc i pname n attempt w) = Ts.Threw t)
    /\ (forall t, fst (Ts.retryLoop env rc i pname n attempt w) = Ts.Threw t ->
          isFailover t = true ->
          exists pre k b, new = pre ++ [Ts.EvAttempt pname k b (Ts.Failed t)]).
Proof.
  revert attempt w. induction n as [| n IH]; intros attempt w.
  - exists []. simpl. rewrite app_nil_r.
    split; [reflexivity |]. split; [reflexivity |]. split; [congruence |]. split.
    + intros pre e post Heq. now destruct pre.
    + intros t [= <-]. discriminate.
  - simpl. unfold Ts.performRequest.
    destruct (Ts.upstream env (Ts.fetched w)) as [dt f]. simpl snd.
    set (refused := from_option _ false _). clearbody refused.
    set (ev := Ts.EvAttempt pname attempt refused (Ts.doRequest f)).
    set (w1 := {| Ts.clock := Ts.clock w + dt; Ts.fetched := S (Ts.fetched w);
                  Ts.drawn := Ts.drawn w; Ts.router := Ts.router w;
                  Ts.trace := Ts.trace w ++ [ev] |}).
    assert (Hsingle : forall pre e post, [ev] = pre ++ e :: post -> e = ev /\ post = []).
    { intros [| x pre] e post Heq; simpl in Heq; [now injection Heq as <- <- |].
      injection Heq as _ Heq. now destruct pre. }
    destruct (Ts.doRequest f) as [c | t] eqn:Ho.
    + exists [ev]. simpl. split; [reflexivity |].
      split; [apply names_alter; reflexivity |].
      split; [intros _; now exists [] |].
      split; [| intros t [=]].
      intros pre e post Heq He. apply Hsingle in Heq as [-> ->]. discriminate.
    + set (w2 := Ts.updCircuit (Ts.recordFailure (Ts.clock w1)) i w1).
      assert (Hn2 : Ts.name <$> Ts.router w2 = Ts.name <$> Ts.router w)
        by (apply names_alter; reflexivity).
      destruct (match t with
                | Ts.ThrownProviderError e => Ts.failover e || negb (Ts.retryable e)
                | Ts.ThrownError => false
                end) eqn:Hg.
      * exists [ev]. simpl. split; [reflexivity |]. split; [exact Hn2 |].
        split; [intros _; now exists [] |]. split.
        -- intros pre e post Heq He. apply Hsingle in Heq as [-> ->].
           split; [reflexivity |]. exists attempt, refused, t. auto.
        -- intros t' [= <-] _. exists [], attempt, refused. reflexivity.
      * assert (Hnf : isFailover t = false).
        { destruct t as [e |]; simpl in *; [| reflexivity].
          now apply orb_false_iff in Hg as [Hg _]. }
        set (w3 := if attempt <? Ts.maxAttempts rc
                   then Ts.backoffAndSleep env rc attempt w2 else w2).
        assert (H3 : exists sleeps,
                       Ts.trace w3 = Ts.trace w ++ ev :: sleeps
                       /\ Forall (fun x => rateLimited x = false) (ev :: sleeps)
                       /\ Ts.name <$> Ts.router w3 = Ts.name <$> Ts.router w).
        { unfold w3. destruct (attempt <? Ts.maxAttempts rc).
          - eexists [_]. simpl. rewrite <- app_assoc. split; [reflexivity |].
            split; [| exact Hn2]. repeat constructor. exact Hnf.
          - exists []. simpl. split; [reflexivity |].
            split; [| exact Hn2]. repeat constructor. exact Hnf. }
        destruct H3 as (sleeps & Htr3 & Hnone & Hn3).
        destruct (IH (attempt + 1) w3) as (new & Htr & Hnames & _ & Hlast & Hthrown).
        exists (ev :: sleeps ++ new).
        split.
        { change (Ts.trace (snd (Ts.retryLoop env rc i pname n (attempt + 1) w3))
                  = Ts.trace w ++ ev :: sleeps ++ new).
          rewrite Htr, Htr3, <- app_assoc. reflexivity. }
        split.
        { change (Ts.name <$> Ts.router (snd (Ts.retryLoop env rc i pname n (attempt + 1) w3))
                  = Ts.name <$> Ts.router w).
          now rewrite Hnames. }
        split; [intros _; now exists (sleeps ++ new) |]. split.
        -- intros pre e post Heq He.
           change (ev :: sleeps ++ new) with ((ev :: sleeps) ++ new) in Heq.
           destruct (split_after rateLimited _ _ _ _ _ Hnone He Heq) as (pre' & _ & Hnew).
           exact (Hlast pre' e post Hnew He).
        -- intros t' Hres Hfo. destruct (Hthrown t' Hres Hfo) as (pre & k & b & ->).
           exists (ev :: sleeps ++ pre), k, b. simpl. now rewrite <- app_assoc.
Qed.

Lemma callLoop_extends env rc fuel i total w :
  exists more, Ts.trace (snd (Ts.callLoop env rc fuel i total w)) = Ts.trace w ++ more.
Proof.
  revert i total w. induction fuel as [| fuel IH]; intros i total w; simpl.
  - exists []. now rewrite app_nil_r.
  - assert (Hrun : exists new, Ts.trace (snd (Ts.callWithRetry env rc i w))
                               = Ts.trace w ++ new).
    { unfold Ts.callWithRetry. destruct (Ts.nthProvider w i) as [p |].
      - destruct (retryLoop_events env rc i (Ts.name p) (Z.to_nat (Ts.maxAttempts rc)) 1 w)
          as (new & Hnew & _). eauto.
      - exists []. simpl. now rewrite app_nil_r. }
    destruct Hrun as (new & Hnew).
    destruct (Ts.callWithRetry env rc i w) as [[c pname attempts | t] w1]; simpl in *;
      [eauto |].
    destruct (match t with
              | Ts.ThrownProviderError e => Ts.failover e
              | Ts.ThrownError => false
              end); [| eauto].
    destruct (Ts.getNextProvider _ _ _) as [[j |] r']; simpl; [| eauto].
    destruct (IH j (total + Ts.maxAttempts rc) (Ts.withRouter w1 r')) as (more & Hmore).
    exists (new ++ more). rewrite Hmore. simpl. now rewrite Hnew, <- app_assoc.
Qed.

(** The first event of a turn of [call]'s loop is attempt 1 on its provider. *)
Lemma callLoop_first_attempt env rc fuel j total w q :
  Ts.nthProvider w j = Some q -> 1 <= Ts.maxAttempts rc ->
  exists rest,
    Ts.trace (snd (Ts.callLoop env rc (S fuel) j total w))
    = Ts.trace w
      ++ Ts.EvAttempt (Ts.name q) 1 (negb (admits (Ts.clock w) (Ts.circuit q)))
           (Ts.doRequest (snd (Ts.upstream env (Ts.fetched w)))) :: rest.
Proof.
  intros Hq Hmax. simpl.
  assert (Hrun : exists rest,
            Ts.trace (snd (Ts.callWithRetry env rc j w))
            = Ts.trace w
              ++ Ts.EvAttempt (Ts.name q) 1 (negb (admits (Ts.clock w) (Ts.circuit q)))
                   (Ts.doRequest (snd (Ts.upstream env (Ts.fetched w)))) :: rest).
  { unfold Ts.callWithRetry. rewrite Hq.
    destruct (retryLoop_events env rc j (Ts.name q) (Z.to_nat (Ts.maxAttempts rc)) 1 w)
      as (new & Hnew & _ & Hfirst & _).
    destruct Hfirst as (rest & ->); [lia |].
    rewrite Hq in Hnew. simpl in Hnew. eauto. }
  destruct Hrun as (rest & Hrest).
  destruct (Ts.callWithRetry env rc j w) as [[c pname attempts | t] w1]; simpl in *;
    [eauto |].
  destruct (match t with
            | Ts.ThrownProviderError e => Ts.failover e
            | Ts.ThrownError => false
            end); [| eauto].
  destruct (Ts.getNextProvider _ _ _) as [[k |] r']; simpl; [| eauto].
  destruct (callLoop_extends env rc fuel k (total + Ts.maxAttempts rc) (Ts.withRouter w1 r'))
    as (more & ->).
  simpl. rewrite Hrest, <- app_assoc. simpl. eauto.
Qed.

(** C8 (as the code has it).  An attempt is in the FailoverOnly class exactly
    when the provider answered 429.  Such an attempt is the last event of its
    [callWithRetry] run: no sleep and no further attempt on the provider
    follow in that run, which throws the rate-limit error; and a run that
    throws such an error ends with the attempt that met it.  [call] then
    asks the router for the first provider after the one just left whose
    circuit admits a request (it is closed, or open with the reset timeout
    over), or else the first such provider before it.
    If there is none, the call fails with the rate-limit error and nothing
    more is attempted.  If there is one, the loop goes on with it, and the
    very next event of the call is attempt number 1 on that provider.  In the
    trace of a whole call, what follows a rate-limited attempt is therefore
    never a sleep and never an attempt on the same provider.  (A later
    failover of the same call may come back to the provider.) *)
Theorem C8_rate_limit_fails_over_at_once (env : Ts.Env) (rc : Ts.RetryConfig) :
  (forall f, failoverOnly (Ts.doRequest f) = true <-> exists body, f = Ts.FetchStatus 429 body)
  /\ (forall now cb,
        admits now cb = true
        <-> Ts.state cb = Ts.closed
            \/ Ts.resetTimeout (Ts.config cb) < now - Ts.lastFailure cb)
  /\ (forall i w0 p,
        Ts.nthProvider w0 i = Some p ->
        exists new,
          Ts.trace (snd (Ts.callWithRetry env rc i w0)) = Ts.trace w0 ++ new
          /\ (forall pre e post, new = pre ++ e :: post -> rateLimited e = true ->
                post = []
                /\ exists k b t, e = Ts.EvAttempt (Ts.name p) k b (Ts.Failed t)
                     /\ fst (Ts.callWithRetry env rc i w0) = Ts.Threw t)
          /\ (forall t, fst (Ts.callWithRetry env rc i w0) = Ts.Threw t ->
                isFailover t = true ->
                exists pre k b,
                  new = pre ++ [Ts.EvAttempt (Ts.name p) k b (Ts.Failed t)]))
  /\ (forall fuel i total w0 p t w1,
        Ts.nthProvider w0 i = Some p ->
        Ts.callWithRetry env rc i w0 = (Ts.Threw t, w1) ->
        isFailover t = true ->
        nextInRotation (Ts.clock w1) (Ts.name p) (Ts.router w1) = None ->
        fst (Ts.callLoop env rc (S fuel) i total w0) = Ts.AllAttemptsFailed t
        /\ Ts.trace (snd (Ts.callLoop env rc (S fuel) i total w0)) = Ts.trace w1)
  /\ (forall fuel i total w0 p t w1 j,
        Ts.nthProvider w0 i = Some p ->
        Ts.callWithRetry env rc i w0 = (Ts.Threw t, w1) ->
        isFailover t = true ->
        nextInRotation (Ts.clock w1) (Ts.name p) (Ts.router w1) = Some j ->
        exists q,
          Ts.router w1 !! j = Some q /\ Ts.name q <> Ts.name p
          /\ admits (Ts.clock w1) (Ts.circuit q) = true
          /\ Ts.callLoop env rc (S fuel) i total w0
             = Ts.callLoop env rc fuel j (total + Ts.maxAttempts rc)
                 (Ts.withRouter w1 (alter (consulted (Ts.clock w1)) j (Ts.router w1)))
          /\ (1 <= Ts.maxAttempts rc -> fuel <> O ->
              exists rest,
                Ts.trace (snd (Ts.callLoop env rc (S fuel) i total w0))
                = Ts.trace w1
                  ++ Ts.EvAttempt (Ts.name q) 1 false
                       (Ts.doRequest (snd (Ts.upstream env (Ts.fetched w1)))) :: rest))
  /\ (forall fuel w pre p k b o post,
        Ts.trace w = [] ->
        Ts.trace (snd (Ts.call env rc fuel w)) = pre ++ Ts.EvAttempt p k b o :: post ->
        failoverOnly o = true ->
        match post with
        | [] => True
        | Ts.EvAttempt p' k' _ _ :: _ => k' = 1 /\ p' <> p
        | Ts.EvSleep _ :: _ => False
        end).
Proof.
  assert (Hname : forall i w0 p t w1,
            Ts.nthProvider w0 i = Some p ->
            Ts.callWithRetry env rc i w0 = (Ts.Threw t, w1) ->
            from_option Ts.name ""%string (Ts.nthProvider w1 i) = Ts.name p).
  { intros i w0 p t w1 Hp Hrun. unfold Ts.callWithRetry in Hrun. rewrite Hp in Hrun.
    destruct (retryLoop_events env rc i (Ts.name p) (Z.to_nat (Ts.maxAttempts rc)) 1 w0)
      as (_ & _ & Hnames & _).
    rewrite Hrun in Hnames. simpl in Hnames.
    pose proof (name_of_names _ _ i Hnames) as Hi. unfold Ts.nthProvider in *.
    rewrite Hp in Hi. destruct (Ts.router w1 !! i); simpl in *; congruence. }
  assert (Hstep : forall fuel i total w0 p t w1,
            Ts.nthProvider w0 i = Some p ->
            Ts.callWithRetry env rc i w0 = (Ts.Threw t, w1) ->
            isFailover t = true ->
            Ts.callLoop env rc (S fuel) i total w0
            = match nextInRotation (Ts.clock w1) (Ts.name p) (Ts.router w1) with
              | None => (Ts.AllAttemptsFailed t, Ts.withRouter w1 (Ts.router w1))
              | Some j =>
                  Ts.callLoop env rc fuel j (total + Ts.maxAttempts rc)
                    (Ts.withRouter w1 (alter (consulted (Ts.clock w1)) j (Ts.router w1)))
              end).
  { intros fuel i total w0 p t w1 Hp Hrun Hfo. simpl. rewrite Hrun.
    change (match t with
            | Ts.ThrownProviderError e => Ts.failover e
            | Ts.ThrownError => false
            end) with (isFailover t).
    rewrite Hfo, (Hname i w0 p t w1 Hp Hrun).
    destruct (getNextProvider_spec (Ts.clock w1) (Ts.name p) (Ts.router w1)) as [Hs1 Hs2].
    destruct (Ts.getNextProvider (Ts.clock w1) (Ts.name p) (Ts.router w1)) as [sel r'].
    simpl in Hs1, Hs2. subst sel r'.
    now destruct (nextInRotation (Ts.clock w1) (Ts.name p) (Ts.router w1)). }
  split; [apply doRequest_failoverOnly |]. split; [apply admits_iff |].
  split; [| split; [| split]].
  - intros i w0 p Hp. unfold Ts.callWithRetry. rewrite Hp.
    destruct (retryLoop_events env rc i (Ts.name p) (Z.to_nat (Ts.maxAttempts rc)) 1 w0)
      as (new & Htr & _ & _ & Hlast & Hthrown).
    exists new. auto.
  - intros fuel i total w0 p t w1 Hp Hrun Hfo Hnone.
    rewrite (Hstep fuel i total w0 p t w1 Hp Hrun Hfo), Hnone. split; reflexivity.
  - intros fuel i total w0 p t w1 j Hp Hrun Hfo Hsome.
    pose proof (Hstep fuel i total w0 p t w1 Hp Hrun Hfo) as Hloop. rewrite Hsome in Hloop.
    destruct (nextInRotation_Some _ _ _ _ Hsome) as (q & Hq & Hne & Hadm).
    exists q. split; [exact Hq |]. split; [exact Hne |]. split; [exact Hadm |].
    split; [exact Hloop |].
    intros Hmax Hfuel. destruct fuel as [| fuel']; [contradiction |].
    rewrite Hloop.
    set (w2 := Ts.withRouter w1 (alter (consulted (Ts.clock w1)) j (Ts.router w1))).
    assert (Hq2 : Ts.nthProvider w2 j = Some (consulted (Ts.clock w1) q)).
    { unfold Ts.nthProvider, w2. simpl. now rewrite list_lookup_alter_eq, Hq. }
    destruct (callLoop_first_attempt env rc fuel' j (total + Ts.maxAttempts rc) w2 _ Hq2 Hmax)
      as (rest & Hrest).
    exists rest. rewrite Hrest.
    change (Ts.circuit (consulted (Ts.clock w1) q))
      with (snd (Ts.canExecute (Ts.clock w1) (Ts.circuit q))).
    change (Ts.clock w2) with (Ts.clock w1).
    now rewrite (admitted_stays_admitted _ _ Hadm).
  - intros fuel w pre p k b o post Hnil Htrace Hfo.
    pose proof (call_trace env rc fuel w Hnil) as Hadj.
    destruct post as [| e rest]; [exact I |].
    specialize (Hadj pre _ e rest Htrace). simpl in Hadj. specialize (Hadj Hfo).
    destruct e as [p' k' b' o' | ms]; [exact Hadj | contradiction].
Qed.

(** C8 (instance).  On a fresh gateway whose upstream answers 429 and then
    200, the first run ends with the rate-limited attempt on openai, the
    router's next provider is anthropic, and the next event is attempt 1 on
    anthropic. *)
Lemma C8_rate_limit_witness :
  (Ts.nthProvider freshGateway 0 = Some openaiProvider
   /\ Ts.callWithRetry rateLimitedOnce Ts.defaultRetryConfig 0 freshGateway
      = (Ts.Threw (Ts.ThrownProviderError Ts.rateLimitError), afterRateLimit)
   /\ isFailover (Ts.ThrownProviderError Ts.rateLimitError) = true
   /\ nextInRotation (Ts.clock afterRateLimit) "openai" (Ts.router afterRateLimit)
      = Some 1%nat
   /\ 1 <= Ts.maxAttempts Ts.defaultRetryConfig /\ 1%nat <> 0%nat)
  /\ Ts.trace afterRateLimit
     = [Ts.EvAttempt "openai" 1 false
          (Ts.Failed (Ts.ThrownProviderError Ts.rateLimitError))]
  /\ exists rest,
       Ts.trace (snd (Ts.callLoop rateLimitedOnce Ts.defaultRetryConfig 2 0 0 freshGateway))
       = Ts.trace afterRateLimit
         ++ Ts.EvAttempt "anthropic" 1 false (Ts.Responded "hello") :: rest.
Proof.
  assert (H1 : Ts.nthProvider freshGateway 0 = Some openaiProvider)
    by reflexivity.
  assert (H2 : Ts.callWithRetry rateLimitedOnce Ts.defaultRetryConfig 0 freshGateway
               = (Ts.Threw (Ts.ThrownProviderError Ts.rateLimitError), afterRateLimit))
    by (vm_compute; reflexivity).
  assert (H3 : isFailover (Ts.ThrownProviderError Ts.rateLimitError) = true) by reflexivity.
  assert (H4 : nextInRotation (Ts.clock afterRateLimit) "openai" (Ts.router afterRateLimit)
               = Some 1%nat) by (vm_compute; reflexivity).
  assert (H5 : 1 <= Ts.maxAttempts Ts.defaultRetryConfig) by (simpl; lia).
  assert (H6 : 1%nat <> 0%nat) by discriminate.
  split; [repeat split; assumption |].
  split; [reflexivity |].
  destruct (proj1 (proj2 (proj2 (proj2 (proj2 (C8_rate_limit_fails_over_at_once
                                                 rateLimitedOnce Ts.defaultRetryConfig)))))
              1%nat 0%nat 0 freshGateway openaiProvider
              (Ts.ThrownProviderError Ts.rateLimitError) afterRateLimit 1%nat H1 H2 H3 H4)
    as (q & Hq & _ & _ & _ & Hnext).
  destruct (Hnext H5 H6) as (rest & Hrest).
  exists rest. rewrite Hrest.
  assert (Hname : Ts.name q = "anthropic"%string)
    by (vm_compute in Hq; injection Hq as <-; reflexivity).
  now rewrite Hname.
Defined.

(** C8 as stated fails: the provider is attempted again within the same
    call.  With an upstream that answers 429 three times and then 200, openai
    is rate limited, anthropic is rate limited, and the router, wrapping
    around, hands openai out again: its second attempt in the call. *)
Lemma C8_provider_is_attempted_again :
  Ts.trace (snd (Ts.call rateLimitedThrice Ts.defaultRetryConfig 10 freshGateway))
  = [ Ts.EvAttempt "openai" 1 false (Ts.Failed (Ts.ThrownProviderError Ts.rateLimitError));
      Ts.EvAttempt "anthropic" 1 false (Ts.Failed (Ts.ThrownProviderError Ts.rateLimitError));
      Ts.EvAttempt "openai" 1 false (Ts.Failed (Ts.ThrownProviderError Ts.rateLimitError));
      Ts.EvAttempt "anthropic" 1 false (Ts.Responded "hello") ]
  /\ failoverOnly (Ts.Failed (Ts.ThrownProviderError Ts.rateLimitError)) = true.
Proof. split; vm_compute; reflexivity. Qed.

(** ** Rounding to a double *)

Module FloatFacts.

Import Float.

(** *** Rounding to an integer *)

Lemma rne_comp x y : (x == y)%Q -> rne x = rne y.
Proof.
  intros H. unfold rne. rewrite (Qfloor_comp _ _ H).
  assert (Hc : (x - inject_Z (Qfloor y) ?= 1 # 2)%Q = (y - inject_Z (Qfloor y) ?= 1 # 2)%Q)
    by (apply Qcompare_comp; [now rewrite H | reflexivity]).
  now rewrite Hc.
Qed.

Lemma rne_floor x : Qfloor x <= rne x <= Qfloor x + 1.
Proof.
  unfold rne. destruct (_ ?= _)%Q; [destruct (Z.even _) | |]; lia.
Qed.

Lemma rne_Z z : rne (inject_Z z) = z.
Proof.
  unfold rne. rewrite Qfloor_Z.
  assert (H : (inject_Z z - inject_Z z ?= 1 # 2)%Q = Lt).
  { apply Qlt_alt. unfold Qminus. rewrite Qplus_opp_r. reflexivity. }
  now rewrite H.
Qed.

Lemma rne_ge n x : (inject_Z n <= x)%Q -> n <= rne x.
Proof.
  intros H. apply Qfloor_resp_le in H. rewrite Qfloor_Z in H.
  pose proof (rne_floor x). lia.
Qed.

Lemma rne_le n x : (x <= inject_Z n)%Q -> rne x <= n.
Proof.
  intros H. destruct (Qlt_le_dec x (inject_Z n)) as [Hlt | Hge].
  - pose proof (Qfloor_le x) as Hf. pose proof (rne_floor x).
    assert (Hfn : (inject_Z (Qfloor x) < inject_Z n)%Q) by lra.
    rewrite <- Zlt_Qlt in Hfn. lia.
  - assert (Heq : (x == inject_Z n)%Q) by lra.
    rewrite (rne_comp _ _ Heq), rne_Z. lia.
Qed.

Lemma rne_monotone x y : (x <= y)%Q -> rne x <= rne y.
Proof.
  intros H. pose proof (Qfloor_resp_le _ _ H) as Hf.
  pose proof (rne_floor x) as Hx. pose proof (rne_floor y) as Hy.
  destruct (Z.eq_dec (Qfloor x) (Qfloor y)) as [Heq | Hne]; [| lia].
  unfold rne. rewrite Heq.
  destruct (Qcompare_spec (x - inject_Z (Qfloor y)) (1 # 2)) as [H1 | H1 | H1];
    destruct (Qcompare_spec (y - inject_Z (Qfloor y)) (1 # 2)) as [H2 | H2 | H2];
    try destruct (Z.even (Qfloor y)); try lia; exfalso; lra.
Qed.

(** *** Powers of two *)

Lemma two_pos e : (0 < 2 ^ e)%Q.
Proof. apply Qpower_0_lt. lra. Qed.

Lemma two_plus a b : (2 ^ (a + b) == 2 ^ a * 2 ^ b)%Q.
Proof. apply Qpower_plus. lra. Qed.

Lemma two_le a b : a <= b -> (2 ^ a <= 2 ^ b)%Q.
Proof. intros H. apply Qpower_le_compat_l; [exact H | lra]. Qed.

Lemma two_lt a b : a < b -> (2 ^ a < 2 ^ b)%Q.
Proof. intros H. apply Qpower_lt_compat_l; [exact H | lra]. Qed.

Lemma two_lt_inv a b : (2 ^ a < 2 ^ b)%Q -> a < b.
Proof. intros H. apply (Qpower_lt_compat_l_inv 2); [exact H | lra]. Qed.

Lemma two_Z n : 0 <= n -> (inject_Z (2 ^ n) == 2 ^ n)%Q.
Proof. intros H. now rewrite Zpower_Qpower. Qed.

Lemma div_two x e : (x / 2 ^ e == x * 2 ^ (- e))%Q.
Proof.
  rewrite Qpower_opp. reflexivity.
Qed.

Lemma mul_div_two x e : (x / 2 ^ e * 2 ^ e == x)%Q.
Proof.
  pose proof (two_pos e). field. lra.
Qed.

(** *** The binary logarithm *)

Lemma ilog2_spec q : (0 < q)%Q -> (2 ^ ilog2 q <= q)%Q /\ (q < 2 ^ (ilog2 q + 1))%Q.
Proof.
  intros Hq. destruct q as [n d]. unfold ilog2. simpl Qnum. simpl Qden.
  assert (Hn : 0 < n) by (unfold Qlt in Hq; simpl in Hq; lia).
  set (a := Z.log2 n). set (b := Z.log2 (Z.pos d)).
  destruct (Z.log2_spec n Hn) as [Ha1 Ha2]. fold a in Ha1, Ha2.
  destruct (Z.log2_spec (Z.pos d) ltac:(lia)) as [Hb1 Hb2]. fold b in Hb1, Hb2.
  assert (Ha0 : 0 <= a) by apply Z.log2_nonneg.
  assert (Hb0 : 0 <= b) by apply Z.log2_nonneg.
  assert (Hqd : (n # d == inject_Z n / inject_Z (Z.pos d))%Q) by apply Qmake_Qdiv.
  assert (Hdpos : (0 < inject_Z (Z.pos d))%Q) by (unfold Qlt; simpl; lia).
  assert (HA1 : (2 ^ a <= inject_Z n)%Q) by (rewrite <- two_Z by lia; now rewrite <- Zle_Qle).
  assert (HA2 : (inject_Z n < 2 ^ (a + 1))%Q)
    by (rewrite <- two_Z by lia; rewrite <- Zlt_Qlt; exact Ha2).
  assert (HB1 : (2 ^ b <= inject_Z (Z.pos d))%Q) by (rewrite <- two_Z by lia; now rewrite <- Zle_Qle).
  assert (HB2 : (inject_Z (Z.pos d) < 2 ^ (b + 1))%Q)
    by (rewrite <- two_Z by lia; rewrite <- Zlt_Qlt; exact Hb2).
  pose proof (two_pos b) as Pb. pose proof (two_pos (a - b)) as Pk.
  pose proof (two_pos a) as Pa.
  assert (Hup : (n # d < 2 ^ (a - b + 1))%Q).
  { rewrite Hqd. apply Qlt_shift_div_r; [exact Hdpos |].
    replace (a - b + 1) with ((a + 1) + - b) by lia. rewrite two_plus, Qpower_opp.
    pose proof (two_pos (a + 1)).
    apply Qlt_le_trans with (2 ^ (a + 1))%Q; [exact HA2 |].
    setoid_replace (2 ^ (a + 1))%Q with (2 ^ (a + 1) * / 2 ^ b * 2 ^ b)%Q
      using relation Qeq at 1 by (field; lra).
    apply Qmult_le_l; [| exact HB1].
    apply Qmult_lt_0_compat; [lra | now apply Qinv_lt_0_compat]. }
  assert (Hlo : (2 ^ (a - b - 1) < n # d)%Q).
  { rewrite Hqd. apply Qlt_shift_div_l; [exact Hdpos |].
    replace (a - b - 1) with (a + - (b + 1)) by lia. rewrite two_plus, Qpower_opp.
    pose proof (two_pos (b + 1)).
    apply Qlt_le_trans with (2 ^ a)%Q; [| exact HA1].
    setoid_replace (2 ^ a)%Q with (2 ^ a * / 2 ^ (b + 1) * 2 ^ (b + 1))%Q
      using relation Qeq at 2 by (field; lra).
    apply Qmult_lt_l; [| exact HB2].
    apply Qmult_lt_0_compat; [lra | now apply Qinv_lt_0_compat]. }
  destruct (Qle_bool (2 ^ (a - b)) (n # d)) eqn:Hk.
  - apply Qle_bool_iff in Hk. split; [exact Hk | exact Hup].
  - split; [apply Qlt_le_weak; exact Hlo |].
    replace (a - b - 1 + 1) with (a - b) by lia.
    apply Qnot_le_lt. intros H. apply Qle_bool_iff in H. congruence.
Qed.

Lemma ilog2_unique q k : (2 ^ k <= q)%Q -> (q < 2 ^ (k + 1))%Q -> ilog2 q = k.
Proof.
  intros H1 H2.
  assert (Hq : (0 < q)%Q) by (pose proof (two_pos k); lra).
  destruct (ilog2_spec q Hq) as [H3 H4].
  assert (k < ilog2 q + 1) by (apply two_lt_inv; lra).
  assert (ilog2 q < k + 1) by (apply two_lt_inv; lra).
  lia.
Qed.

Lemma ilog2_monotone p q : (0 < p)%Q -> (p <= q)%Q -> ilog2 p <= ilog2 q.
Proof.
  intros Hp Hpq. destruct (ilog2_spec p Hp) as [H1 _].
  destruct (ilog2_spec q ltac:(lra)) as [_ H2].
  assert (ilog2 p < ilog2 q + 1) by (apply two_lt_inv; lra). lia.
Qed.

Lemma ilog2_comp p q : (p == q)%Q -> (0 < p)%Q -> ilog2 p = ilog2 q.
Proof.
  intros He Hp. destruct (ilog2_spec p Hp) as [H1 H2].
  symmetry. apply ilog2_unique; lra.
Qed.

Lemma ulpExponent_monotone p q : (0 < p)%Q -> (p <= q)%Q -> ulpExponent p <= ulpExponent q.
Proof.
  intros Hp Hpq. pose proof (ilog2_monotone p q Hp Hpq). unfold ulpExponent. lia.
Qed.

Lemma nearest_comp p q : (p == q)%Q -> (0 < p)%Q -> (nearest p == nearest q)%Q.
Proof.
  intros He Hp. unfold nearest, ulpExponent. rewrite <- (ilog2_comp p q He Hp).
  set (e := Z.max (-1074) (ilog2 p - 52)).
  assert (Hr : rne (p / 2 ^ e) = rne (q / 2 ^ e))
    by (apply rne_comp, Qdiv_comp; [exact He | reflexivity]).
  rewrite Hr. reflexivity.
Qed.

Lemma nearest_exact q z : (q / 2 ^ ulpExponent q == inject_Z z)%Q -> (nearest q == q)%Q.
Proof.
  intros H. unfold nearest. rewrite (rne_comp _ _ H), rne_Z, <- H. apply mul_div_two.
Qed.

Lemma scaled_le x y e : (x <= y)%Q -> (x / 2 ^ e <= y / 2 ^ e)%Q.
Proof.
  intros H. pose proof (two_pos e) as P.
  apply Qle_shift_div_l; [exact P |]. rewrite mul_div_two. exact H.
Qed.

Lemma scaled_le_l x y e : (x / 2 ^ e <= y)%Q -> (x <= y * 2 ^ e)%Q.
Proof.
  intros H. pose proof (two_pos e) as P.
  apply Qle_trans with (x / 2 ^ e * 2 ^ e)%Q; [rewrite mul_div_two; apply Qle_refl |].
  apply Qmult_le_compat_r; [exact H | lra].
Qed.

Lemma scaled_le_r x y e : (y <= x / 2 ^ e)%Q -> (y * 2 ^ e <= x)%Q.
Proof.
  intros H. pose proof (two_pos e) as P.
  apply Qle_trans with (x / 2 ^ e * 2 ^ e)%Q; [| rewrite mul_div_two; apply Qle_refl].
  apply Qmult_le_compat_r; [exact H | lra].
Qed.

Lemma nearest_above q n :
  (0 < q)%Q -> ulpExponent q <= n -> (2 ^ n <= q)%Q -> (2 ^ n <= nearest q)%Q.
Proof.
  intros Hq Hn Hle. unfold nearest. set (e := ulpExponent q) in *.
  pose proof (two_pos e) as P.
  assert (Hint : (2 ^ n / 2 ^ e == inject_Z (2 ^ (n - e)))%Q).
  { rewrite two_Z by lia. replace (n - e) with (n + - e) by lia.
    rewrite two_plus, Qpower_opp. reflexivity. }
  assert (Hr : 2 ^ (n - e) <= rne (q / 2 ^ e)).
  { apply rne_ge. rewrite <- Hint. now apply scaled_le. }
  rewrite Zle_Qle in Hr. rewrite <- Hint in Hr.
  now apply scaled_le_l.
Qed.

Lemma nearest_below q n :
  (0 < q)%Q -> ulpExponent q <= n -> (q <= 2 ^ n)%Q -> (nearest q <= 2 ^ n)%Q.
Proof.
  intros Hq Hn Hle. unfold nearest. set (e := ulpExponent q) in *.
  pose proof (two_pos e) as P.
  assert (Hint : (2 ^ n / 2 ^ e == inject_Z (2 ^ (n - e)))%Q).
  { rewrite two_Z by lia. replace (n - e) with (n + - e) by lia.
    rewrite two_plus, Qpower_opp. reflexivity. }
  assert (Hr : rne (q / 2 ^ e) <= 2 ^ (n - e)).
  { apply rne_le. rewrite <- Hint. now apply scaled_le. }
  rewrite Zle_Qle in Hr. rewrite <- Hint in Hr.
  now apply scaled_le_r.
Qed.

Lemma nearest_nonneg q : (0 < q)%Q -> (0 <= nearest q)%Q.
Proof.
  intros Hq. unfold nearest. pose proof (two_pos (ulpExponent q)) as P.
  apply Qmult_le_0_compat; [| lra].
  change 0%Q with (inject_Z 0). rewrite <- Zle_Qle. apply rne_ge.
  apply Qle_shift_div_l; [exact P |]. change (inject_Z 0) with 0%Q.
  rewrite Qmult_0_l. now apply Qlt_le_weak.
Qed.

Lemma nearest_monotone p q : (0 < p)%Q -> (p <= q)%Q -> (nearest p <= nearest q)%Q.
Proof.
  intros Hp Hpq. assert (Hq : (0 < q)%Q) by lra.
  pose proof (ulpExponent_monotone p q Hp Hpq) as He.
  destruct (Z.eq_dec (ulpExponent p) (ulpExponent q)) as [Heq | Hne].
  - unfold nearest. rewrite Heq. pose proof (two_pos (ulpExponent q)) as P.
    apply Qmult_le_compat_r; [| lra]. rewrite <- Zle_Qle.
    apply rne_monotone. now apply scaled_le.
  - destruct (ilog2_spec p Hp) as [_ Hp2]. destruct (ilog2_spec q Hq) as [Hq1 _].
    assert (Hlog : ilog2 p + 1 <= ilog2 q) by (unfold ulpExponent in *; lia).
    apply Qle_trans with (2 ^ ilog2 q)%Q.
    + apply nearest_below; [exact Hp | unfold ulpExponent in *; lia |].
      pose proof (two_le _ _ Hlog). lra.
    + apply nearest_above; [exact Hq | unfold ulpExponent in *; lia | exact Hq1].
Qed.

(** *** Rounding to a double *)

Lemma round_pos q :
  (0 < q)%Q ->
  round q = if Qle_bool (2 ^ 1024) (nearest q) then Infinity false else Finite (Qred (nearest q)).
Proof.
  intros H. unfold round.
  assert (E : (q ?= 0)%Q = Gt) by (apply Qgt_alt; exact H). now rewrite E.
Qed.

Lemma round_neg q :
  (q < 0)%Q ->
  round q = if Qle_bool (2 ^ 1024) (nearest (- q)) then Infinity true
            else Finite (Qred (- nearest (- q))).
Proof.
  intros H. unfold round.
  assert (E : (q ?= 0)%Q = Lt) by (apply Qlt_alt; exact H). now rewrite E.
Qed.

Lemma round_zero q : (q == 0)%Q -> round q = Finite 0.
Proof.
  intros H. unfold round.
  assert (E : (q ?= 0)%Q = Eq) by (apply Qeq_alt; exact H). now rewrite E.
Qed.

Lemma round_comp p q : (p == q)%Q -> round p = round q.
Proof.
  intros He. destruct (Q_dec p 0) as [[Hlt | Hgt] | Hz].
  - rewrite (round_neg p Hlt), (round_neg q) by lra.
    assert (Hn : (nearest (- p) == nearest (- q))%Q) by (apply nearest_comp; lra).
    rewrite (Qleb_comp _ _ (Qeq_refl _) _ _ Hn).
    destruct (Qle_bool _ _); [reflexivity |]. f_equal. apply Qred_complete. now rewrite Hn.
  - rewrite (round_pos p Hgt), (round_pos q) by lra.
    assert (Hn : (nearest p == nearest q)%Q) by (apply nearest_comp; lra).
    rewrite (Qleb_comp _ _ (Qeq_refl _) _ _ Hn).
    destruct (Qle_bool _ _); [reflexivity |]. f_equal. apply Qred_complete. exact Hn.
  - rewrite (round_zero p Hz), (round_zero q) by lra. reflexivity.
Qed.

Lemma Qle_bool_false a b : Qle_bool a b = false <-> (b < a)%Q.
Proof.
  split.
  - intros H. apply Qnot_le_lt. intros Hle. apply Qle_bool_iff in Hle. congruence.
  - intros H. destruct (Qle_bool a b) eqn:E; [| reflexivity].
    apply Qle_bool_iff in E. lra.
Qed.

Lemma round_monotone p q : (p <= q)%Q -> leb (round p) (round q) = true.
Proof.
  intros Hpq. destruct (Q_dec p 0) as [[Hp | Hp] | Hp]; destruct (Q_dec q 0) as [[Hq | Hq] | Hq];
    try (exfalso; lra).
  - rewrite (round_neg p Hp), (round_neg q Hq).
    assert (Hm : (nearest (- q) <= nearest (- p))%Q) by (apply nearest_monotone; lra).
    destruct (Qle_bool (2 ^ 1024) (nearest (- p))) eqn:E1;
      destruct (Qle_bool (2 ^ 1024) (nearest (- q))) eqn:E2; cbn [leb orb negb]; try reflexivity.
    + apply Qle_bool_iff in E2. apply Qle_bool_false in E1. exfalso. lra.
    + apply Qle_bool_iff, Qred_le. lra.
  - rewrite (round_neg p Hp), (round_pos q Hq).
    pose proof (nearest_nonneg q Hq). pose proof (nearest_nonneg (- p) ltac:(lra)).
    destruct (Qle_bool (2 ^ 1024) (nearest (- p))); destruct (Qle_bool (2 ^ 1024) (nearest q));
      cbn [leb orb negb]; try reflexivity.
    apply Qle_bool_iff, Qred_le. lra.
  - rewrite (round_neg p Hp), (round_zero q Hq).
    pose proof (nearest_nonneg (- p) ltac:(lra)).
    destruct (Qle_bool (2 ^ 1024) (nearest (- p))); cbn [leb orb negb]; try reflexivity.
    apply Qle_bool_iff. rewrite Qred_correct. lra.
  - rewrite (round_pos p Hp), (round_pos q Hq).
    assert (Hm : (nearest p <= nearest q)%Q) by (apply nearest_monotone; lra).
    destruct (Qle_bool (2 ^ 1024) (nearest p)) eqn:E1;
      destruct (Qle_bool (2 ^ 1024) (nearest q)) eqn:E2; cbn [leb orb negb]; try reflexivity.
    + apply Qle_bool_iff in E1. apply Qle_bool_false in E2. exfalso. lra.
    + apply Qle_bool_iff, Qred_le. lra.
  - rewrite (round_zero p Hp), (round_pos q Hq).
    pose proof (nearest_nonneg q Hq).
    destruct (Qle_bool (2 ^ 1024) (nearest q)); cbn [leb orb negb]; try reflexivity.
    apply Qle_bool_iff. rewrite Qred_correct. lra.
  - rewrite (round_zero p Hp), (round_zero q Hq). reflexivity.
Qed.

(** A value between two doubles rounds to a double between them. *)
Lemma round_between a b q a' b' :
  round a = Finite a' -> round b = Finite b' -> (a <= q)%Q -> (q <= b)%Q ->
  exists v, round q = Finite v /\ (a' <= v)%Q /\ (v <= b')%Q.
Proof.
  intros Ha Hb H1 H2.
  pose proof (round_monotone a q H1) as M1. pose proof (round_monotone q b H2) as M2.
  rewrite Ha in M1. rewrite Hb in M2.
  destruct (round q) as [v | s |]; simpl in M1, M2; try discriminate.
  - exists v. split; [reflexivity |]. split; now apply Qle_bool_iff.
  - destruct s; discriminate.
Qed.

Lemma Qred_inject_Z z : Qred (inject_Z z) = inject_Z z.
Proof.
  unfold Qred, inject_Z.
  pose proof (Z.ggcd_gcd z 1) as Hg. pose proof (Z.ggcd_correct_divisors z 1) as Hd.
  destruct (Z.ggcd z 1) as [g [a b]]. simpl in Hg. rewrite Z.gcd_1_r in Hg. subst g.
  destruct Hd as [Ha Hb]. rewrite Z.mul_1_l in Ha, Hb. now subst.
Qed.

Lemma round_exact q z :
  (0 < q)%Q -> (q < 2 ^ 1024)%Q -> (q / 2 ^ ulpExponent q == inject_Z z)%Q ->
  round q = Finite (Qred q).
Proof.
  intros Hq Hlt Hz. rewrite (round_pos q Hq).
  pose proof (nearest_exact q z Hz) as He.
  assert (Hb : Qle_bool (2 ^ 1024) (nearest q) = false) by (apply Qle_bool_false; lra).
  rewrite Hb. f_equal. apply Qred_complete. exact He.
Qed.

Lemma ilog2_scaled m n :
  0 < m -> ilog2 (inject_Z m * 2 ^ n) = Z.log2 m + n.
Proof.
  intros Hm. destruct (Z.log2_spec m Hm) as [H1 H2].
  pose proof (Z.log2_nonneg m) as H0. pose proof (two_pos n) as P.
  apply ilog2_unique.
  - rewrite two_plus. apply Qmult_le_compat_r; [| lra].
    rewrite <- two_Z by lia. now rewrite <- Zle_Qle.
  - replace (Z.log2 m + n + 1) with (Z.succ (Z.log2 m) + n) by lia. rewrite two_plus.
    apply Qmult_lt_compat_r; [lra |].
    rewrite <- two_Z by lia. now rewrite <- Zlt_Qlt.
Qed.

(** An integer of at most 53 bits scaled by a power of two is a double, unless
    it overflows. *)
Lemma round_scaled m n :
  0 < m <= maxSafeInteger -> 0 <= n ->
  round (inject_Z m * 2 ^ n) =
    if 2 ^ 1024 <=? m * 2 ^ n then Infinity false else Finite (inject_Z (m * 2 ^ n)).
Proof.
  intros [Hm Hmax] Hn. unfold maxSafeInteger in Hmax.
  assert (HQ : (inject_Z m * 2 ^ n == inject_Z (m * 2 ^ n))%Q)
    by (rewrite inject_Z_mult, two_Z by lia; reflexivity).
  assert (Hq : (0 < inject_Z m * 2 ^ n)%Q).
  { apply Qmult_lt_0_compat; [| apply two_pos]. change 0%Q with (inject_Z 0).
    now rewrite <- Zlt_Qlt. }
  assert (Hlog : Z.log2 m <= 52).
  { assert (Z.log2 m < 53); [| lia]. apply Z.log2_lt_pow2; lia. }
  pose proof (Z.log2_nonneg m) as H0.
  assert (He : ulpExponent (inject_Z m * 2 ^ n) = Z.log2 m + n - 52).
  { unfold ulpExponent. rewrite ilog2_scaled by lia. lia. }
  assert (Hz : (inject_Z m * 2 ^ n / 2 ^ ulpExponent (inject_Z m * 2 ^ n)
                == inject_Z (m * 2 ^ (52 - Z.log2 m)))%Q).
  { rewrite He, inject_Z_mult, two_Z by lia.
    replace (52 - Z.log2 m) with (n + - (Z.log2 m + n - 52)) by lia.
    rewrite two_plus, Qpower_opp. pose proof (two_pos (Z.log2 m + n - 52)).
    field. lra. }
  pose proof (nearest_exact _ _ Hz) as Hnear.
  rewrite (round_pos _ Hq).
  assert (H1024 : (inject_Z (2 ^ 1024) == 2 ^ 1024)%Q) by (apply two_Z; lia).
  destruct (Z.leb_spec (2 ^ 1024) (m * 2 ^ n)) as [Hge | Hlt].
  - assert (Hb : Qle_bool (2 ^ 1024) (nearest (inject_Z m * 2 ^ n)) = true).
    { apply Qle_bool_iff. rewrite Hnear, HQ, <- H1024. now rewrite <- Zle_Qle. }
    now rewrite Hb.
  - assert (Hb : Qle_bool (2 ^ 1024) (nearest (inject_Z m * 2 ^ n)) = false).
    { apply Qle_bool_false. rewrite Hnear, HQ, <- H1024. now rewrite <- Zlt_Qlt. }
    rewrite Hb. f_equal. rewrite <- (Qred_inject_Z (m * 2 ^ n)). apply Qred_complete.
    now rewrite Hnear.
Qed.

Lemma ofZ_exact z : 0 <= z <= maxSafeInteger -> ofZ z = Finite (inject_Z z).
Proof.
  intros [H0 H1]. unfold ofZ. destruct (Z.eq_dec z 0) as [-> | Hne]; [reflexivity |].
  assert (He : (inject_Z z == inject_Z z * 2 ^ 0)%Q) by (simpl; lra).
  rewrite (round_comp _ _ He), round_scaled by lia.
  unfold maxSafeInteger in H1.
  assert (Hlt : z * 2 ^ 0 < 2 ^ 1024).
  { rewrite Z.pow_0_r, Z.mul_1_r. apply Z.le_lt_trans with (2 ^ 53); [lia |].
    apply Z.pow_lt_mono_r; lia. }
  destruct (Z.leb_spec (2 ^ 1024) (z * 2 ^ 0)); [lia |].
  now rewrite Z.pow_0_r, Z.mul_1_r.
Qed.

Lemma pow2_exact n :
  0 <= n -> pow2 n = if 1024 <=? n then Infinity false else Finite (inject_Z (2 ^ n)).
Proof.
  intros Hn. unfold pow2.
  assert (He : (2 ^ n == inject_Z 1 * 2 ^ n)%Q)
    by (change (inject_Z 1) with 1%Q; now rewrite Qmult_1_l).
  rewrite (round_comp _ _ He), round_scaled by (unfold maxSafeInteger; lia).
  rewrite Z.mul_1_l.
  destruct (Z.leb_spec 1024 n) as [H | H].
  - assert (2 ^ 1024 <= 2 ^ n) by (apply Z.pow_le_mono_r; lia).
    destruct (Z.leb_spec (2 ^ 1024) (2 ^ n)); [reflexivity | lia].
  - assert (2 ^ n < 2 ^ 1024) by (apply Z.pow_lt_mono_r; lia).
    destruct (Z.leb_spec (2 ^ 1024) (2 ^ n)); [lia | reflexivity].
Qed.

(** The same below one, down to the normal range. *)
Lemma round_scaled_normal m n :
  0 < m <= maxSafeInteger -> -1022 <= n -> Z.log2 m + n <= 1023 ->
  round (inject_Z m * 2 ^ n) = Finite (Qred (inject_Z m * 2 ^ n)).
Proof.
  intros [Hm Hmax] Hn Hlog'. unfold maxSafeInteger in Hmax.
  assert (Hlog : Z.log2 m <= 52).
  { assert (Z.log2 m < 53); [| lia]. apply Z.log2_lt_pow2; lia. }
  pose proof (Z.log2_nonneg m) as H0.
  destruct (Z.log2_spec m Hm) as [_ Hup].
  assert (Hmq : (0 < inject_Z m)%Q) by (change 0%Q with (inject_Z 0); now rewrite <- Zlt_Qlt).
  assert (Hmlog : (inject_Z m < 2 ^ (Z.log2 m + 1))%Q).
  { rewrite <- two_Z by lia. rewrite <- Zlt_Qlt. exact Hup. }
  pose proof (two_pos n) as Pn.
  apply (round_exact _ (m * 2 ^ (52 - Z.log2 m))).
  - now apply Qmult_lt_0_compat.
  - apply Qlt_le_trans with (2 ^ (Z.log2 m + 1) * 2 ^ n)%Q.
    + apply Qmult_lt_compat_r; [exact Pn | exact Hmlog].
    + rewrite <- two_plus. apply two_le. lia.
  - assert (He : ulpExponent (inject_Z m * 2 ^ n) = Z.log2 m + n - 52).
    { unfold ulpExponent. rewrite ilog2_scaled by lia. lia. }
    rewrite He, inject_Z_mult, two_Z by lia.
    replace (52 - Z.log2 m) with (n + - (Z.log2 m + n - 52)) by lia.
    rewrite two_plus, Qpower_opp. pose proof (two_pos (Z.log2 m + n - 52)).
    field. lra.
Qed.

Lemma round_scaled_small m n :
  0 < m <= maxSafeInteger -> -1022 <= n <= 970 ->
  round (inject_Z m * 2 ^ n) = Finite (Qred (inject_Z m * 2 ^ n)).
Proof.
  intros Hm Hn. apply round_scaled_normal; [exact Hm | lia |].
  assert (Z.log2 m < 53); [| lia].
  unfold maxSafeInteger in Hm. apply Z.log2_lt_pow2; lia.
Qed.

(** *** The rounding error *)

Lemma rne_error x :
  (x - (1 # 2) <= inject_Z (rne x))%Q /\ (inject_Z (rne x) <= x + (1 # 2))%Q.
Proof.
  unfold rne. pose proof (Qfloor_le x) as Hlo. pose proof (Qlt_floor x) as Hhi.
  rewrite inject_Z_plus in Hhi. change (inject_Z 1) with 1%Q in Hhi.
  destruct (Qcompare_spec (x - inject_Z (Qfloor x)) (1 # 2)) as [He | Hlt | Hgt].
  - destruct (Z.even (Qfloor x)).
    + split; lra.
    + rewrite inject_Z_plus. change (inject_Z 1) with 1%Q. split; lra.
  - split; lra.
  - rewrite inject_Z_plus. change (inject_Z 1) with 1%Q. split; lra.
Qed.

Lemma nearest_error q :
  (q - 2 ^ (ulpExponent q - 1) <= nearest q)%Q /\ (nearest q <= q + 2 ^ (ulpExponent q - 1))%Q.
Proof.
  unfold nearest. set (e := ulpExponent q).
  pose proof (two_pos e) as P. pose proof (rne_error (q / 2 ^ e)) as [H1 H2].
  assert (Hhalf : (2 ^ (e - 1) == (1 # 2) * 2 ^ e)%Q).
  { replace (e - 1) with (e + - 1) by lia. rewrite two_plus.
    change (2 ^ (-1))%Q with (1 # 2)%Q. ring. }
  rewrite Hhalf.
  apply (Qmult_le_compat_r _ _ (2 ^ e)) in H1; [| lra].
  apply (Qmult_le_compat_r _ _ (2 ^ e)) in H2; [| lra].
  assert (Hq : (q / 2 ^ e * 2 ^ e == q)%Q) by apply mul_div_two.
  split.
  - apply Qle_trans with ((q / 2 ^ e - (1 # 2)) * 2 ^ e)%Q; [| exact H1].
    apply Qle_lteq. right. rewrite <- Hq at 1. ring.
  - apply Qle_trans with ((q / 2 ^ e + (1 # 2)) * 2 ^ e)%Q; [exact H2 |].
    apply Qle_lteq. right. rewrite <- Hq at 2. ring.
Qed.

(** A positive number below [2^m], in the normal range, is rounded with an
    error of at most [2^(m-54)]. *)
Lemma round_error_pos q m :
  -1021 <= m <= 1023 -> (0 < q)%Q -> (q <= 2 ^ m)%Q ->
  exists v, round q = Finite v
            /\ (q - 2 ^ (m - 54) <= v)%Q /\ (v <= q + 2 ^ (m - 54))%Q.
Proof.
  intros Hm Hq Hqm.
  assert (He : ulpExponent q <= m - 52).
  { unfold ulpExponent. destruct (ilog2_spec q Hq) as [Hlog _].
    assert (ilog2 q < m + 1) by (apply two_lt_inv; pose proof (two_lt m (m + 1) ltac:(lia)); lra).
    lia. }
  destruct (Z.eq_dec (ulpExponent q) (m - 52)) as [Hmax | Hlt].
  - (* q = 2^m *)
    assert (Hlog : ilog2 q = m) by (unfold ulpExponent in Hmax; lia).
    destruct (ilog2_spec q Hq) as [Hlo _]. rewrite Hlog in Hlo.
    assert (Heq : (q == inject_Z 1 * 2 ^ m)%Q)
      by (change (inject_Z 1) with 1%Q; rewrite Qmult_1_l; now apply Qle_antisym).
    exists (Qred (inject_Z 1 * 2 ^ m)). split.
    + rewrite (round_comp _ _ Heq).
      apply round_scaled_normal; [unfold maxSafeInteger; lia | lia | simpl; lia].
    + rewrite Qred_correct, <- Heq. pose proof (two_pos (m - 54)). split; lra.
  - assert (He' : ulpExponent q - 1 <= m - 54) by lia.
    pose proof (nearest_error q) as [H1 H2].
    pose proof (two_le _ _ He') as Hpow.
    assert (Hbelow : (nearest q <= 2 ^ m)%Q) by (apply nearest_below; [exact Hq | lia | exact Hqm]).
    rewrite (round_pos q Hq).
    assert (Hb : Qle_bool (2 ^ 1024) (nearest q) = false).
    { apply Qle_bool_false. pose proof (two_lt m 1024 ltac:(lia)). lra. }
    rewrite Hb. exists (Qred (nearest q)). split; [reflexivity |].
    rewrite Qred_correct. split; lra.
Qed.

Lemma round_opp q : round (- q) = opp (round q).
Proof.
  destruct (Q_dec q 0) as [[Hlt | Hgt] | Hz].
  - rewrite (round_pos (- q)) by lra. rewrite (round_neg q Hlt).
    destruct (Qle_bool _ _); [reflexivity |]. cbn [opp]. f_equal.
    apply Qred_complete. rewrite Qred_correct. ring.
  - rewrite (round_neg (- q)) by lra. rewrite (round_pos q Hgt).
    assert (Hn : (nearest (- - q) == nearest q)%Q) by (apply nearest_comp; lra).
    rewrite (Qleb_comp _ _ (Qeq_refl _) _ _ Hn).
    destruct (Qle_bool _ _); [reflexivity |]. cbn [opp]. f_equal.
    apply Qred_complete. now rewrite Hn, Qred_correct.
  - rewrite (round_zero q Hz), (round_zero (- q)) by lra. reflexivity.
Qed.

Lemma round_error q m :
  -1021 <= m <= 1023 -> (- 2 ^ m <= q)%Q -> (q <= 2 ^ m)%Q ->
  exists v, round q = Finite v
            /\ (q - 2 ^ (m - 54) <= v)%Q /\ (v <= q + 2 ^ (m - 54))%Q.
Proof.
  intros Hm Hlo Hhi. pose proof (two_pos (m - 54)) as P.
  destruct (Q_dec q 0) as [[Hlt | Hgt] | Hz].
  - destruct (round_error_pos (- q) m Hm) as (v & Hv & H1 & H2); [lra | lra |].
    exists (Qred (- v)). split.
    + assert (E : round (- - q) = opp (round (- q))) by apply round_opp.
      rewrite (round_comp q (- - q)) by (symmetry; apply Qopp_involutive).
      now rewrite E, Hv.
    + rewrite Qred_correct. split; lra.
  - now apply round_error_pos.
  - exists 0%Q. split; [now apply round_zero |]. split; lra.
Qed.

End FloatFacts.

(** ** Backoff arithmetic *)

(** The pre-jitter wait is computed without rounding error: the product is
    a double or overflows to an infinity that the cap replaces. *)
Lemma backoffBase_exact (rc : Ts.RetryConfig) (k : Z) :
  1 <= k -> 0 <= Ts.baseDelay rc <= Float.maxSafeInteger ->
  0 <= Ts.maxDelay rc <= Float.maxSafeInteger ->
  (Ts.baseDelay rc = 0 -> k <= 1024) ->
  Ts.backoffBase rc k
  = Float.Finite (inject_Z (Z.min (Ts.baseDelay rc * 2 ^ (k - 1)) (Ts.maxDelay rc))).
Proof.
  intros Hk HB HM H0. unfold Ts.backoffBase.
  rewrite (FloatFacts.ofZ_exact (Ts.baseDelay rc) HB), (FloatFacts.ofZ_exact (Ts.maxDelay rc) HM).
  rewrite FloatFacts.pow2_exact by lia.
  set (b := Ts.baseDelay rc) in *. set (m := Ts.maxDelay rc) in *. set (n := k - 1).
  assert (Hm1024 : m < 2 ^ 1024).
  { unfold Float.maxSafeInteger in HM. apply Z.le_lt_trans with (2 ^ 53); [lia |].
    apply Z.pow_lt_mono_r; lia. }
  assert (Hpow : 0 < 2 ^ n) by (apply Z.pow_pos_nonneg; lia).
  destruct (Z.eq_dec b 0) as [Hb0 | Hb0].
  - rewrite Hb0. specialize (H0 Hb0).
    destruct (Z.leb_spec 1024 n); [lia |]. simpl Float.mul.
    rewrite (FloatFacts.round_zero (inject_Z 0 * inject_Z (2 ^ n)))
      by (change (inject_Z 0) with 0%Q; apply Qmult_0_l).
    rewrite Z.mul_0_l. rewrite Z.min_l by lia.
    unfold Float.min, Float.ltb. change (inject_Z 0) with 0%Q.
    assert (E : Qle_bool 0 (inject_Z m) = true)
      by (apply Qle_bool_iff; change 0%Q with (inject_Z 0); rewrite <- Zle_Qle; lia).
    now rewrite E.
  - assert (Hbpos : 0 < b) by lia.
    assert (Hinf : 2 ^ 1024 <= b * 2 ^ n ->
                   Float.min (Float.Infinity false) (Float.Finite (inject_Z m))
                   = Float.Finite (inject_Z (Z.min (b * 2 ^ n) m))).
    { intros Hge. rewrite Z.min_r by lia. reflexivity. }
    destruct (Z.leb_spec 1024 n) as [Hn | Hn].
    + assert (Hge : 2 ^ 1024 <= b * 2 ^ n).
      { assert (2 ^ 1024 <= 2 ^ n) by (apply Z.pow_le_mono_r; lia). nia. }
      simpl Float.mul.
      assert (E : (inject_Z b ?= 0)%Q = Gt)
        by (apply Qgt_alt; change 0%Q with (inject_Z 0); rewrite <- Zlt_Qlt; lia).
      rewrite E. now apply Hinf.
    + simpl Float.mul.
      assert (He : (inject_Z b * inject_Z (2 ^ n) == inject_Z b * 2 ^ n)%Q)
        by (rewrite FloatFacts.two_Z by lia; reflexivity).
      rewrite (FloatFacts.round_comp _ _ He), FloatFacts.round_scaled by lia.
      destruct (Z.leb_spec (2 ^ 1024) (b * 2 ^ n)) as [Hge | Hlt]; [now apply Hinf |].
      unfold Float.min, Float.ltb.
      destruct (Z.le_gt_cases (b * 2 ^ n) m) as [Hle | Hgt].
      * rewrite Z.min_l by lia.
        assert (E : Qle_bool (inject_Z (b * 2 ^ n)) (inject_Z m) = true)
          by (apply Qle_bool_iff; rewrite <- Zle_Qle; lia).
        now rewrite E.
      * rewrite Z.min_r by lia.
        assert (E : Qle_bool (inject_Z (b * 2 ^ n)) (inject_Z m) = false)
          by (apply FloatFacts.Qle_bool_false; rewrite <- Zlt_Qlt; lia).
        now rewrite E.
Qed.

Lemma Finite_inj a b : Float.Finite a = Float.Finite b -> a = b.
Proof. now intros [= ->]. Qed.

(** The jitter factor lies between the doubles nearest to 0.8 and to 1.2,
    which both lie within [0.8, 1.2], and within 2^-52 of 0.8 + 0.4 r. *)
Lemma jitterFactor_accurate r :
  (0 <= r)%Q -> (r < 1)%Q ->
  exists j, Ts.jitterFactor r = Float.Finite j
            /\ (8 # 10 <= j)%Q /\ (j <= 12 # 10)%Q
            /\ ((8 # 10) + r * (4 # 10) - (1 # 4503599627370496) <= j)%Q
            /\ (j <= (8 # 10) + r * (4 # 10) + (1 # 4503599627370496))%Q.
Proof.
  intros H0 H1. unfold Ts.jitterFactor.
  assert (E4 : Float.round (4 # 10) = Float.Finite (3602879701896397 # 9007199254740992))
    by (vm_compute; reflexivity).
  assert (E2 : Float.round (2 # 10) = Float.Finite (3602879701896397 # 18014398509481984))
    by (vm_compute; reflexivity).
  rewrite E4, E2.
  set (d04 := (3602879701896397 # 9007199254740992)%Q).
  set (d02 := (3602879701896397 # 18014398509481984)%Q).
  assert (Hd04 : (d04 == (4 # 10) + (1 # 45035996273704960))%Q) by reflexivity.
  assert (Hd02 : (d02 == (2 # 10) + (1 # 90071992547409920))%Q) by reflexivity.
  (* the product *)
  destruct (FloatFacts.round_between 0 d04 (r * d04) 0 d04)
    as (a & Ea & Ha0 & Ha1); [reflexivity | vm_compute; reflexivity | nra | nra |].
  destruct (FloatFacts.round_error (r * d04) (-1)) as (a' & Ea' & Ha2 & Ha3);
    [lia | change (2 ^ (-1))%Q with (1 # 2)%Q; nra
     | change (2 ^ (-1))%Q with (1 # 2)%Q; nra |].
  rewrite Ea in Ea'. apply Finite_inj in Ea'. subst a'.
  change (2 ^ (-1 - 54))%Q with (1 # 36028797018963968)%Q in Ha2, Ha3.
  cbn [Float.mul]. rewrite Ea. cbn [Float.sub Float.opp Float.add].
  (* the difference *)
  assert (Hx : (a + Qred (- d02) == a - d02)%Q) by (rewrite Qred_correct; ring).
  destruct (FloatFacts.round_between (- d02) d02 (a + Qred (- d02)) (- d02) d02)
    as (b & Eb & Hb0 & Hb1);
    [vm_compute; reflexivity | vm_compute; reflexivity | rewrite Hx; lra | rewrite Hx; lra |].
  destruct (FloatFacts.round_error (a + Qred (- d02)) (-2)) as (b' & Eb' & Hb2 & Hb3);
    [lia | change (2 ^ (-2))%Q with (1 # 4)%Q; rewrite Hx; lra
     | change (2 ^ (-2))%Q with (1 # 4)%Q; rewrite Hx; lra |].
  rewrite Eb in Eb'. apply Finite_inj in Eb'. subst b'.
  change (2 ^ (-2 - 54))%Q with (1 # 72057594037927936)%Q in Hb2, Hb3.
  rewrite Hx in Hb2, Hb3.
  rewrite Eb.
  (* the sum *)
  destruct (FloatFacts.round_between (1 + - d02) (1 + d02) (1 + b)
              (3602879701896397 # 4503599627370496)
              (5404319552844595 # 4503599627370496))
    as (j & Ej & Hj0 & Hj1);
    [vm_compute; reflexivity | vm_compute; reflexivity | lra | lra |].
  destruct (FloatFacts.round_error (1 + b) 1) as (j' & Ej' & Hj2 & Hj3);
    [lia | change (2 ^ 1)%Q with 2%Q; lra | change (2 ^ 1)%Q with 2%Q; lra |].
  rewrite Ej in Ej'. apply Finite_inj in Ej'. subst j'.
  change (2 ^ (1 - 54))%Q with (1 # 9007199254740992)%Q in Hj2, Hj3.
  exists j. split; [exact Ej |].
  split; [lra |]. split; [lra |]. split; nra.
Qed.

Lemma Ts_calculateBackoff_bounds (rc : Ts.RetryConfig) (k : Z) (r : Q) :
  1 <= k -> 0 <= Ts.baseDelay rc <= Float.maxSafeInteger ->
  0 <= Ts.maxDelay rc <= 2 ^ 52 ->
  (Ts.baseDelay rc = 0 -> k <= 1024) ->
  (0 <= r)%Q -> (r < 1)%Q ->
  let pre := Z.min (Ts.baseDelay rc * 2 ^ (k - 1)) (Ts.maxDelay rc) in
  exists j v n,
    Ts.jitterFactor r = Float.Finite j /\ (8 # 10 <= j)%Q /\ (j <= 12 # 10)%Q
    /\ ((8 # 10) + r * (4 # 10) - (1 # 4503599627370496) <= j)%Q
    /\ (j <= (8 # 10) + r * (4 # 10) + (1 # 4503599627370496))%Q
    /\ Float.round (inject_Z pre * j) = Float.Finite v
    /\ (inject_Z pre * j - (1 # 2) <= v)%Q /\ (v <= inject_Z pre * j + (1 # 2))%Q
    /\ (inject_Z n <= v)%Q /\ (v < inject_Z (n + 1))%Q
    /\ Ts.calculateBackoff rc k r = Float.Finite (inject_Z n)
    /\ (4 * pre) / 5 <= n <= (6 * pre + 4) / 5.
Proof.
  intros Hk HB HM H0 Hr0 Hr1 pre. unfold Ts.calculateBackoff.
  assert (HM' : 0 <= Ts.maxDelay rc <= Float.maxSafeInteger)
    by (unfold Float.maxSafeInteger; lia).
  rewrite (backoffBase_exact rc k Hk HB HM' H0). fold pre.
  destruct (jitterFactor_accurate r Hr0 Hr1) as (j & Hj & Hj0 & Hj1 & Hj2 & Hj3).
  rewrite Hj.
  assert (Hpow : 0 < 2 ^ (k - 1)) by (apply Z.pow_pos_nonneg; lia).
  assert (Hpre : 0 <= pre <= 2 ^ 52) by (unfold pre; nia).
  set (lo := (4 * pre) / 5). set (hi := (6 * pre + 4) / 5).
  assert (Hlo : 0 <= lo /\ 5 * lo <= 4 * pre)
    by (unfold lo; split; [apply Z.div_pos; lia | apply Z.mul_div_le; lia]).
  assert (Hhi : 6 * pre <= 5 * hi /\ hi <= 2 ^ 53 - 1).
  { unfold hi. pose proof (Z.div_mod (6 * pre + 4) 5 ltac:(lia)).
    pose proof (Z.mod_pos_bound (6 * pre + 4) 5 ltac:(lia)). split; [lia |].
    apply Z.div_le_upper_bound; lia. }
  destruct (FloatFacts.round_between (inject_Z lo) (inject_Z hi) (inject_Z pre * j)
              (inject_Z lo) (inject_Z hi))
    as (v & Ev & Hv0 & Hv1).
  - apply FloatFacts.ofZ_exact. unfold Float.maxSafeInteger. lia.
  - apply FloatFacts.ofZ_exact. unfold Float.maxSafeInteger. lia.
  - assert (Hq : (5 * inject_Z lo <= 4 * inject_Z pre)%Q).
    { change 5%Q with (inject_Z 5). change 4%Q with (inject_Z 4).
      rewrite <- !inject_Z_mult, <- Zle_Qle. lia. }
    assert (Hp : (0 <= inject_Z pre)%Q)
      by (change 0%Q with (inject_Z 0); rewrite <- Zle_Qle; lia).
    nra.
  - assert (Hq : (6 * inject_Z pre <= 5 * inject_Z hi)%Q).
    { change 5%Q with (inject_Z 5). change 6%Q with (inject_Z 6).
      rewrite <- !inject_Z_mult, <- Zle_Qle. lia. }
    assert (Hp : (0 <= inject_Z pre)%Q)
      by (change 0%Q with (inject_Z 0); rewrite <- Zle_Qle; lia).
    nra.
  - assert (Hp : (0 <= inject_Z pre)%Q)
      by (change 0%Q with (inject_Z 0); rewrite <- Zle_Qle; lia).
    assert (Hp52 : (inject_Z pre <= 4503599627370496)%Q).
    { change 4503599627370496%Q with (inject_Z (2 ^ 52)). rewrite <- Zle_Qle. lia. }
    destruct (FloatFacts.round_error (inject_Z pre * j) 53) as (v' & Ev' & Hv2 & Hv3);
      [lia | change (2 ^ 53)%Q with 9007199254740992%Q; nra
       | change (2 ^ 53)%Q with 9007199254740992%Q; nra |].
    rewrite Ev in Ev'. apply Finite_inj in Ev'. subst v'.
    change (2 ^ (53 - 54))%Q with (1 # 2)%Q in Hv2, Hv3.
    cbn [Float.mul]. rewrite Ev. cbn [Float.floor]. exists j, v, (Qfloor v).
    split; [reflexivity |]. split; [exact Hj0 |]. split; [exact Hj1 |].
    split; [exact Hj2 |]. split; [exact Hj3 |].
    split; [exact Ev |]. split; [exact Hv2 |]. split; [exact Hv3 |].
    split; [apply Qfloor_le |]. split; [apply Qlt_floor |].
    split; [reflexivity |]. split.
    + apply Qfloor_resp_le in Hv0. now rewrite Qfloor_Z in Hv0.
    + apply Qfloor_resp_le in Hv1. now rewrite Qfloor_Z in Hv1.
Qed.

Lemma Qtruncate_nonneg q : (0 <= q)%Q -> Go.Qtruncate q = Qfloor q.
Proof.
  intros H. unfold Go.Qtruncate. apply Qle_bool_iff in H. now rewrite H.
Qed.

Lemma toDuration_small u q :
  (0 <= q)%Q -> (q <= 2 ^ 53)%Q -> Go.toDuration u (Float.Finite q) = Qfloor q.
Proof.
  intros H0 H1. unfold Go.toDuration. rewrite Qtruncate_nonneg by exact H0.
  assert (0 <= Qfloor q).
  { apply (Qfloor_resp_le 0 q) in H0. exact H0. }
  assert (Qfloor q <= 2 ^ 53).
  { apply Qfloor_resp_le in H1. rewrite <- FloatFacts.two_Z in H1 by lia.
    now rewrite Qfloor_Z in H1. }
  destruct (Z.leb_spec (- 2 ^ 63) (Qfloor q)); [| lia].
  destruct (Z.ltb_spec (Qfloor q) (2 ^ 63)); [reflexivity | lia].
Qed.

(** Go: 0 to 50 percent of jitter is added to the uncapped exponential, and
    the cap is applied last. *)
Lemma Go_calculateBackoff_bounds u (rc : Go.RetryConfig) (k : Z) (r : Q) :
  1 <= k <= 970 -> 0 <= 3 * Go.BaseBackoff rc <= Float.maxSafeInteger ->
  0 <= Go.MaxBackoff rc <= Float.maxSafeInteger ->
  (0 <= r)%Q -> (r < 1)%Q ->
  let b := Go.BaseBackoff rc * 2 ^ (k - 1) in
  Z.min b (Go.MaxBackoff rc) <= Go.calculateBackoff u rc k r <= Go.MaxBackoff rc
  /\ 2 * Go.calculateBackoff u rc k r <= 3 * b.
Proof.
  intros Hk HB HM Hr0 Hr1 b. unfold Go.calculateBackoff.
  set (B := Go.BaseBackoff rc) in *. set (M := Go.MaxBackoff rc) in *. set (n := k - 1) in *.
  assert (Hpow : 0 < 2 ^ n) by (apply Z.pow_pos_nonneg; lia).
  assert (HMq : (0 <= inject_Z M)%Q /\ (inject_Z M <= 2 ^ 53)%Q).
  { unfold Float.maxSafeInteger in HM. split.
    - change 0%Q with (inject_Z 0). rewrite <- Zle_Qle. lia.
    - rewrite <- FloatFacts.two_Z by lia. rewrite <- Zle_Qle. lia. }
  rewrite (FloatFacts.ofZ_exact B) by (unfold Float.maxSafeInteger in *; lia).
  rewrite (FloatFacts.ofZ_exact M HM), FloatFacts.pow2_exact by lia.
  destruct (Z.leb_spec 1024 n); [lia |]. cbn [Float.mul].
  assert (Hbq : (inject_Z B * inject_Z (2 ^ n) == inject_Z b)%Q)
    by (unfold b; now rewrite inject_Z_mult).
  assert (Hb0 : (0 <= inject_Z b)%Q)
    by (change 0%Q with (inject_Z 0); rewrite <- Zle_Qle; unfold b; nia).
  (* the values the three roundings are compared with *)
  assert (Rb : Float.round (inject_Z b) = Float.Finite (Qred (inject_Z b))
               /\ Float.round (inject_Z b * (1 # 2)) = Float.Finite (Qred (inject_Z b * (1 # 2)))
               /\ Float.round (inject_Z b + inject_Z b * (1 # 2))
                  = Float.Finite (Qred (inject_Z b + inject_Z b * (1 # 2)))).
  { destruct (Z.eq_dec B 0) as [HB0 | HB0].
    - assert (b = 0) by (unfold b; rewrite HB0; lia). replace b with 0. repeat split; reflexivity.
    - assert (E1 : (inject_Z b == inject_Z B * 2 ^ n)%Q)
        by (rewrite <- Hbq, FloatFacts.two_Z by lia; reflexivity).
      assert (E2 : (inject_Z b * (1 # 2) == inject_Z B * 2 ^ (n - 1))%Q).
      { rewrite E1. replace (n - 1) with (n + - 1) by lia. rewrite FloatFacts.two_plus.
        change (2 ^ (-1))%Q with (1 # 2)%Q. ring. }
      assert (E3 : (inject_Z b + inject_Z b * (1 # 2) == inject_Z (3 * B) * 2 ^ (n - 1))%Q).
      { rewrite E1. replace (n - 1) with (n + - 1) by lia. rewrite FloatFacts.two_plus.
        rewrite inject_Z_mult. change (2 ^ (-1))%Q with (1 # 2)%Q.
        change (inject_Z 3) with 3%Q. ring. }
      repeat split.
      + rewrite (FloatFacts.round_comp _ _ E1), (Qred_complete _ _ E1).
        apply FloatFacts.round_scaled_small; unfold Float.maxSafeInteger in *; lia.
      + rewrite (FloatFacts.round_comp _ _ E2), (Qred_complete _ _ E2).
        apply FloatFacts.round_scaled_small; unfold Float.maxSafeInteger in *; lia.
      + rewrite (FloatFacts.round_comp _ _ E3), (Qred_complete _ _ E3).
        apply FloatFacts.round_scaled_small; unfold Float.maxSafeInteger in *; lia. }
  destruct Rb as (Rb1 & Rb2 & Rb3).
  rewrite (FloatFacts.round_comp _ _ Hbq), Rb1. cbn [Float.mul].
  destruct (FloatFacts.round_between 0 (inject_Z b) (Qred (inject_Z b) * r) 0 _
              eq_refl Rb1) as (v1 & E1 & Hv10 & Hv11);
    [rewrite Qred_correct; nra | rewrite Qred_correct; nra |].
  rewrite Qred_correct in Hv11.
  rewrite E1. cbn [Float.mul].
  destruct (FloatFacts.round_between 0 (inject_Z b * (1 # 2)) (v1 * (1 # 2)) 0 _
              eq_refl Rb2) as (v2 & E2 & Hv20 & Hv21); [lra | lra |].
  rewrite Qred_correct in Hv21.
  rewrite E2. cbn [Float.add].
  destruct (FloatFacts.round_between (inject_Z b) (inject_Z b + inject_Z b * (1 # 2))
              (Qred (inject_Z b) + v2) _ _ Rb1 Rb3) as (t & Et & Ht0 & Ht1);
    [rewrite Qred_correct; lra | rewrite Qred_correct; lra |].
  rewrite Qred_correct in Ht0, Ht1.
  rewrite Et. cbn [Float.ltb].
  destruct (Qle_bool t (inject_Z M)) eqn:Ecap; cbn [negb].
  - apply Qle_bool_iff in Ecap.
    rewrite toDuration_small by lra.
    pose proof (Qfloor_resp_le _ _ Ht0) as F0. rewrite Qfloor_Z in F0.
    pose proof (Qfloor_resp_le _ _ Ecap) as F1. rewrite Qfloor_Z in F1.
    pose proof (Qfloor_le t) as Ft.
    assert (F2 : (2 * inject_Z (Qfloor t) <= 3 * inject_Z b)%Q) by lra.
    change 2%Q with (inject_Z 2) in F2. change 3%Q with (inject_Z 3) in F2.
    rewrite <- !inject_Z_mult, <- Zle_Qle in F2. lia.
  - apply FloatFacts.Qle_bool_false in Ecap.
    rewrite toDuration_small by lra. rewrite Qfloor_Z.
    assert (F2 : (2 * inject_Z M <= 3 * inject_Z b)%Q) by lra.
    change 2%Q with (inject_Z 2) in F2. change 3%Q with (inject_Z 3) in F2.
    rewrite <- !inject_Z_mult, <- Zle_Qle in F2. lia.
Qed.

(** Go: below 2^51 ns the computed total is within half a nanosecond of
    the exponential plus half of it times the sample. *)
Lemma Go_calculateBackoff_accurate u (rc : Go.RetryConfig) (k : Z) (r : Q) :
  1 <= k <= 970 -> 0 <= Go.BaseBackoff rc ->
  Go.BaseBackoff rc * 2 ^ (k - 1) <= 2 ^ 51 ->
  0 <= Go.MaxBackoff rc <= Float.maxSafeInteger ->
  (0 <= r)%Q -> (r < 1)%Q ->
  let b := Go.BaseBackoff rc * 2 ^ (k - 1) in
  exists t : Q,
    (inject_Z b * (1 + r * (1 # 2)) - (1 # 2) <= t)%Q
    /\ (t <= inject_Z b * (1 + r * (1 # 2)) + (1 # 2))%Q
    /\ Go.calculateBackoff u rc k r
       = if Qle_bool t (inject_Z (Go.MaxBackoff rc)) then Qfloor t else Go.MaxBackoff rc.
Proof.
  intros Hk HB Hb51 HM Hr0 Hr1 b. unfold Go.calculateBackoff.
  set (B := Go.BaseBackoff rc) in *. set (M := Go.MaxBackoff rc) in *. set (n := k - 1) in *.
  assert (Hpow : 1 <= 2 ^ n).
  { change 1 with (2 ^ 0). apply Z.pow_le_mono_r; lia. }
  assert (Hb : 0 <= b <= 2 ^ 51) by (unfold b; nia).
  assert (HB51 : B <= 2 ^ 51) by (unfold b in Hb; nia).
  assert (HMq : (0 <= inject_Z M)%Q /\ (inject_Z M <= 2 ^ 53)%Q).
  { unfold Float.maxSafeInteger in HM. split.
    - change 0%Q with (inject_Z 0). rewrite <- Zle_Qle. lia.
    - rewrite <- FloatFacts.two_Z by lia. rewrite <- Zle_Qle. lia. }
  rewrite (FloatFacts.ofZ_exact B) by (unfold Float.maxSafeInteger; lia).
  rewrite (FloatFacts.ofZ_exact M HM), FloatFacts.pow2_exact by lia.
  destruct (Z.leb_spec 1024 n); [lia |]. cbn [Float.mul].
  assert (Hbq : (inject_Z B * inject_Z (2 ^ n) == inject_Z b)%Q)
    by (unfold b; now rewrite inject_Z_mult).
  assert (Rb : Float.round (inject_Z b) = Float.Finite (inject_Z b))
    by (apply FloatFacts.ofZ_exact; unfold Float.maxSafeInteger; lia).
  assert (R2b : Float.round (inject_Z (2 * b)) = Float.Finite (inject_Z (2 * b)))
    by (apply FloatFacts.ofZ_exact; unfold Float.maxSafeInteger; lia).
  assert (Hq0 : (0 <= inject_Z b)%Q)
    by (change 0%Q with (inject_Z 0); rewrite <- Zle_Qle; lia).
  assert (Hq51 : (inject_Z b <= 2251799813685248)%Q).
  { change 2251799813685248%Q with (inject_Z (2 ^ 51)). rewrite <- Zle_Qle. lia. }
  assert (H2b : (inject_Z (2 * b) == 2 * inject_Z b)%Q) by (rewrite inject_Z_mult; reflexivity).
  rewrite (FloatFacts.round_comp _ _ Hbq), Rb. cbn [Float.mul].
  (* backoff * rand *)
  destruct (FloatFacts.round_between 0 (inject_Z b) (inject_Z b * r) 0 _ eq_refl Rb)
    as (v1 & E1 & Hv10 & Hv11); [nra | nra |].
  destruct (FloatFacts.round_error (inject_Z b * r) 51) as (v1' & E1' & Hv12 & Hv13);
    [lia | change (2 ^ 51)%Q with 2251799813685248%Q; nra
     | change (2 ^ 51)%Q with 2251799813685248%Q; nra |].
  rewrite E1 in E1'. apply Finite_inj in E1'. subst v1'.
  change (2 ^ (51 - 54))%Q with (1 # 8)%Q in Hv12, Hv13.
  rewrite E1. cbn [Float.mul].
  (* ... * 0.5 *)
  destruct (FloatFacts.round_between 0 (inject_Z b) (v1 * (1 # 2)) 0 _ eq_refl Rb)
    as (v2 & E2 & Hv20 & Hv21); [lra | lra |].
  destruct (FloatFacts.round_error (v1 * (1 # 2)) 50) as (v2' & E2' & Hv22 & Hv23);
    [lia | change (2 ^ 50)%Q with 1125899906842624%Q; lra
     | change (2 ^ 50)%Q with 1125899906842624%Q; lra |].
  rewrite E2 in E2'. apply Finite_inj in E2'. subst v2'.
  change (2 ^ (50 - 54))%Q with (1 # 16)%Q in Hv22, Hv23.
  rewrite E2. cbn [Float.add].
  (* backoff + jitter *)
  destruct (FloatFacts.round_between (inject_Z b) (inject_Z (2 * b)) (inject_Z b + v2) _ _ Rb R2b)
    as (t & Et & Ht0 & Ht1); [lra | rewrite H2b; lra |].
  destruct (FloatFacts.round_error (inject_Z b + v2) 52) as (t' & Et' & Ht2 & Ht3);
    [lia | change (2 ^ 52)%Q with 4503599627370496%Q; lra
     | change (2 ^ 52)%Q with 4503599627370496%Q; lra |].
  rewrite Et in Et'. apply Finite_inj in Et'. subst t'.
  change (2 ^ (52 - 54))%Q with (1 # 4)%Q in Ht2, Ht3.
  rewrite Et. exists t. split; [lra |]. split; [lra |].
  cbn [Float.ltb].
  destruct (Qle_bool t (inject_Z M)) eqn:Ecap; cbn [negb].
  - apply Qle_bool_iff in Ecap. apply toDuration_small; lra.
  - rewrite toDuration_small by lra. apply Qfloor_Z.
Qed.

Lemma timerDelay_integer n :
  Ts.timerDelay (Float.Finite (inject_Z n))
  = if (1 <=? n) && (n <=? 2147483647) then n else 1.
Proof.
  unfold Ts.timerDelay. rewrite Qfloor_Z.
  assert (H1 : Qle_bool 1 (inject_Z n) = (1 <=? n)).
  { destruct (Z.leb_spec 1 n) as [H | H].
    - apply Qle_bool_iff. change 1%Q with (inject_Z 1). now rewrite <- Zle_Qle.
    - apply FloatFacts.Qle_bool_false. change 1%Q with (inject_Z 1). now rewrite <- Zlt_Qlt. }
  assert (H2 : Qle_bool (inject_Z n) 2147483647 = (n <=? 2147483647)).
  { destruct (Z.leb_spec n 2147483647) as [H | H].
    - apply Qle_bool_iff. change 2147483647%Q with (inject_Z 2147483647).
      now rewrite <- Zle_Qle.
    - apply FloatFacts.Qle_bool_false. change 2147483647%Q with (inject_Z 2147483647).
      now rewrite <- Zlt_Qlt. }
  now rewrite H1, H2.
Qed.

(** C4 (as the code has it).  In the TypeScript client, for delays that are
    whole numbers a double holds, the pre-jitter wait of the k-th retry is
    exactly min(baseDelay * 2^(k-1), maxDelay).  The jitter factor
    1.0 + (r * 0.4 - 0.2), computed in doubles for a sample r in [0, 1), is a
    number j in [0.8, 1.2], within 2^-52 of 0.8 + 0.4 r.  The backoff is the
    whole number n of milliseconds with n <= v < n + 1, where v is the double
    nearest to the product of the wait and j, at most one half away from it.
    So the backoff lies between four fifths of the pre-jitter wait rounded
    down and six fifths of it rounded up; the sleep lasts that long when it
    is between 1 and 2^31 - 1 milliseconds, and one millisecond otherwise.
    With base 1000 and cap 10000 the pre-jitter waits of retries 1 to 4 are
    1000, 2000, 4000, 8000, and a call whose first four requests time out
    sleeps exactly these when the sample is 0.5, which makes the jitter
    factor 1.  The Go orchestrator computes another backoff: it adds up to 50
    percent to the uncapped exponential and applies the cap last, so that
    (for durations a double holds exactly) its wait lies between
    min(base * 2^(k-1), cap) and the cap and never exceeds 1.5 times the
    exponential; while the exponential is at most 2^51 ns, the wait is the
    whole number of nanoseconds in a total within half a nanosecond of the
    exponential times 1 + r / 2, or the cap when that total is above it. *)
Theorem C4_backoff_is_floored_jittered_exponential
  (rc : Ts.RetryConfig) (k : Z) (r : Q) :
  1 <= k ->
  0 <= Ts.baseDelay rc <= Float.maxSafeInteger ->
  0 <= Ts.maxDelay rc <= 2 ^ 52 ->
  (Ts.baseDelay rc = 0 -> k <= 1024) ->
  (0 <= r)%Q -> (r < 1)%Q ->
  let pre := Z.min (Ts.baseDelay rc * 2 ^ (k - 1)) (Ts.maxDelay rc) in
  Ts.backoffBase rc k = Float.Finite (inject_Z pre)
  /\ (exists (j v : Q) (n : Z),
        Ts.jitterFactor r = Float.Finite j /\ (8 # 10 <= j)%Q /\ (j <= 12 # 10)%Q
        /\ ((8 # 10) + r * (4 # 10) - (1 # 4503599627370496) <= j)%Q
        /\ (j <= (8 # 10) + r * (4 # 10) + (1 # 4503599627370496))%Q
        /\ Float.round (inject_Z pre * j) = Float.Finite v
        /\ (inject_Z pre * j - (1 # 2) <= v)%Q /\ (v <= inject_Z pre * j + (1 # 2))%Q
        /\ (inject_Z n <= v)%Q /\ (v < inject_Z (n + 1))%Q
        /\ Ts.calculateBackoff rc k r = Float.Finite (inject_Z n)
        /\ (4 * pre) / 5 <= n <= (6 * pre + 4) / 5
        /\ Ts.timerDelay (Ts.calculateBackoff rc k r)
           = if (1 <=? n) && (n <=? 2147483647) then n else 1)
  /\ List.map (Ts.backoffBase Ts.defaultRetryConfig) [1; 2; 3; 4]
     = List.map (fun ms => Float.Finite (inject_Z ms)) [1000; 2000; 4000; 8000]
  /\ sleepsOf (Ts.trace (snd (Ts.call timesOutFourTimes fiveAttempts 10 freshGateway)))
     = [1000; 2000; 4000; 8000]
  /\ (forall (grc : Go.RetryConfig) (unrepresentable : Float.float -> Z),
        k <= 970 ->
        0 <= 3 * Go.BaseBackoff grc <= Float.maxSafeInteger ->
        0 <= Go.MaxBackoff grc <= Float.maxSafeInteger ->
        Z.min (Go.BaseBackoff grc * 2 ^ (k - 1)) (Go.MaxBackoff grc)
          <= Go.calculateBackoff unrepresentable grc k r <= Go.MaxBackoff grc
        /\ 2 * Go.calculateBackoff unrepresentable grc k r
           <= 3 * (Go.BaseBackoff grc * 2 ^ (k - 1))
        /\ (Go.BaseBackoff grc * 2 ^ (k - 1) <= 2 ^ 51 ->
            exists t : Q,
              (inject_Z (Go.BaseBackoff grc * 2 ^ (k - 1)) * (1 + r * (1 # 2)) - (1 # 2)
               <= t)%Q
              /\ (t <= inject_Z (Go.BaseBackoff grc * 2 ^ (k - 1)) * (1 + r * (1 # 2))
                       + (1 # 2))%Q
              /\ Go.calculateBackoff unrepresentable grc k r
                 = if Qle_bool t (inject_Z (Go.MaxBackoff grc))
                   then Qfloor t else Go.MaxBackoff grc)).
Proof.
  intros Hk Hb Hm H0 Hr0 Hr1 pre.
  assert (Hm' : 0 <= Ts.maxDelay rc <= Float.maxSafeInteger)
    by (unfold Float.maxSafeInteger; lia).
  split; [exact (backoffBase_exact rc k Hk Hb Hm' H0) |].
  split.
  { destruct (Ts_calculateBackoff_bounds rc k r Hk Hb Hm H0 Hr0 Hr1)
      as (j & v & n & Hj & Hj0 & Hj1 & Hj2 & Hj3 & Hv & Hv0 & Hv1 & Hn0 & Hn1 & Hn & Hbounds).
    exists j, v, n.
    split; [exact Hj |]. split; [exact Hj0 |]. split; [exact Hj1 |].
    split; [exact Hj2 |]. split; [exact Hj3 |].
    split; [exact Hv |]. split; [exact Hv0 |]. split; [exact Hv1 |].
    split; [exact Hn0 |]. split; [exact Hn1 |].
    split; [exact Hn |]. split; [exact Hbounds |].
    rewrite Hn. apply timerDelay_integer. }
  split; [vm_compute; reflexivity |].
  split; [vm_compute; reflexivity |].
  intros grc u Hk' HB HM.
  destruct (Go_calculateBackoff_bounds u grc k r (conj Hk Hk') HB HM Hr0 Hr1) as [Hin Hup].
  split; [exact Hin |]. split; [exact Hup |].
  intros Hsmall.
  apply (Go_calculateBackoff_accurate u grc k r (conj Hk Hk')); auto; lia.
Qed.

(** C4 (instance).  The defaults, the fourth retry and the sample 67/128:
    the pre-jitter wait is 8000 and the backoff, 8074, is within the bounds;
    the fifth retry with the largest sample below 1 waits 12000. *)
Lemma C4_backoff_witness :
  (1 <= 4
   /\ 0 <= Ts.baseDelay Ts.defaultRetryConfig <= Float.maxSafeInteger
   /\ 0 <= Ts.maxDelay Ts.defaultRetryConfig <= 2 ^ 52
   /\ (Ts.baseDelay Ts.defaultRetryConfig = 0 -> 4 <= 1024)
   /\ (0 <= 67 # 128)%Q /\ (67 # 128 < 1)%Q)
  /\ Ts.backoffBase Ts.defaultRetryConfig 4 = Float.Finite (inject_Z 8000)
  /\ (exists n, Ts.calculateBackoff Ts.defaultRetryConfig 4 (67 # 128)
                = Float.Finite (inject_Z n)
                /\ 6400 <= n <= 9600)
  /\ Ts.calculateBackoff Ts.defaultRetryConfig 4 (67 # 128) = Float.Finite 8074
  /\ Ts.calculateBackoff Ts.defaultRetryConfig 5
       (9007199254740991 # 9007199254740992) = Float.Finite 12000.
Proof.
  assert (H1 : 1 <= 4) by lia.
  assert (H2 : 0 <= Ts.baseDelay Ts.defaultRetryConfig <= Float.maxSafeInteger)
    by (vm_compute; split; discriminate).
  assert (H3 : 0 <= Ts.maxDelay Ts.defaultRetryConfig <= 2 ^ 52)
    by (vm_compute; split; discriminate).
  assert (H4 : Ts.baseDelay Ts.defaultRetryConfig = 0 -> 4 <= 1024) by (intros _; lia).
  assert (H5 : (0 <= 67 # 128)%Q) by (unfold Qle; simpl; lia).
  assert (H6 : (67 # 128 < 1)%Q) by (unfold Qlt; simpl; lia).
  split; [repeat split; try assumption; apply H2 || apply H3 |].
  destruct (C4_backoff_is_floored_jittered_exponential
              Ts.defaultRetryConfig 4 (67 # 128) H1 H2 H3 H4 H5 H6)
    as (Hbase & (_ & _ & n & _ & _ & _ & _ & _ & _ & _ & _ & _ & _ & Hn & Hbounds & _) & _).
  split; [exact Hbase |].
  split; [exists n; split; [exact Hn | exact Hbounds] |].
  split; vm_compute; reflexivity.
Defined.

(** C4 as stated fails: with a base delay of 1 ms and the sample 0.25 (jitter
    factor 0.9) the pre-jitter wait is 1 ms and the backoff 0 ms, which is
    not 1 ms times any factor between 0.8 and 1.2.  In the Go orchestrator,
    with a base of one second and the sample 0.875, the first backoff is
    1.4375 seconds: a factor above 1.2. *)
Lemma C4_floor_drops_below_jitter_range :
  Ts.backoffBase oneMillisecond 1 = Float.Finite 1
  /\ Ts.calculateBackoff oneMillisecond 1 (1 # 4) = Float.Finite 0
  /\ (~ exists j : Q,
        (8 # 10 <= j)%Q /\ (j <= 12 # 10)%Q
        /\ forall wait backoff : Q,
             Ts.backoffBase oneMillisecond 1 = Float.Finite wait ->
             Ts.calculateBackoff oneMillisecond 1 (1 # 4) = Float.Finite backoff ->
             (backoff == wait * j)%Q)
  /\ Go.calculateBackoff (fun _ => 0)
       {| Go.MaxRetries := 3; Go.BaseBackoff := 1000000000;
          Go.MaxBackoff := 30000000000 |} 1 (7 # 8)
     = 1437500000.
Proof.
  assert (H1 : Ts.backoffBase oneMillisecond 1 = Float.Finite 1) by (vm_compute; reflexivity).
  assert (H2 : Ts.calculateBackoff oneMillisecond 1 (1 # 4) = Float.Finite 0)
    by (vm_compute; reflexivity).
  split; [exact H1 |]. split; [exact H2 |].
  split; [| vm_compute; reflexivity].
  intros (j & Hlo & Hhi & Heq). specialize (Heq 1%Q 0%Q H1 H2). lra.
Qed.

(** ** Go orchestrator on an open circuit *)

(** Whatever the configuration, when the provider selected for the first
    attempt has an open breaker whose timeout has not elapsed, the request
    ends there: no exchange, one failed attempt on record, the breaker's
    error returned, no other provider asked. *)
Lemma ExecuteRequest_open_circuit cfg env r req w p cb :
  0 < Go.MaxRetries (Go.Retry cfg) ->
  Go.SelectProvider r req 1 "" = inl p ->
  is_Some (Go.GetProviderConfig r p) ->
  existsb (String.eqb p) Go.adapters = true ->
  Go.circuitBreakers w !! p = Some cb ->
  Go.state cb = Go.StateOpen ->
  Go.clock w - Go.openedAt cb <= Go.timeout cb ->
  Go.ExecuteRequest cfg env r req w
  = (inr (Go.Err (Go.CircuitBreakerOpenError p)),
     [ {| Go.AttemptNumber := 1; Go.AttemptProvider := p; Go.Status := Go.failed;
          Go.ErrorType := "*errors.CircuitBreakerOpenError";
          Go.StartedAt := Go.clock w; Go.EndedAt := Some (Go.clock w) |} ],
     w).
Proof.
  intros Hmax Hsel [pc Hpc] Had Hcb Hopen Hwin.
  unfold Go.ExecuteRequest.
  destruct (Z.to_nat (Go.MaxRetries (Go.Retry cfg))) as [| n] eqn:Hn; [lia |].
  simpl. rewrite Hsel. unfold Go.executeAttempt. rewrite Hpc, Had. simpl.
  unfold Go.SendRequest, Go.getCircuitBreaker. rewrite Hcb.
  unfold Go.IsOpen. rewrite Hopen.
  destruct (Z.ltb_spec (Go.timeout cb) (Go.clock w - Go.openedAt cb)); [lia |].
  simpl. rewrite (insert_id _ _ _ Hcb). now destruct w.
Qed.

(** C9 (failing input).  Both providers serve gpt-4 and the breaker of
    openai is open.  [ExecuteRequest] selects openai, records attempt 1 as
    failed in the attempt history, returns the breaker's error, which
    [isRetryable] rejects, and never asks anthropic: nothing is exchanged
    and no breaker for anthropic is ever created. *)
Theorem C9_open_circuit_aborts_the_request :
  Go.ExecuteRequest demoConfig healthyUpstream demoRouter gpt4Request openaiTripped
  = (inr (Go.Err (Go.CircuitBreakerOpenError "openai")),
     [ {| Go.AttemptNumber := 1; Go.AttemptProvider := "openai"; Go.Status := Go.failed;
          Go.ErrorType := "*errors.CircuitBreakerOpenError";
          Go.StartedAt := 100000000000; Go.EndedAt := Some 100000000000 |} ],
     openaiTripped)
  /\ Go.isRetryable (Go.CircuitBreakerOpenError "openai") = false
  /\ Go.exchanged openaiTripped = 0%nat
  /\ Go.circuitBreakers openaiTripped !! "anthropic" = None
  /\ Go.modelToProvider demoRouter !! "gpt-4" = Some ["openai"; "anthropic"].
Proof.
  split; [| repeat split; vm_compute; reflexivity].
  apply (ExecuteRequest_open_circuit demoConfig healthyUpstream demoRouter gpt4Request
           openaiTripped "openai"
           {| Go.threshold := 5; Go.timeout := 30000000000; Go.state := Go.StateOpen;
              Go.failureCount := 5; Go.successCount := 0;
              Go.lastFailureTime := 90000000000; Go.openedAt := 90000000000 |});
    try (vm_compute; reflexivity); try (simpl; lia).
  eexists. vm_compute. reflexivity.
Qed.

(** ** Stream relay *)

Section StreamFacts.

Variable parse : string -> option Stream.Json.
Variable numberToString : Q -> string.

#[local] Abbreviation processData := (Stream.processData parse numberToString).
#[local] Abbreviation processLine := (Stream.processLine parse numberToString).
#[local] Abbreviation processLines := (Stream.processLines parse numberToString).
#[local] Abbreviation onRead := (Stream.onRead parse numberToString).
#[local] Abbreviation readLoop := (Stream.readLoop parse numberToString).
#[local] Abbreviation deltas := (forwardedDeltas parse numberToString).
#[local] Abbreviation Sound := (Sound parse numberToString).

Lemma chunksOf_app cbs cbs' : chunksOf (cbs ++ cbs') = chunksOf cbs ++ chunksOf cbs'.
Proof. unfold chunksOf. apply omap_app. Qed.

Lemma string_app_nil_r (s : string) : (s ++ "")%string = s.
Proof.
  induction s as [| c s IH]; [reflexivity |].
  change (String c (s ++ "")%string = String c s). now rewrite IH.
Qed.

Lemma string_app_assoc (a b c : string) : ((a ++ b) ++ c)%string = (a ++ (b ++ c))%string.
Proof.
  induction a as [| x a IH]; [reflexivity |].
  change (String x ((a ++ b) ++ c)%string = String x (a ++ (b ++ c))%string). now rewrite IH.
Qed.

Lemma foldr_deltas_app (l l' : list string) :
  foldr (fun chunk acc => (deltaOf parse numberToString chunk ++ acc)%string) ""%string (l ++ l')
  = (foldr (fun chunk acc => (deltaOf parse numberToString chunk ++ acc)%string) ""%string l
     ++ foldr (fun chunk acc => (deltaOf parse numberToString chunk ++ acc)%string) ""%string l')%string.
Proof.
  induction l as [| x l IH]; simpl; [reflexivity |].
  now rewrite IH, string_app_assoc.
Qed.

Lemma deltas_snoc_chunk cbs chunk :
  deltas (cbs ++ [Stream.onChunk chunk])
  = (deltas cbs ++ deltaOf parse numberToString chunk)%string.
Proof.
  unfold forwardedDeltas. rewrite chunksOf_app, foldr_deltas_app. simpl.
  now rewrite string_app_nil_r.
Qed.

Lemma deltas_snoc_other cbs cb :
  ~ isChunk cb -> deltas (cbs ++ [cb]) = deltas cbs.
Proof.
  intros Hcb. unfold forwardedDeltas. rewrite chunksOf_app.
  destruct cb; simpl in *; try contradiction; now rewrite app_nil_r.
Qed.

Lemma finish_sound st cb s :
  Sound st -> Stream.status st = Stream.Active -> ~ isChunk cb -> s <> Stream.Active ->
  (forall e partial, cb = Stream.onError e partial -> partial = Stream.partialContent st) ->
  Sound (Stream.finish st cb s).
Proof.
  intros [Hp Ha _] Hact Hcb Hs Herr. constructor; simpl.
  - now rewrite deltas_snoc_other.
  - intros. contradiction.
  - intros _. exists (Stream.emitted st), cb. auto.
Qed.

Lemma coerce_toString (content : Stream.JsValue) text :
  content ≫= Stream.coerce numberToString = Some text ->
  from_option (Stream.toString numberToString) ""%string content = text.
Proof.
  destruct content as [v |]; simpl; [| discriminate].
  intros H. unfold Stream.toString. now rewrite H.
Qed.

Lemma processData_sound data st :
  Sound st -> Stream.status st = Stream.Active -> Sound (processData data st).
Proof.
  intros Hst Hact. unfold Stream.processData.
  destruct (String.eqb data "[DONE]").
  { apply finish_sound; auto; simpl; try tauto; try discriminate. }
  destruct (parse data) as [parsed |] eqn:Hparse;
    [| apply finish_sound; auto; simpl; try tauto; try discriminate;
       now intros e partial [= _ <-]].
  destruct (Stream.contentDelta parsed) as [content |] eqn:Hcontent;
    [| apply finish_sound; auto; simpl; try tauto; try discriminate;
       now intros e partial [= _ <-]].
  destruct (Stream.truthy content); [| exact Hst].
  destruct (content ≫= Stream.coerce numberToString) as [text |] eqn:Hco;
    [| apply finish_sound; auto; simpl; try tauto; try discriminate;
       now intros e partial [= _ <-]].
  destruct Hst as [Hp Ha _]. constructor; simpl.
  - rewrite deltas_snoc_chunk, <- Hp. unfold deltaOf.
    now rewrite Hparse, Hcontent, (coerce_toString content text Hco).
  - intros _. apply Forall_app. split; [auto | repeat constructor].
  - intros H. contradiction.
Qed.

Lemma processLines_sound lines st :
  Sound st -> Stream.status st = Stream.Active -> Sound (processLines lines st).
Proof.
  revert st. induction lines as [| line rest IH]; intros st Hst Hact; simpl; [exact Hst |].
  assert (Hline : Sound (processLine line st)).
  { unfold Stream.processLine. destruct (String.prefix "data: " line); [| exact Hst].
    now apply processData_sound. }
  destruct (Stream.status (processLine line st)) eqn:Hs; try exact Hline.
  now apply IH.
Qed.

Lemma onRead_sound r st :
  Sound st -> Stream.status st = Stream.Active -> Sound (onRead r st).
Proof.
  intros Hst Hact. destruct r as [text | | |]; simpl.
  - destruct (Stream.splitLines (Stream.buffer st ++ text)) as [lines rest].
    apply processLines_sound; [| exact Hact].
    destruct Hst as [Hp Ha He]. constructor; simpl; auto.
  - apply finish_sound; auto; simpl; try tauto; discriminate.
  - apply finish_sound; auto; simpl; try tauto; try discriminate.
    now intros e partial [= _ <-].
  - apply finish_sound; auto; simpl; try tauto; try discriminate.
    now intros e partial [= _ <-].
Qed.

Lemma readLoop_sound reads st :
  Sound st -> Stream.status st = Stream.Active -> Sound (readLoop reads st).
Proof.
  revert st. induction reads as [| r rest IH]; intros st Hst Hact; simpl; [exact Hst |].
  pose proof (onRead_sound r st Hst Hact) as Hr.
  destruct (Stream.status (onRead r st)) eqn:Hs; try exact Hr.
  now apply IH.
Qed.

Lemma initial_sound : Sound Stream.initial.
Proof.
  constructor; simpl; [reflexivity | constructor | intros H; contradiction].
Qed.

Lemma streamRequest_sound c reads :
  Sound (Stream.streamRequest parse numberToString c reads).
Proof.
  unfold Stream.streamRequest.
  destruct c as [| status hasBody].
  - apply finish_sound; auto using initial_sound; simpl; try tauto; try discriminate.
    now intros e partial [= _ <-].
  - destruct (negb _).
    { apply finish_sound; auto using initial_sound; simpl; try tauto; try discriminate.
      now intros e partial [= _ <-]. }
    destruct (negb hasBody).
    { apply finish_sound; auto using initial_sound; simpl; try tauto; try discriminate.
      now intros e partial [= _ <-]. }
    apply readLoop_sound; [apply initial_sound | reflexivity].
Qed.

End StreamFacts.

Lemma chunksOf_all_chunks cbs :
  Forall isChunk cbs -> List.map Stream.onChunk (chunksOf cbs) = cbs.
Proof.
  induction 1 as [| cb cbs Hcb _ IH]; [reflexivity |].
  destruct cb as [chunk | |]; simpl in Hcb; try contradiction.
  change (Stream.onChunk chunk :: List.map Stream.onChunk (chunksOf cbs)
          = Stream.onChunk chunk :: cbs).
  now rewrite IH.
Qed.

Lemma relay_chunks cbs :
  List.concat (List.map Stream.relay (List.map Stream.onChunk cbs))
  = List.map Stream.WriteChunk cbs.
Proof. induction cbs as [| c cbs IH]; simpl; [reflexivity | now rewrite IH]. Qed.

(** C10.  A chunk that parses and has no content delta, or an empty one, is
    not forwarded and leaves the partial content as it was.  A chunk is
    forwarded only if it parses and its content delta is truthy (so neither
    missing nor the empty string), and then the relay appends that delta to
    the partial content and hands the chunk to [onChunk]; a chunk with a
    non-empty string delta always is. *)
Theorem C10_only_non_empty_deltas_are_forwarded
  (parse : string -> option Stream.Json) (numberToString : Q -> string)
  (data : string) (st : Stream.Relay) :
  let st' := Stream.processData parse numberToString data st in
  (forall parsed, parse data = Some parsed -> missingOrEmpty parsed ->
     chunksOf (Stream.emitted st') = chunksOf (Stream.emitted st)
     /\ Stream.partialContent st' = Stream.partialContent st)
  /\ (chunksOf (Stream.emitted st') <> chunksOf (Stream.emitted st) ->
      exists parsed content,
        parse data = Some parsed /\ Stream.contentDelta parsed = Some content
        /\ Stream.truthy content = true
        /\ content <> None /\ content <> Some (Stream.JString "")
        /\ Stream.emitted st' = Stream.emitted st ++ [Stream.onChunk data]
        /\ Stream.partialContent st'
           = (Stream.partialContent st
              ++ from_option (Stream.toString numberToString) "" content)%string)
  /\ (forall parsed s,
        data <> "[DONE]"%string -> parse data = Some parsed ->
        Stream.contentDelta parsed = Some (Some (Stream.JString s)) -> s <> ""%string ->
        Stream.emitted st' = Stream.emitted st ++ [Stream.onChunk data]
        /\ Stream.partialContent st' = (Stream.partialContent st ++ s)%string).
Proof.
  intros st'. subst st'. unfold Stream.processData.
  split; [| split].
  - intros parsed Hparse Hme. rewrite Hparse.
    destruct (String.eqb data "[DONE]"); simpl.
    { rewrite chunksOf_app. simpl. now rewrite app_nil_r. }
    destruct Hme as [-> | ->]; simpl; auto.
  - destruct (String.eqb data "[DONE]"); simpl.
    { rewrite chunksOf_app. simpl. rewrite app_nil_r. congruence. }
    destruct (parse data) as [parsed |]; simpl;
      [| rewrite chunksOf_app; simpl; rewrite app_nil_r; congruence].
    destruct (Stream.contentDelta parsed) as [content |] eqn:Hcontent; simpl;
      [| rewrite chunksOf_app; simpl; rewrite app_nil_r; congruence].
    destruct (Stream.truthy content) eqn:Htruthy; simpl; [| congruence].
    destruct (content ≫= Stream.coerce numberToString) as [text |] eqn:Hco; simpl;
      [| rewrite chunksOf_app; simpl; rewrite app_nil_r; congruence].
    intros _. exists parsed, content. repeat split; auto.
    + intros ->. discriminate.
    + intros ->. discriminate.
    + now rewrite (coerce_toString numberToString content text Hco).
  - intros parsed s Hdone Hparse Hcontent Hs.
    apply String.eqb_neq in Hdone, Hs. rewrite Hdone, Hparse, Hcontent. simpl.
    rewrite Hs. simpl. auto.
Qed.

Lemma C10_non_empty_delta_witness :
  ("chunk-1"%string <> "[DONE]"%string
   /\ sampleParse "chunk-1" = Some (chunkWith "Hello")
   /\ Stream.contentDelta (chunkWith "Hello") = Some (Some (Stream.JString "Hello"))
   /\ "Hello"%string <> ""%string)
  /\ Stream.emitted (Stream.processData sampleParse noNumbers "chunk-1" Stream.initial)
     = [Stream.onChunk "chunk-1"]
  /\ Stream.partialContent (Stream.processData sampleParse noNumbers "chunk-1" Stream.initial)
     = "Hello"%string.
Proof.
  assert (H1 : "chunk-1"%string <> "[DONE]"%string) by discriminate.
  assert (H2 : sampleParse "chunk-1" = Some (chunkWith "Hello")) by reflexivity.
  assert (H3 : Stream.contentDelta (chunkWith "Hello") = Some (Some (Stream.JString "Hello")))
    by reflexivity.
  assert (H4 : "Hello"%string <> ""%string) by discriminate.
  split; [repeat split; assumption |].
  exact (proj2 (proj2 (C10_only_non_empty_deltas_are_forwarded sampleParse noNumbers
                         "chunk-1" Stream.initial))
           (chunkWith "Hello") "Hello"%string H1 H2 H3 H4).
Defined.

(** ** Healthy-provider selection *)

(** X1.  [getHealthyProvider] returns the first provider, in router order,
    whose circuit admits a request at that moment: every provider before it
    refuses, and of all circuits only the chosen one is changed (by its own
    [canExecute]).  It returns nothing exactly when every circuit refuses,
    and then the router is left as it was. *)
Theorem X1_getHealthyProvider_first_admitting (now : Z) (r : list Ts.Provider) :
  match Ts.getHealthyProvider now r with
  | (Some i, r') =>
      (exists p, r !! i = Some p /\ admits now (Ts.circuit p) = true)
      /\ (forall j q, (j < i)%nat -> r !! j = Some q -> admits now (Ts.circuit q) = false)
      /\ r' = alter (consulted now) i r
  | (None, r') =>
      r' = r /\ forall j q, r !! j = Some q -> admits now (Ts.circuit q) = false
  end.
Proof.
  destruct (getHealthyProvider_spec now r) as [H1 H2].
  destruct (Ts.getHealthyProvider now r) as [[i |] r']; simpl in *.
  - symmetry in H1. apply findIndexFrom_Some in H1 as (_ & p & Hp & Hadm & Hbefore).
    rewrite Nat.sub_0_r in *. split; [eauto | split; [| exact H2]].
    intros j q Hj Hq. exact (Hbefore j q Hj Hq).
  - split; [exact H2 |]. symmetry in H1. apply findIndexFrom_None in H1.
    rewrite Forall_lookup in H1. exact H1.
Qed.

(** ** Accounting of a retry run *)

Lemma attemptsOf_snoc_attempt tr p k b o :
  attemptsOf (tr ++ [Ts.EvAttempt p k b o]) = attemptsOf tr ++ [(p, k)].
Proof. unfold attemptsOf. now rewrite omap_app. Qed.

Lemma attemptsOf_snoc_sleep tr ms : attemptsOf (tr ++ [Ts.EvSleep ms]) = attemptsOf tr.
Proof. unfold attemptsOf. rewrite omap_app. simpl. now rewrite app_nil_r. Qed.

Lemma attemptsOn_cons p first m :
  attemptsOn p first (S m) = (p, first) :: attemptsOn p (first + 1) m.
Proof.
  unfold attemptsOn. rewrite seqZ_cons by lia.
  rewrite fmap_cons. do 3 f_equal; lia.
Qed.

Lemma retryLoop_account env rc i pname n attempt w :
  exists m : nat,
    (m <= n)%nat
    /\ Ts.fetched (snd (Ts.retryLoop env rc i pname n attempt w)) = (Ts.fetched w + m)%nat
    /\ attemptsOf (Ts.trace (snd (Ts.retryLoop env rc i pname n attempt w)))
       = attemptsOf (Ts.trace w) ++ attemptsOn pname attempt m
    /\ forall c p k,
         fst (Ts.retryLoop env rc i pname n attempt w) = Ts.Returned c p k ->
         p = pname /\ (1 <= m)%nat /\ k = attempt + Z.of_nat m - 1
         /\ forall q, Ts.router (snd (Ts.retryLoop env rc i pname n attempt w)) !! i = Some q ->
                      Ts.consecutiveFails (Ts.circuit q) = 0.
Proof.
  revert attempt w. induction n as [| n IH]; intros attempt w; simpl.
  - exists 0%nat. repeat split; try lia.
    + unfold attemptsOn. rewrite seqZ_nil by lia. simpl. now rewrite app_nil_r.
    + discriminate. + discriminate. + discriminate. + discriminate.
  - unfold Ts.performRequest.
    destruct (Ts.upstream env (Ts.fetched w)) as [dt f].
    set (refused := from_option _ false _).
    destruct (Ts.doRequest f) as [c | t] eqn:Ho.
    + exists 1%nat. simpl. repeat split; try lia.
      * rewrite attemptsOf_snoc_attempt. unfold attemptsOn.
        rewrite seqZ_cons by lia. rewrite seqZ_nil by lia. reflexivity.
      * congruence.
      * inversion H; lia.
      * intros q. rewrite list_lookup_alter_eq. simpl.
        destruct (Ts.router w !! i); simpl; [| discriminate]. now intros [= <-].
    + set (w1 := {| Ts.clock := Ts.clock w + dt; Ts.fetched := S (Ts.fetched w);
                    Ts.drawn := Ts.drawn w; Ts.router := Ts.router w;
                    Ts.trace := Ts.trace w ++ [Ts.EvAttempt pname attempt refused (Ts.Failed t)] |}).
      set (w2 := Ts.updCircuit (Ts.recordFailure (Ts.clock w1)) i w1).
      destruct (match t with
                | Ts.ThrownProviderError e => Ts.failover e || negb (Ts.retryable e)
                | Ts.ThrownError => false
                end).
      * exists 1%nat. simpl. repeat split; try lia; try discriminate.
        rewrite attemptsOf_snoc_attempt. unfold attemptsOn.
        rewrite seqZ_cons by lia. rewrite seqZ_nil by lia. reflexivity.
      * set (w3 := if attempt <? Ts.maxAttempts rc
                   then Ts.backoffAndSleep env rc attempt w2 else w2).
        assert (H3 : Ts.fetched w3 = S (Ts.fetched w)
                     /\ attemptsOf (Ts.trace w3) = attemptsOf (Ts.trace w) ++ [(pname, attempt)]).
        { unfold w3. destruct (attempt <? Ts.maxAttempts rc); simpl;
            rewrite ?attemptsOf_snoc_sleep, attemptsOf_snoc_attempt; auto. }
        destruct H3 as [Hf3 Ha3].
        destruct (IH (attempt + 1) w3) as (m & Hm & Hf & Ha & Hret).
        exists (S m). split; [lia |]. split; [rewrite Hf, Hf3; lia |].
        split.
        { rewrite Ha, Ha3, attemptsOn_cons, <- app_assoc. reflexivity. }
        intros c p k Hres. destruct (Hret c p k Hres) as (Hp & Hm1 & Hk & Hq).
        repeat split; auto; lia.
Qed.

(** X2.  One run of [callWithRetry] on a provider makes at most
    [maxAttempts] requests, all to that provider and numbered 1, 2, ... in
    order.  If it returns, the reported provider is that provider, the
    reported attempt count is the number of requests made (between 1 and
    [maxAttempts]), and the provider's failure count is back to 0. *)
Theorem X2_callWithRetry_accounting (env : Ts.Env) (rc : Ts.RetryConfig) (i : nat)
  (w : Ts.World) (p : Ts.Provider) :
  Ts.nthProvider w i = Some p ->
  exists m : nat,
    (m <= Z.to_nat (Ts.maxAttempts rc))%nat
    /\ Ts.fetched (snd (Ts.callWithRetry env rc i w)) = (Ts.fetched w + m)%nat
    /\ attemptsOf (Ts.trace (snd (Ts.callWithRetry env rc i w)))
       = attemptsOf (Ts.trace w) ++ attemptsOn (Ts.name p) 1 m
    /\ forall c q k,
         fst (Ts.callWithRetry env rc i w) = Ts.Returned c q k ->
         q = Ts.name p /\ k = Z.of_nat m /\ 1 <= k <= Ts.maxAttempts rc
         /\ forall q', Ts.router (snd (Ts.callWithRetry env rc i w)) !! i = Some q' ->
                       Ts.consecutiveFails (Ts.circuit q') = 0.
Proof.
  intros Hp. unfold Ts.callWithRetry. rewrite Hp.
  destruct (retryLoop_account env rc i (Ts.name p) (Z.to_nat (Ts.maxAttempts rc)) 1 w)
    as (m & Hm & Hf & Ha & Hret).
  exists m. repeat split; auto;
    destruct (Hret c q k H) as (Hq & Hm1 & Hk & Hc); auto; lia.
Qed.

(** X2 (instance).  The first provider of a fresh gateway, upstream always
    answering 500. *)
Lemma X2_callWithRetry_witness :
  exists m : nat,
    (m <= 3)%nat
    /\ Ts.fetched (snd (Ts.callWithRetry alwaysServerError oneMillisecond 0 freshGateway))
       = (0 + m)%nat.
Proof.
  destruct (X2_callWithRetry_accounting alwaysServerError oneMillisecond 0 freshGateway _ eq_refl)
    as (m & Hm & Hf & _).
  exists m. split; [exact Hm | exact Hf].
Defined.

Lemma call_selects env rc fuel w i :
  fst (Ts.getHealthyProvider (Ts.clock w) (Ts.router w)) = Some i ->
  exists p, Ts.router w !! i = Some p
    /\ admits (Ts.clock w) (Ts.circuit p) = true
    /\ Ts.call env rc fuel w
       = Ts.callLoop env rc fuel i 0
           (Ts.withRouter w (alter (consulted (Ts.clock w)) i (Ts.router w))).
Proof.
  intros Hsel. pose proof (Hspec := getHealthyProvider_spec (Ts.clock w) (Ts.router w)).
  destruct Hspec as [H1 H2]. unfold Ts.call.
  destruct (Ts.getHealthyProvider (Ts.clock w) (Ts.router w)) as [[j |] r'];
    simpl in *; [| discriminate].
  inversion Hsel; subst j. symmetry in H1.
  apply findIndexFrom_Some in H1 as (_ & p & Hp & Hadm & _).
  rewrite Nat.sub_0_r in Hp. exists p. subst r'. auto.
Qed.

Lemma doRequest_client_error s body :
  400 <= s < 500 -> s <> 429 ->
  Ts.doRequest (Ts.FetchStatus s body)
  = Ts.Failed (Ts.ThrownProviderError (Ts.clientError s)).
Proof.
  intros Hs Hne. simpl.
  destruct (Z.leb_spec 500 s); [lia |].
  destruct (Z.eqb_spec s 429); [lia |].
  destruct (Z.leb_spec 400 s); [reflexivity | lia].
Qed.

(** X4.  A 4xx answer other than 429 to the first request ends the whole
    call: one attempt is made, on the first healthy provider; no retry, no
    backoff and no failover follow; the call fails with the client error; the
    clock advanced by the duration of that one request only. *)
Theorem X4_client_error_aborts_after_one_attempt (env : Ts.Env) (rc : Ts.RetryConfig)
  (fuel : nat) (w : Ts.World) (i : nat) (dt s : Z) (body : option (option string)) :
  1 <= Ts.maxAttempts rc ->
  fst (Ts.getHealthyProvider (Ts.clock w) (Ts.router w)) = Some i ->
  Ts.upstream env (Ts.fetched w) = (dt, Ts.FetchStatus s body) ->
  400 <= s < 500 -> s <> 429 ->
  exists p, Ts.router w !! i = Some p
    /\ fst (Ts.call env rc (S fuel) w)
       = Ts.AllAttemptsFailed (Ts.ThrownProviderError (Ts.clientError s))
    /\ Ts.trace (snd (Ts.call env rc (S fuel) w))
       = Ts.trace w
         ++ [Ts.EvAttempt (Ts.name p) 1 false
               (Ts.Failed (Ts.ThrownProviderError (Ts.clientError s)))]
    /\ Ts.fetched (snd (Ts.call env rc (S fuel) w)) = S (Ts.fetched w)
    /\ Ts.clock (snd (Ts.call env rc (S fuel) w)) = Ts.clock w + dt.
Proof.
  intros Hmax Hsel Hup Hs Hne.
  destruct (call_selects env rc (S fuel) w i Hsel) as (p & Hp & Hadm & Hcall).
  exists p. split; [exact Hp |]. rewrite Hcall. simpl.
  unfold Ts.callWithRetry, Ts.nthProvider. simpl.
  rewrite list_lookup_alter_eq, Hp. simpl.
  destruct (Z.to_nat (Ts.maxAttempts rc)) as [| n] eqn:Hn; [lia |]. simpl.
  unfold Ts.performRequest, Ts.nthProvider. simpl.
  rewrite Hup, (doRequest_client_error s body Hs Hne). simpl.
  rewrite list_lookup_alter_eq, Hp. simpl.
  fold (admits (Ts.clock w) (snd (Ts.canExecute (Ts.clock w) (Ts.circuit p)))).
  rewrite (admitted_stays_admitted _ _ Hadm). simpl. auto.
Qed.

(** X4 (instance).  A fresh gateway whose upstream answers 404. *)
Lemma X4_client_error_witness :
  (1 <= Ts.maxAttempts oneMillisecond
   /\ fst (Ts.getHealthyProvider (Ts.clock freshGateway) (Ts.router freshGateway)) = Some 0%nat
   /\ Ts.upstream alwaysNotFound (Ts.fetched freshGateway) = (10, Ts.FetchStatus 404 None)
   /\ 400 <= 404 < 500 /\ 404 <> 429)
  /\ fst (Ts.call alwaysNotFound oneMillisecond 1 freshGateway)
     = Ts.AllAttemptsFailed (Ts.ThrownProviderError (Ts.clientError 404))
  /\ Ts.fetched (snd (Ts.call alwaysNotFound oneMillisecond 1 freshGateway)) = 1%nat.
Proof.
  assert (H1 : 1 <= Ts.maxAttempts oneMillisecond) by (simpl; lia).
  assert (H2 : fst (Ts.getHealthyProvider (Ts.clock freshGateway) (Ts.router freshGateway))
               = Some 0%nat) by reflexivity.
  assert (H3 : Ts.upstream alwaysNotFound (Ts.fetched freshGateway)
               = (10, Ts.FetchStatus 404 None)) by reflexivity.
  assert (H4 : 400 <= 404 < 500) by lia.
  assert (H5 : 404 <> 429) by lia.
  split; [auto |].
  destruct (X4_client_error_aborts_after_one_attempt alwaysNotFound oneMillisecond 0
              freshGateway 0 10 404 None H1 H2 H3 H4 H5) as (p & _ & Hres & _ & Hf & _).
  split; [exact Hres | exact Hf].
Defined.

Lemma callLoop_found_a_provider env rc fuel :
  forall i total w, fst (Ts.callLoop env rc fuel i total w) <> Ts.NoHealthyProvider.
Proof.
  induction fuel as [| fuel IH]; intros i total w; simpl; [discriminate |].
  destruct (Ts.callWithRetry env rc i w) as [[c pname attempts | t] w1]; [discriminate |].
  destruct (match t with
            | Ts.ThrownProviderError e => Ts.failover e
            | Ts.ThrownError => false
            end); [| discriminate].
  destruct (Ts.getNextProvider _ _ _) as [[j |] r']; [apply IH | discriminate].
Qed.

(** X5.  [call] fails with 'No healthy providers available' exactly when
    no circuit admits a request at that moment, and then it has done nothing:
    no request, no sleep, no change to any circuit. *)
Theorem X5_call_without_an_admitting_circuit env rc fuel w :
  (fst (Ts.call env rc fuel w) = Ts.NoHealthyProvider
   <-> forall j q, Ts.router w !! j = Some q -> admits (Ts.clock w) (Ts.circuit q) = false)
  /\ (fst (Ts.call env rc fuel w) = Ts.NoHealthyProvider -> snd (Ts.call env rc fuel w) = w).
Proof.
  unfold Ts.call.
  destruct (getHealthyProvider_spec (Ts.clock w) (Ts.router w)) as [H1 H2].
  destruct (Ts.getHealthyProvider (Ts.clock w) (Ts.router w)) as [[i |] r']; simpl in *.
  - symmetry in H1. apply findIndexFrom_Some in H1 as (_ & p & Hp & Hadm & _).
    rewrite Nat.sub_0_r in Hp.
    split; [split |].
    + intros H. now apply callLoop_found_a_provider in H.
    + intros H. rewrite (H i p Hp) in Hadm. discriminate.
    + intros H. now apply callLoop_found_a_provider in H.
  - subst r'. symmetry in H1. apply findIndexFrom_None in H1.
    rewrite Forall_lookup in H1.
    split; [split; [intros _; exact H1 | reflexivity] |].
    intros _. now destruct w.
Qed.

(** ** Breaker invariants *)

Lemma tsApply_keeps cb op :
  0 <= Ts.consecutiveFails cb ->
  (Ts.state cb = Ts.closed ->
   Ts.consecutiveFails cb < Z.max 1 (Ts.failureThreshold (Ts.config cb))) ->
  Ts.config (tsApply cb op) = Ts.config cb
  /\ 0 <= Ts.consecutiveFails (tsApply cb op)
  /\ (Ts.state (tsApply cb op) = Ts.closed ->
      Ts.consecutiveFails (tsApply cb op) < Z.max 1 (Ts.failureThreshold (Ts.config cb))).
Proof.
  intros Hnn Hcl. destruct op as [now | | now]; simpl.
  - unfold Ts.canExecute. destruct (Ts.state cb) eqn:Hs; simpl; [auto |].
    destruct (Ts.resetTimeout (Ts.config cb) <? now - Ts.lastFailure cb); simpl.
    + repeat split; lia.
    + rewrite Hs. repeat split; auto; discriminate.
  - split; [reflexivity | split; [lia | intros _; lia]].
  - split; [reflexivity | split; [lia |]].
    destruct (Z.leb_spec (Ts.failureThreshold (Ts.config cb)) (Ts.consecutiveFails cb + 1));
      [discriminate | lia].
Qed.

(** X6.  Whatever sequence of [canExecute], [recordSuccess] and
    [recordFailure] calls a new TypeScript breaker goes through, its
    configuration stays the one it was built with, its failure count is never
    negative, and while it is closed the count is below the threshold; with a
    threshold that is not positive, which the first failure reaches, the
    count of a closed breaker is zero. *)
Theorem X6_closed_circuit_is_below_threshold (cfg : Ts.CircuitBreakerConfig)
  (ops : list TsOp) :
  let cb := foldl tsApply (Ts.newCircuitBreaker cfg) ops in
  Ts.config cb = cfg
  /\ 0 <= Ts.consecutiveFails cb
  /\ (Ts.state cb = Ts.closed ->
      Ts.consecutiveFails cb < Z.max 1 (Ts.failureThreshold cfg)).
Proof.
  induction ops as [| op ops IH] using rev_ind; simpl.
  - repeat split; simpl; lia.
  - rewrite foldl_app. simpl. simpl in IH. destruct IH as (Hc & Hn & Hcl).
    destruct (tsApply_keeps (foldl tsApply (Ts.newCircuitBreaker cfg) ops) op)
      as (Hc' & Hn' & Hcl'); rewrite ?Hc; auto.
    rewrite Hc in *. split; [congruence | split; [exact Hn' | exact Hcl']].
Qed.

(** X6 (instance).  Two failures, a success and an admission check on a new
    breaker. *)
Lemma X6_closed_circuit_witness :
  Ts.state (foldl tsApply (Ts.newCircuitBreaker Ts.defaultCircuitConfig)
              [TsRecordFailure 1; TsRecordFailure 2; TsRecordSuccess; TsCanExecute 5])
  = Ts.closed
  /\ Ts.consecutiveFails
       (foldl tsApply (Ts.newCircuitBreaker Ts.defaultCircuitConfig)
          [TsRecordFailure 1; TsRecordFailure 2; TsRecordSuccess; TsCanExecute 5])
     < Z.max 1 (Ts.failureThreshold Ts.defaultCircuitConfig).
Proof.
  assert (H : Ts.state (foldl tsApply (Ts.newCircuitBreaker Ts.defaultCircuitConfig)
                          [TsRecordFailure 1; TsRecordFailure 2; TsRecordSuccess;
                           TsCanExecute 5]) = Ts.closed) by reflexivity.
  split; [exact H |].
  exact (proj2 (proj2 (X6_closed_circuit_is_below_threshold Ts.defaultCircuitConfig
                         [TsRecordFailure 1; TsRecordFailure 2; TsRecordSuccess;
                          TsCanExecute 5])) H).
Defined.

Lemma recordFailures_stays_closed times cb :
  Ts.state cb = Ts.closed ->
  Ts.consecutiveFails cb + Z.of_nat (length times) < Ts.failureThreshold (Ts.config cb) ->
  Ts.state (recordFailures times cb) = Ts.closed.
Proof.
  induction times as [| now times IH] using rev_ind; intros Hs Hlt; [exact Hs |].
  rewrite recordFailures_snoc. rewrite length_app in Hlt. simpl in Hlt.
  destruct (recordFailures_count times cb) as [Hc Hg].
  unfold Ts.recordFailure. simpl. rewrite Hc, Hg.
  destruct (Z.leb_spec (Ts.failureThreshold (Ts.config cb))
              (Ts.consecutiveFails cb + Z.of_nat (length times) + 1)); [lia |].
  apply IH; [exact Hs | lia].
Qed.

(** X7.  A success in between restarts the count: a closed breaker that
    sees fewer than [failureThreshold] failures, then a success, then again
    fewer than [failureThreshold] failures is still closed, counts the
    failures after the success only, and admits every request. *)
Theorem X7_success_restarts_the_count (cb : Ts.CircuitBreaker) (before after : list Z) :
  Ts.state cb = Ts.closed ->
  Ts.consecutiveFails cb + Z.of_nat (length before) < Ts.failureThreshold (Ts.config cb) ->
  Z.of_nat (length after) < Ts.failureThreshold (Ts.config cb) ->
  let cb' := recordFailures after (Ts.recordSuccess (recordFailures before cb)) in
  Ts.state cb' = Ts.closed
  /\ Ts.consecutiveFails cb' = Z.of_nat (length after)
  /\ forall nows, fst (canExecuteAll nows cb') = List.map (fun _ => true) nows.
Proof.
  intros Hs Hb Ha cb'.
  pose proof (recordFailures_stays_closed before cb Hs Hb) as Hs1.
  destruct (recordFailures_count before cb) as [_ Hg1].
  set (cb1 := Ts.recordSuccess (recordFailures before cb)) in *.
  assert (Hs2 : Ts.state cb1 = Ts.closed) by exact Hs1.
  assert (Hg2 : Ts.config cb1 = Ts.config cb) by exact Hg1.
  destruct (recordFailures_count after cb1) as [Hc3 Hg3].
  assert (Hs3 : Ts.state cb' = Ts.closed).
  { apply recordFailures_stays_closed; [exact Hs2 |]. rewrite Hg2. simpl. lia. }
  split; [exact Hs3 | split; [exact Hc3 |]].
  intros nows. now rewrite canExecuteAll_closed.
Qed.

(** X7 (instance).  Two failures, a success, two more failures, with a
    threshold of three. *)
Lemma X7_success_restarts_witness :
  Ts.consecutiveFails
    (recordFailures [30; 40]
       (Ts.recordSuccess
          (recordFailures [10; 20] (Ts.newCircuitBreaker Ts.defaultCircuitConfig))))
  = 2.
Proof.
  refine (proj1 (proj2 (X7_success_restarts_the_count
                          (Ts.newCircuitBreaker Ts.defaultCircuitConfig) [10; 20] [30; 40]
                          eq_refl _ _))); simpl; lia.
Defined.

Lemma goApply_keeps cb op :
  0 <= Go.failureCount cb ->
  (Go.state cb = Go.StateClosed -> Go.failureCount cb < Z.max 1 (Go.threshold cb)) ->
  Go.threshold (goApply cb op) = Go.threshold cb
  /\ Go.timeout (goApply cb op) = Go.timeout cb
  /\ 0 <= Go.failureCount (goApply cb op)
  /\ (Go.state (goApply cb op) = Go.StateClosed ->
      Go.failureCount (goApply cb op) < Z.max 1 (Go.threshold cb)).
Proof.
  intros Hnn Hcl.
  destruct op as [now | | now]; simpl;
    [unfold Go.IsOpen | unfold Go.RecordSuccess | unfold Go.RecordFailure];
    destruct (Go.state cb) eqn:Hs; simpl;
    try (destruct (Go.timeout cb <? now - Go.openedAt cb); simpl);
    try (destruct (Z.ltb_spec 0 (Go.failureCount cb)); simpl);
    try (destruct (Z.leb_spec (Go.threshold cb) (Go.failureCount cb + 1)); simpl);
    rewrite ?Hs;
    (split; [reflexivity | split; [reflexivity | split; [lia |]]]);
    try discriminate; intros _; try specialize (Hcl eq_refl); lia.
Qed.

(** X8.  Whatever sequence of [IsOpen], [RecordSuccess] and
    [RecordFailure] calls a new Go breaker goes through, its threshold and
    timeout stay the ones it was built with, its failure count is never
    negative, and while it is closed the count is below the threshold; with a
    threshold that is not positive, which the first failure reaches, the
    count of a closed breaker is zero. *)
Theorem X8_go_closed_breaker_is_below_threshold (threshold timeout : Z) (ops : list GoOp) :
  let cb := foldl goApply (Go.NewCircuitBreaker threshold timeout) ops in
  Go.threshold cb = threshold /\ Go.timeout cb = timeout
  /\ 0 <= Go.failureCount cb
  /\ (Go.state cb = Go.StateClosed -> Go.failureCount cb < Z.max 1 threshold).
Proof.
  induction ops as [| op ops IH] using rev_ind; simpl.
  - repeat split; simpl; lia.
  - rewrite foldl_app. simpl. simpl in IH. destruct IH as (Ht & Hto & Hn & Hcl).
    destruct (goApply_keeps (foldl goApply (Go.NewCircuitBreaker threshold timeout) ops) op)
      as (Ht' & Hto' & Hn' & Hcl'); rewrite ?Ht; auto.
    rewrite Ht in *.
    split; [congruence | split; [congruence | split; [exact Hn' | exact Hcl']]].
Qed.

(** X8 (instance).  A failure, a check and a success on a new Go breaker. *)
Lemma X8_go_closed_breaker_witness :
  Go.state (foldl goApply (Go.NewCircuitBreaker 5 30)
              [GoRecordFailure 1; GoIsOpen 2; GoRecordSuccess]) = Go.StateClosed
  /\ Go.failureCount (foldl goApply (Go.NewCircuitBreaker 5 30)
                        [GoRecordFailure 1; GoIsOpen 2; GoRecordSuccess])
     < Z.max 1 5.
Proof.
  assert (H : Go.state (foldl goApply (Go.NewCircuitBreaker 5 30)
                          [GoRecordFailure 1; GoIsOpen 2; GoRecordSuccess])
              = Go.StateClosed) by reflexivity.
  split; [exact H |].
  exact (proj2 (proj2 (proj2 (X8_go_closed_breaker_is_below_threshold 5 30
                                [GoRecordFailure 1; GoIsOpen 2; GoRecordSuccess]))) H).
Defined.

Lemma IsOpenAll_refuses nows cb :
  Go.state cb = Go.StateOpen ->
  Forall (fun now => now - Go.openedAt cb <= Go.timeout cb) nows ->
  IsOpenAll nows cb = (List.map (fun _ => true) nows, cb).
Proof.
  intros Hs Hall. induction Hall as [| now rest Hnow _ IH]; simpl; [reflexivity |].
  unfold Go.IsOpen at 1. rewrite Hs.
  destruct (Z.ltb_spec (Go.timeout cb) (now - Go.openedAt cb)); [lia |].
  now rewrite IH.
Qed.

(** X9.  A failure while the Go breaker is half-open opens it again and
    restarts the timer at the time of that failure: every [IsOpen] asked
    within the timeout of that moment answers that the circuit is open. *)
Theorem X9_failed_probe_reopens_with_fresh_timer (cb : Go.CircuitBreaker) (now : Z)
  (nows : list Z) :
  Go.state cb = Go.StateHalfOpen ->
  Forall (fun t => t - now <= Go.timeout cb) nows ->
  let cb' := Go.RecordFailure now cb in
  Go.state cb' = Go.StateOpen /\ Go.openedAt cb' = now
  /\ IsOpenAll nows cb' = (List.map (fun _ => true) nows, cb').
Proof.
  intros Hs Hall cb'.
  assert (H : Go.state cb' = Go.StateOpen /\ Go.openedAt cb' = now
              /\ Go.timeout cb' = Go.timeout cb).
  { unfold cb', Go.RecordFailure. rewrite Hs. auto. }
  destruct H as (Hs' & Ho & Ht). split; [exact Hs' | split; [exact Ho |]].
  apply IsOpenAll_refuses; [exact Hs' |]. rewrite Ho, Ht. exact Hall.
Qed.

(** X9 (instance).  A probe that fails at time 40, timeout 30. *)
Lemma X9_failed_probe_witness :
  Go.state (Go.RecordFailure 40 probing) = Go.StateOpen
  /\ Go.openedAt (Go.RecordFailure 40 probing) = 40
  /\ IsOpenAll [50; 70] (Go.RecordFailure 40 probing)
     = ([true; true], Go.RecordFailure 40 probing).
Proof.
  refine (X9_failed_probe_reopens_with_fresh_timer probing 40 [50; 70] eq_refl _).
  repeat constructor; simpl; lia.
Defined.

(** X10.  A failure recorded while the circuit is open.  The Go breaker
    stays open and keeps the time it opened, so the moment it lets a probe
    through does not move.  The TypeScript breaker stays open and moves its
    last-failure time to the new failure, so it admits a request only once
    [resetTimeout] has passed since that failure. *)
Theorem X10_failure_while_open (now t : Z) (gcb : Go.CircuitBreaker) (tcb : Ts.CircuitBreaker) :
  Go.state gcb = Go.StateOpen ->
  Ts.state tcb = Ts.open ->
  (Go.state (Go.RecordFailure now gcb) = Go.StateOpen
   /\ Go.openedAt (Go.RecordFailure now gcb) = Go.openedAt gcb
   /\ fst (Go.IsOpen t (Go.RecordFailure now gcb)) = fst (Go.IsOpen t gcb))
  /\ (Ts.state (Ts.recordFailure now tcb) = Ts.open
      /\ Ts.lastFailure (Ts.recordFailure now tcb) = now
      /\ admits t (Ts.recordFailure now tcb)
         = (Ts.resetTimeout (Ts.config tcb) <? t - now)).
Proof.
  intros Hg Ht. split.
  - unfold Go.RecordFailure, Go.IsOpen. rewrite Hg. simpl. rewrite ?Hg.
    now destruct (Go.timeout gcb <? t - Go.openedAt gcb).
  - assert (Hs' : Ts.state (Ts.recordFailure now tcb) = Ts.open).
    { unfold Ts.recordFailure. simpl. rewrite Ht. now destruct (_ <=? _). }
    split; [exact Hs' | split; [reflexivity |]].
    unfold admits, Ts.canExecute. rewrite Hs'. simpl.
    now destruct (Ts.resetTimeout (Ts.config tcb) <? t - now).
Qed.

(** X10 (instance).  Both breakers opened at time 0 with a timeout of 30 and
    see a further failure at time 20: at time 31 the Go breaker lets a probe
    through, the TypeScript breaker does not. *)
Lemma X10_failure_while_open_witness :
  fst (Go.IsOpen 31 (Go.RecordFailure 20 openedAtZero)) = false
  /\ admits 31 (Ts.recordFailure 20 trippedAtZero) = false.
Proof.
  destruct (X10_failure_while_open 20 31 openedAtZero trippedAtZero eq_refl eq_refl)
    as ((_ & _ & Hgo) & (_ & _ & Hts)).
  split; [rewrite Hgo | rewrite Hts]; reflexivity.
Defined.

(** ** Go router *)

Lemma register_models name models (acc : gmap string (list string)) model :
  default [] (foldl (fun m model' => <[model' := default [] (m !! model') ++ [name]]> m)
                acc models !! model)
  = default [] (acc !! model) ++ ((fun _ => name) <$> filter (fun m => m = model) models).
Proof.
  revert acc. induction models as [| model' models IH]; intros acc; simpl.
  - now rewrite app_nil_r.
  - rewrite IH. rewrite filter_cons.
    destruct (decide (model' = model)) as [-> | Hne].
    + rewrite lookup_insert_eq. simpl. now rewrite <- app_assoc.
    + now rewrite lookup_insert_ne.
Qed.

Lemma register_providers providers (acc : gmap string (list string)) model :
  default []
    (foldl (fun m provider =>
              foldl (fun m model' => <[model' := default [] (m !! model') ++ [Go.Name provider]]> m)
                    m (Go.Models provider))
       acc providers !! model)
  = default [] (acc !! model) ++ serving model providers.
Proof.
  revert acc. induction providers as [| p providers IH]; intros acc; simpl.
  - now rewrite app_nil_r.
  - rewrite IH, register_models. unfold serving. simpl. now rewrite <- app_assoc.
Qed.

(** X11.  The router built by [NewProviderRouter] maps a model to the names
    of the providers that list it, in configuration order (a provider that
    lists the model twice appears twice); a name is in that list exactly when
    a configured provider of that name lists the model. *)
Theorem X11_router_maps_model_to_its_providers (providers : list Go.ProviderConfig)
  (model : string) :
  default [] (Go.modelToProvider (Go.NewProviderRouter providers) !! model)
  = serving model providers
  /\ (forall name, name ∈ serving model providers <->
        exists p, p ∈ providers /\ Go.Name p = name /\ model ∈ Go.Models p).
Proof.
  split.
  - unfold Go.NewProviderRouter. simpl. rewrite register_providers.
    now rewrite lookup_empty.
  - intros name. unfold serving. rewrite list_elem_of_bind. split.
    + intros (p & Hname & Hp). apply list_elem_of_fmap in Hname as (m & -> & Hm).
      apply list_elem_of_filter in Hm as [-> Hm]. eauto.
    + intros (p & Hp & <- & Hm). exists p. split; [| exact Hp].
      apply list_elem_of_fmap. exists model. split; [reflexivity |].
      apply list_elem_of_filter. auto.
Qed.

Lemma existsb_eqb_elem (x : string) (l : list string) :
  existsb (fun p => String.eqb p x) l = true <-> x ∈ l.
Proof.
  rewrite existsb_exists. split.
  - intros (y & Hy & Heq). apply String.eqb_eq in Heq. subst y. now apply list_elem_of_In.
  - intros Hx. exists x. split; [now apply list_elem_of_In | apply String.eqb_refl].
Qed.

(** X12.  [SelectProvider] fails exactly when no provider serves the model,
    and otherwise returns one of the providers that serve it.  On the first
    attempt it returns the preferred provider if the request names one that
    serves the model, and the first serving provider otherwise.  On a later
    attempt it returns a provider other than the previous one whenever one
    exists. *)
Theorem X12_SelectProvider_chooses_among_eligible (r : Go.ProviderRouter) (req : Go.Request)
  (attemptNumber : Z) (previousProvider : string) :
  (eligibleFor r req = [] <-> Go.SelectProvider r req attemptNumber previousProvider = inr Go.OtherError)
  /\ (forall p, Go.SelectProvider r req attemptNumber previousProvider = inl p ->
        p ∈ eligibleFor r req)
  /\ (attemptNumber = 1 -> Go.PreferredProvider req <> ""%string ->
      Go.PreferredProvider req ∈ eligibleFor r req ->
      Go.SelectProvider r req attemptNumber previousProvider = inl (Go.PreferredProvider req))
  /\ (attemptNumber = 1 ->
      Go.PreferredProvider req = ""%string \/ Go.PreferredProvider req ∉ eligibleFor r req ->
      Go.SelectProvider r req attemptNumber previousProvider
      = from_option inl (inr Go.OtherError) (head (eligibleFor r req)))
  /\ (attemptNumber <> 1 ->
      forall q, q ∈ eligibleFor r req -> q <> previousProvider ->
      exists p, Go.SelectProvider r req attemptNumber previousProvider = inl p
                /\ p <> previousProvider).
Proof.
  unfold Go.SelectProvider, eligibleFor.
  destruct (default [] (Go.modelToProvider r !! Go.Model req)) as [| first rest] eqn:He.
  { split; [split; reflexivity |].
    split; [intros p; discriminate |].
    split; [intros _ _ H; inversion H |].
    split; [reflexivity |].
    intros _ q H; inversion H. }
  assert (Hpref : negb (String.eqb (Go.PreferredProvider req) "")
                  && existsb (fun p => String.eqb p (Go.PreferredProvider req)) (first :: rest)
                  = true
                  <-> Go.PreferredProvider req <> ""%string
                      /\ Go.PreferredProvider req ∈ first :: rest).
  { rewrite andb_true_iff, negb_true_iff, String.eqb_neq, existsb_eqb_elem. reflexivity. }
  split; [| split; [| split; [| split]]].
  - split; [discriminate |].
    destruct (attemptNumber =? 1); [destruct (_ && _) |]; try discriminate.
    destruct (List.find _ _); discriminate.
  - intros p. destruct (attemptNumber =? 1).
    + destruct (_ && _).
      * destruct (proj1 Hpref eq_refl) as [_ Hin]. now intros [= <-].
      * intros [= <-]. apply list_elem_of_here.
    + destruct (List.find _ _) as [q |] eqn:Hf.
      * apply List.find_some in Hf as [Hin _]. intros [= <-]. now apply list_elem_of_In.
      * intros [= <-]. apply list_elem_of_here.
  - intros -> Hne Hin. simpl.
    destruct (_ && _); [reflexivity |].
    discriminate (proj2 Hpref (conj Hne Hin)).
  - intros -> Hno. simpl.
    destruct (_ && _); [| reflexivity].
    destruct (proj1 Hpref eq_refl) as [Hne Hin]. destruct Hno; contradiction.
  - intros Hn q Hq Hqp.
    destruct (Z.eqb_spec attemptNumber 1); [contradiction |].
    destruct (List.find _ _) as [p |] eqn:Hf.
    + apply List.find_some in Hf as [_ Hp]. exists p. split; [reflexivity |].
      apply negb_true_iff, String.eqb_neq in Hp. exact Hp.
    + exfalso. pose proof (List.find_none _ _ Hf q) as Hq'.
      rewrite negb_false_iff, String.eqb_eq in Hq'. apply Hqp, Hq'.
      now apply list_elem_of_In.
Qed.

(** X12 (instance).  The demo router and a request that prefers anthropic. *)
Lemma X12_SelectProvider_witness :
  Go.SelectProvider demoRouter
    {| Go.Model := "gpt-4"; Go.PreferredProvider := "anthropic" |} 1 ""
  = inl "anthropic"%string.
Proof.
  refine (proj1 (proj2 (proj2 (X12_SelectProvider_chooses_among_eligible demoRouter
            {| Go.Model := "gpt-4"; Go.PreferredProvider := "anthropic" |} 1 "")))
          eq_refl _ _).
  - discriminate.
  - vm_compute. repeat constructor.
Defined.

(** ** Go orchestrator *)

Ltac conjs := repeat match goal with |- _ /\ _ => split end.

Lemma SendRequest_counters cfg env provider w :
  let w' := snd (Go.SendRequest cfg env provider w) in
  (Go.exchanged w <= Go.exchanged w' <= S (Go.exchanged w))%nat
  /\ Go.waited w' = Go.waited w.
Proof.
  unfold Go.SendRequest.
  destruct (Go.getCircuitBreaker _ _ _) as [cb cbs].
  destruct (Go.IsOpen _ _) as [[|] cb1]; simpl; [lia |].
  destruct (Go.exchange env (Go.exchanged w)) as [dt x].
  destruct x as [[|] | | status [parsed |]]; simpl; try lia;
    destruct (status =? 200); simpl; try lia;
    destruct (status =? 429); simpl; try lia;
    destruct (500 <=? status); simpl; lia.
Qed.

Lemma executeAttempt_record cfg env r k provider w :
  let '(a, res, w1) := Go.executeAttempt cfg env r k provider w in
  Go.AttemptNumber a = k /\ Go.AttemptProvider a = provider
  /\ Go.Status a = match res with inl _ => Go.success | inr _ => Go.failed end
  /\ (Go.exchanged w <= Go.exchanged w1 <= S (Go.exchanged w))%nat
  /\ Go.waited w1 = Go.waited w.
Proof.
  unfold Go.executeAttempt.
  destruct (Go.GetProviderConfig r provider); [| simpl; conjs; reflexivity || lia].
  destruct (negb _); [simpl; conjs; reflexivity || lia |].
  pose proof (SendRequest_counters cfg env provider w) as Hc.
  destruct (Go.SendRequest cfg env provider w) as [[[[content tokens] |] | err] w1];
    simpl in *; conjs; reflexivity || lia.
Qed.

Lemma attemptLoop_history cfg env r req n :
  forall k lastProvider lastError attempts w res attempts' w',
  Go.attemptLoop cfg env r req n k lastProvider lastError attempts w = (res, attempts', w') ->
  exists new,
    attempts' = attempts ++ new
    /\ (length new <= n)%nat
    /\ Go.AttemptNumber <$> new = seqZ k (Z.of_nat (length new))
    /\ (Go.exchanged w <= Go.exchanged w' <= Go.exchanged w + length new)%nat
    /\ (Go.waited w <= Go.waited w' <= Go.waited w + length new)%nat
    /\ (forall i a, new !! i = Some a -> (S i < length new)%nat -> Go.Status a = Go.failed)
    /\ match res with
       | inl resp =>
           Go.Attempts resp = k + Z.of_nat (length new) - 1
           /\ (S (Go.waited w') = Go.waited w + length new)%nat
           /\ exists a, last new = Some a /\ Go.Status a = Go.success
                        /\ Go.AttemptProvider a = Go.RespProvider resp
       | inr e =>
           (forall a, a ∈ new -> Go.Status a = Go.failed)
           /\ (forall m le, e = Go.MaxRetriesExceededError m le ->
                 m = length attempts'
                 /\ (length new = n \/ Go.MaxRetries (Go.Retry cfg) <= k + Z.of_nat (length new) - 1))
       end.
Proof.
  induction n as [| n IH]; intros k lastProvider lastError attempts w res attempts' w'; simpl.
  - intros [= <- <- <-]. exists []. rewrite app_nil_r. simpl.
    conjs; try reflexivity; try lia; try (intros; discriminate).
    + intros a Ha. inversion Ha.
    + intros m le [= <- _]. split; [reflexivity | now left].
  - destruct (Go.SelectProvider r req k lastProvider) as [provider | err].
    2:{ intros [= <- <- <-]. exists []. rewrite app_nil_r. simpl.
        conjs; try reflexivity; try lia; try (intros; discriminate).
        intros a Ha. inversion Ha. }
    pose proof (executeAttempt_record cfg env r k provider w) as Hrec.
    destruct (Go.executeAttempt cfg env r k provider w) as [[a res1] w1].
    destruct Hrec as (Hnum & Hprov & Hst & Hex & Hwt).
    assert (Hone : forall i b, [a] !! i = Some b -> (S i < length [a])%nat -> Go.Status b = Go.failed).
    { intros i b _ Hlt. simpl in Hlt. lia. }
    assert (Hfail : forall e, res1 = inr e -> forall b, b ∈ [a] -> Go.Status b = Go.failed).
    { intros e -> b Hb. apply list_elem_of_singleton in Hb. now subst b. }
    assert (Hseq : Go.AttemptNumber <$> [a] = seqZ k (Z.of_nat (length [a]))).
    { simpl. rewrite Hnum. reflexivity. }
    destruct res1 as [response | err].
    { intros [= <- <- <-]. exists [a].
      conjs; try reflexivity; try exact Hone; try exact Hseq; simpl; try lia.
      exists a. simpl. auto. }
    destruct (negb (Go.isRetryable err)).
    { intros [= <- <- <-]. exists [a].
      conjs; try reflexivity; try exact Hone; try exact Hseq; simpl; try lia;
        try (intros; discriminate).
      now apply (Hfail err). }
    destruct (Z.leb_spec (Go.MaxRetries (Go.Retry cfg)) k) as [Hmax | Hmax].
    { intros [= <- <- <-]. exists [a].
      conjs; try reflexivity; try exact Hone; try exact Hseq; simpl; try lia.
      - now apply (Hfail err).
      - intros m le [= <- _]. split; [reflexivity | right; lia]. }
    destruct (Go.ctxDone env (Go.waited w1)).
    { intros [= <- <- <-]. exists [a].
      conjs; try reflexivity; try exact Hone; try exact Hseq; simpl; try lia;
        try (intros; discriminate).
      now apply (Hfail err). }
    intros Hloop. apply IH in Hloop as (new & -> & Hlen & Hnums & Hex' & Hwt' & Hprev & Hres).
    simpl in Hex', Hwt'.
    exists (a :: new). rewrite <- app_assoc. simpl.
    split; [reflexivity |]. split; [lia |].
    split.
    { replace (Z.of_nat (S (length new))) with (Z.succ (Z.of_nat (length new))) by lia.
      rewrite seqZ_cons by lia. rewrite Z.pred_succ.
      change (Z.succ k) with (k + 1). rewrite <- Hnums, <- Hnum. reflexivity. }
    split; [lia |]. split; [lia |].
    split.
    { intros [| i] b; simpl.
      - intros [= <-] _. exact Hst.
      - intros Hb Hlt. apply (Hprev i b Hb). lia. }
    destruct res as [resp | e].
    + destruct Hres as (Hatt & Hw & b & Hlast & Hb). simpl in Hw.
      split; [lia |]. split; [lia |].
      exists b. split; [| exact Hb].
      destruct new as [| c new]; [discriminate |]. exact Hlast.
    + destruct Hres as (Hall & Hm). split.
      * intros b Hb. apply elem_of_cons in Hb as [-> | Hb]; [exact Hst | now apply Hall].
      * intros m le He. destruct (Hm m le He) as [Hm1 Hm2].
        rewrite <- app_assoc in Hm1. split; [exact Hm1 |]. lia.
Qed.

(** X13.  The attempt history of [ExecuteRequest]: at most [MaxRetries]
    attempts, numbered 1, 2, ... in order; at most one exchange and at most
    one wait per attempt; every attempt but the last is a failed one.  A
    response reports the length of the history as its attempt count, was
    preceded by one wait fewer than attempts, and its provider is the one of
    the last attempt, which succeeded.  On an error every attempt failed, and
    [MaxRetriesExceededError] reports exactly [MaxRetries] attempts (none
    when [MaxRetries] is not positive). *)
Theorem X13_ExecuteRequest_attempt_history cfg env r req w :
  let '(res, attempts, w') := Go.ExecuteRequest cfg env r req w in
  (length attempts <= Z.to_nat (Go.MaxRetries (Go.Retry cfg)))%nat
  /\ Go.AttemptNumber <$> attempts = seqZ 1 (Z.of_nat (length attempts))
  /\ (Go.exchanged w <= Go.exchanged w' <= Go.exchanged w + length attempts)%nat
  /\ (Go.waited w <= Go.waited w' <= Go.waited w + length attempts)%nat
  /\ (forall i a, attempts !! i = Some a -> (S i < length attempts)%nat ->
        Go.Status a = Go.failed)
  /\ match res with
     | inl resp =>
         Go.Attempts resp = Z.of_nat (length attempts)
         /\ (S (Go.waited w') = Go.waited w + length attempts)%nat
         /\ exists a, last attempts = Some a /\ Go.Status a = Go.success
                      /\ Go.AttemptProvider a = Go.RespProvider resp
     | inr e =>
         (forall a, a ∈ attempts -> Go.Status a = Go.failed)
         /\ (forall m le, e = Go.MaxRetriesExceededError m le ->
               m = length attempts /\ m = Z.to_nat (Go.MaxRetries (Go.Retry cfg)))
     end.
Proof.
  unfold Go.ExecuteRequest.
  destruct (Go.attemptLoop _ _ _ _ _ _ _ _ _ _) as [[res attempts] w'] eqn:Hloop.
  apply attemptLoop_history in Hloop as (new & -> & Hlen & Hnums & Hex & Hwt & Hprev & Hres).
  simpl. repeat (split; [assumption || lia |]).
  destruct res as [resp | e].
  - destruct Hres as (Hatt & Hw & Ha). split; [lia |]. split; [lia | exact Ha].
  - destruct Hres as (Hall & Hm). split; [exact Hall |].
    intros m le He. destruct (Hm m le He) as [Hm1 Hm2]. simpl in Hm1.
    split; [exact Hm1 |]. lia.
Qed.

(** ** Go client *)

Lemma SendRequest_breaker cfg env provider w :
  let cb := fst (Go.getCircuitBreaker cfg provider (Go.circuitBreakers w)) in
  let '(isOpen, cb1) := Go.IsOpen (Go.clock w) cb in
  let '(res, w') := Go.SendRequest cfg env provider w in
  let '(dt, x) := Go.exchange env (Go.exchanged w) in
  (forall q, q <> provider -> Go.circuitBreakers w' !! q = Go.circuitBreakers w !! q)
  /\ if isOpen
     then res = inr (Go.CircuitBreakerOpenError provider)
          /\ Go.circuitBreakers w' !! provider = Some cb1
          /\ Go.exchanged w' = Go.exchanged w /\ Go.clock w' = Go.clock w
     else (forall p, res <> inr (Go.CircuitBreakerOpenError p))
          /\ Go.circuitBreakers w' !! provider
             = Some (if failing x then Go.RecordFailure (Go.clock w') cb1
                     else Go.RecordSuccess cb1)
          /\ Go.exchanged w' = S (Go.exchanged w) /\ Go.clock w' = Go.clock w + dt
          /\ (failing x = match res with inl _ => false | inr _ => true end).
Proof.
  unfold Go.SendRequest.
  assert (Hcbs : forall q, q <> provider ->
            snd (Go.getCircuitBreaker cfg provider (Go.circuitBreakers w)) !! q
            = Go.circuitBreakers w !! q).
  { intros q Hq. unfold Go.getCircuitBreaker.
    destruct (Go.circuitBreakers w !! provider); simpl; [reflexivity |].
    now rewrite lookup_insert_ne. }
  destruct (Go.getCircuitBreaker _ _ _) as [cb cbs]. simpl in *.
  destruct (Go.IsOpen _ _) as [isOpen cb1].
  destruct (Go.exchange env (Go.exchanged w)) as [dt x].
  assert (Hq : forall c q, q <> provider ->
            <[provider := c]> (<[provider := cb1]> cbs) !! q = Go.circuitBreakers w !! q).
  { intros c q Hne. rewrite !lookup_insert_ne by congruence. now apply Hcbs. }
  destruct isOpen; simpl.
  { split; [intros q Hne; rewrite lookup_insert_ne by congruence; now apply Hcbs |].
    now rewrite lookup_insert_eq. }
  destruct x as [[|] | | status [parsed |]]; simpl;
    try (destruct (Z.eqb_spec status 200); simpl);
    try (destruct (status =? 429); simpl);
    try (destruct (500 <=? status); simpl);
    (split; [apply Hq |]); rewrite lookup_insert_eq;
    (split; [intros p; discriminate |]); auto.
Qed.

(** X14.  [SendRequest] touches the breaker of its own provider only: the
    breakers of all other providers are as before, and the provider has a
    breaker afterwards.  It returns [CircuitBreakerOpenError] exactly when it
    made no exchange, and then no time has passed; otherwise it made exactly
    one exchange, and the clock advanced by its duration. *)
Theorem X14_SendRequest_touches_one_breaker cfg env provider w :
  let '(res, w') := Go.SendRequest cfg env provider w in
  (forall q, q <> provider -> Go.circuitBreakers w' !! q = Go.circuitBreakers w !! q)
  /\ is_Some (Go.circuitBreakers w' !! provider)
  /\ ((exists p, res = inr (Go.CircuitBreakerOpenError p))
      <-> Go.exchanged w' = Go.exchanged w)
  /\ (Go.exchanged w' = Go.exchanged w ->
      res = inr (Go.CircuitBreakerOpenError provider) /\ Go.clock w' = Go.clock w)
  /\ (Go.exchanged w' <> Go.exchanged w ->
      Go.exchanged w' = S (Go.exchanged w)
      /\ Go.clock w' = Go.clock w + fst (Go.exchange env (Go.exchanged w))).
Proof.
  pose proof (SendRequest_breaker cfg env provider w) as H. simpl in H.
  destruct (Go.IsOpen _ _) as [isOpen cb1].
  destruct (Go.SendRequest cfg env provider w) as [res w'].
  destruct (Go.exchange env (Go.exchanged w)) as [dt x].
  destruct H as [Hq H]. split; [exact Hq |].
  destruct isOpen.
  - destruct H as (-> & Hcb & Hex & Hclock).
    split; [rewrite Hcb; eauto |]. split; [split; eauto |].
    split; [auto | congruence].
  - destruct H as (Hno & Hcb & Hex & Hclock & _).
    split; [rewrite Hcb; eauto |]. split.
    + split; [intros [p Hp]; now destruct (Hno p) | lia].
    + split; [lia | auto].
Qed.

Lemma getCircuitBreaker_present cfg provider cbs cb :
  cbs !! provider = Some cb -> fst (Go.getCircuitBreaker cfg provider cbs) = cb.
Proof. intros H. unfold Go.getCircuitBreaker. now rewrite H. Qed.

Lemma sendRepeatedly_trips cfg env provider n :
  forall w,
  let cb := fst (Go.getCircuitBreaker cfg provider (Go.circuitBreakers w)) in
  Go.state cb = Go.StateClosed ->
  Go.threshold cb - Go.failureCount cb = Z.of_nat (S n) ->
  (forall k, failing (snd (Go.exchange env k)) = true) ->
  let w' := sendRepeatedly cfg env provider (S n) w in
  Go.exchanged w' = (Go.exchanged w + S n)%nat
  /\ exists cb', Go.circuitBreakers w' !! provider = Some cb'
       /\ Go.state cb' = Go.StateOpen /\ Go.openedAt cb' = Go.clock w'
       /\ Go.timeout cb' = Go.timeout cb.
Proof.
  induction n as [| n IH]; intros w cb Hst Hcount Hfail.
  - simpl. pose proof (SendRequest_breaker cfg env provider w) as H. simpl in H.
    fold cb in H. unfold Go.IsOpen in H. rewrite Hst in H.
    destruct (Go.SendRequest cfg env provider w) as [res w1].
    specialize (Hfail (Go.exchanged w)).
    destruct (Go.exchange env (Go.exchanged w)) as [dt x]. simpl in Hfail.
    destruct H as (_ & _ & Hcb & Hex & _). rewrite Hfail in Hcb.
    split; [simpl; lia |].
    eexists. split; [exact Hcb |]. unfold Go.RecordFailure. rewrite Hst.
    destruct (Z.leb_spec (Go.threshold cb) (Go.failureCount cb + 1)); [| lia].
    simpl. auto.
  - change (sendRepeatedly cfg env provider (S (S n)) w)
      with (sendRepeatedly cfg env provider (S n) (snd (Go.SendRequest cfg env provider w))).
    pose proof (SendRequest_breaker cfg env provider w) as H. simpl in H.
    fold cb in H. unfold Go.IsOpen in H. rewrite Hst in H.
    destruct (Go.SendRequest cfg env provider w) as [res w1].
    pose proof (Hfail (Go.exchanged w)) as Hx.
    destruct (Go.exchange env (Go.exchanged w)) as [dt x]. simpl in Hx.
    destruct H as (_ & _ & Hcb & Hex & _). rewrite Hx in Hcb.
    simpl snd.
    assert (Hrf : Go.RecordFailure (Go.clock w1) cb
                  = {| Go.threshold := Go.threshold cb; Go.timeout := Go.timeout cb;
                       Go.state := Go.StateClosed;
                       Go.failureCount := Go.failureCount cb + 1;
                       Go.successCount := Go.successCount cb;
                       Go.lastFailureTime := Go.clock w1; Go.openedAt := Go.openedAt cb |}).
    { unfold Go.RecordFailure. rewrite Hst.
      destruct (Z.leb_spec (Go.threshold cb) (Go.failureCount cb + 1)); [lia | reflexivity]. }
    rewrite Hrf in Hcb.
    specialize (IH w1). rewrite (getCircuitBreaker_present _ _ _ _ Hcb) in IH.
    destruct IH as (Hex' & cb' & Hcb' & Hopen & Hat & Hto);
      [reflexivity | simpl; lia | exact Hfail |].
    split; [lia |]. exists cb'. auto.
Qed.

(** X15.  Starting from a closed breaker (or none yet) whose failure count
    is below the threshold, as many failing sends in a row as the threshold
    leaves room for trip it, and each of them reaches the network.  The send
    made right after them is refused with [CircuitBreakerOpenError] without
    an exchange, unless the breaker's timeout is negative: then [IsOpen]
    already takes the timeout for elapsed and lets that send through as a
    probe. *)
Theorem X15_threshold_failures_trip_the_breaker cfg env provider w :
  let cb := fst (Go.getCircuitBreaker cfg provider (Go.circuitBreakers w)) in
  Go.state cb = Go.StateClosed ->
  Go.failureCount cb < Go.threshold cb ->
  (forall k, failing (snd (Go.exchange env k)) = true) ->
  let n := Z.to_nat (Go.threshold cb - Go.failureCount cb) in
  let w' := sendRepeatedly cfg env provider n w in
  Go.exchanged w' = (Go.exchanged w + n)%nat
  /\ (0 <= Go.timeout cb ->
      fst (Go.SendRequest cfg env provider w') = inr (Go.CircuitBreakerOpenError provider)
      /\ Go.exchanged (snd (Go.SendRequest cfg env provider w')) = Go.exchanged w')
  /\ (Go.timeout cb < 0 ->
      (forall p, fst (Go.SendRequest cfg env provider w')
                 <> inr (Go.CircuitBreakerOpenError p))
      /\ Go.exchanged (snd (Go.SendRequest cfg env provider w')) = S (Go.exchanged w')).
Proof.
  intros cb Hst Hcount Hfail n w'.
  destruct n as [| m] eqn:Hn; [lia |].
  destruct (sendRepeatedly_trips cfg env provider m w Hst) as (Hex & cb' & Hcb' & Hopen & Hat & Hto');
    [fold cb; lia | exact Hfail |].
  fold w' in Hex, Hcb', Hat. split; [exact Hex |].
  pose proof (SendRequest_breaker cfg env provider w') as H. simpl in H.
  rewrite (getCircuitBreaker_present _ _ _ _ Hcb') in H.
  unfold Go.IsOpen in H. rewrite Hopen, Hat, Z.sub_diag in H.
  fold cb in Hto'.
  destruct (Go.SendRequest cfg env provider w') as [res w''].
  destruct (Go.exchange env (Go.exchanged w')) as [dt x].
  destruct (Z.ltb_spec (Go.timeout cb') 0) as [Hneg | Hpos].
  - destruct H as (_ & Hres & _ & Hex'' & _).
    split; [intros Hto; lia |]. intros _. simpl. auto.
  - destruct H as (_ & -> & _ & Hex'' & _).
    split; [intros _; simpl; auto | intros Hto; lia].
Qed.

(** X15 (instance).  Five sends to openai on an idle demo gateway whose
    upstream answers 503. *)
Lemma X15_threshold_failures_witness :
  Go.exchanged (sendRepeatedly demoConfig alwaysUnavailable "openai" 5 idleGateway) = 5%nat
  /\ fst (Go.SendRequest demoConfig alwaysUnavailable "openai"
            (sendRepeatedly demoConfig alwaysUnavailable "openai" 5 idleGateway))
     = inr (Go.CircuitBreakerOpenError "openai").
Proof.
  assert (H1 : Go.state (fst (Go.getCircuitBreaker demoConfig "openai"
                                (Go.circuitBreakers idleGateway))) = Go.StateClosed)
    by reflexivity.
  assert (H2 : Go.failureCount (fst (Go.getCircuitBreaker demoConfig "openai"
                                       (Go.circuitBreakers idleGateway)))
               < Go.threshold (fst (Go.getCircuitBreaker demoConfig "openai"
                                      (Go.circuitBreakers idleGateway))))
    by (change (0 < 5); lia).
  assert (H3 : 0 <= Go.timeout (fst (Go.getCircuitBreaker demoConfig "openai"
                                       (Go.circuitBreakers idleGateway))))
    by (change (0 <= 30000000000); lia).
  assert (H4 : forall k, failing (snd (Go.exchange alwaysUnavailable k)) = true)
    by (intros k; reflexivity).
  destruct (X15_threshold_failures_trip_the_breaker demoConfig alwaysUnavailable "openai"
              idleGateway H1 H2 H4) as (Hex & Hrefused & _).
  split; [exact Hex | exact (proj1 (Hrefused H3))].
Defined.

Lemma SelectProvider_switches r req k previous :
  k <> 1 ->
  (exists q1 q2, q1 ∈ eligibleFor r req /\ q2 ∈ eligibleFor r req /\ q1 <> q2) ->
  forall p, Go.SelectProvider r req k previous = inl p -> p <> previous.
Proof.
  intros Hk (q1 & q2 & H1 & H2 & Hne) p. unfold Go.SelectProvider, eligibleFor in *.
  destruct (default [] (Go.modelToProvider r !! Go.Model req)) as [| first rest];
    [discriminate |].
  destruct (Z.eqb_spec k 1); [contradiction |].
  destruct (List.find _ _) as [q |] eqn:Hf.
  - apply List.find_some in Hf as [_ Hq]. intros [= <-].
    now apply negb_true_iff, String.eqb_neq in Hq.
  - exfalso.
    pose proof (List.find_none _ _ Hf q1) as Hq1.
    pose proof (List.find_none _ _ Hf q2) as Hq2.
    rewrite negb_false_iff, String.eqb_eq in Hq1, Hq2.
    apply Hne. rewrite Hq1, Hq2; [reflexivity | |]; now apply list_elem_of_In.
Qed.

Lemma attemptLoop_alternates cfg env r req n :
  (exists q1 q2, q1 ∈ eligibleFor r req /\ q2 ∈ eligibleFor r req /\ q1 <> q2) ->
  forall k lastProvider lastError attempts w res attempts' w',
  1 <= k ->
  Go.attemptLoop cfg env r req n k lastProvider lastError attempts w = (res, attempts', w') ->
  exists new,
    attempts' = attempts ++ new
    /\ (forall a, head new = Some a -> k <> 1 -> Go.AttemptProvider a <> lastProvider)
    /\ (forall i a b, new !! i = Some a -> new !! (S i) = Some b ->
          Go.AttemptProvider b <> Go.AttemptProvider a).
Proof.
  intros Htwo. induction n as [| n IH];
    intros k lastProvider lastError attempts w res attempts' w' Hk; simpl.
  - intros [= <- <- <-]. exists []. rewrite app_nil_r.
    split; [reflexivity |]. split; [intros a; discriminate | intros i a b; discriminate].
  - destruct (Go.SelectProvider r req k lastProvider) as [provider | err] eqn:Hsel.
    2:{ intros [= <- <- <-]. exists []. rewrite app_nil_r.
        split; [reflexivity |]. split; [intros a; discriminate | intros i a b; discriminate]. }
    pose proof (executeAttempt_record cfg env r k provider w) as Hrec.
    destruct (Go.executeAttempt cfg env r k provider w) as [[a res1] w1].
    destruct Hrec as (Hnum & Hprov & Hst & Hex & Hwt).
    assert (Hhead : forall b, head [a] = Some b -> k <> 1 ->
              Go.AttemptProvider b <> lastProvider).
    { intros b [= <-] Hk1. rewrite Hprov.
      now apply (SelectProvider_switches r req k lastProvider Hk1 Htwo). }
    assert (Hsingle : exists new, attempts ++ [a] = attempts ++ new
              /\ (forall b, head new = Some b -> k <> 1 ->
                    Go.AttemptProvider b <> lastProvider)
              /\ (forall i b c, new !! i = Some b -> new !! (S i) = Some c ->
                    Go.AttemptProvider c <> Go.AttemptProvider b)).
    { exists [a]. split; [reflexivity |]. split; [exact Hhead |].
      intros i b c _ Hc. discriminate. }
    destruct res1 as [response | err]; [intros [= <- <- <-]; exact Hsingle |].
    destruct (negb (Go.isRetryable err)) eqn:Hretry; [intros [= <- <- <-]; exact Hsingle |].
    destruct (Go.MaxRetries (Go.Retry cfg) <=? k); [intros [= <- <- <-]; exact Hsingle |].
    destruct (Go.ctxDone env (Go.waited w1)); [intros [= <- <- <-]; exact Hsingle |].
    clear Hsingle. intros Hloop.
    apply IH in Hloop as (new & -> & Hnext & Hadj); [| lia].
    exists (a :: new). rewrite <- app_assoc.
    split; [reflexivity |]. split; [exact Hhead |].
    intros [| i] b c; simpl.
    + intros [= <-] Hc.
      assert (Hc' : head new = Some c) by (now destruct new).
      rewrite Hprov. apply (Hnext c Hc'). lia.
    + intros Hb Hc. exact (Hadj i b c Hb Hc).
Qed.

(** X16.  When at least two providers serve the model, no two consecutive
    attempts of [ExecuteRequest] go to the same provider. *)
Theorem X16_retries_alternate_providers cfg env r req w :
  (exists q1 q2, q1 ∈ eligibleFor r req /\ q2 ∈ eligibleFor r req /\ q1 <> q2) ->
  let attempts := snd (fst (Go.ExecuteRequest cfg env r req w)) in
  forall i a b, attempts !! i = Some a -> attempts !! (S i) = Some b ->
    Go.AttemptProvider b <> Go.AttemptProvider a.
Proof.
  intros Htwo attempts i a b Ha Hb. subst attempts. unfold Go.ExecuteRequest in *.
  destruct (Go.attemptLoop _ _ _ _ _ _ _ _ _ _) as [[res attempts] w'] eqn:Hloop.
  apply (attemptLoop_alternates _ _ _ _ _ Htwo) in Hloop as (new & -> & _ & Hadj); [| lia].
  simpl in *. exact (Hadj i a b Ha Hb).
Qed.

(** X16 (instance).  The demo gateway with an upstream that answers 503:
    the first attempt goes to openai, the second to another provider. *)
Lemma X16_retries_alternate_witness :
  exists a b,
    snd (fst (Go.ExecuteRequest demoConfig alwaysUnavailable demoRouter gpt4Request idleGateway))
      !! 0%nat = Some a
    /\ snd (fst (Go.ExecuteRequest demoConfig alwaysUnavailable demoRouter gpt4Request
                   idleGateway)) !! 1%nat = Some b
    /\ Go.AttemptProvider a = "openai"%string
    /\ Go.AttemptProvider b <> Go.AttemptProvider a.
Proof.
  assert (Htwo : exists q1 q2, q1 ∈ eligibleFor demoRouter gpt4Request
                               /\ q2 ∈ eligibleFor demoRouter gpt4Request /\ q1 <> q2).
  { exists "openai"%string, "anthropic"%string.
    split; [vm_compute; repeat constructor |].
    split; [vm_compute; repeat constructor | discriminate]. }
  eexists. eexists.
  split; [vm_compute; reflexivity |].
  split; [vm_compute; reflexivity |].
  split; [reflexivity |].
  refine (X16_retries_alternate_providers demoConfig alwaysUnavailable
            demoRouter gpt4Request idleGateway Htwo 0 _ _ _ _);
    vm_compute; reflexivity.
Defined.

Lemma executeAttempt_error cfg env r k provider w :
  let '(a, res, w1) := Go.executeAttempt cfg env r k provider w in
  forall e, res = inr e -> Go.isRetryable e = true -> Go.ErrorType a = Go.typeName e.
Proof.
  unfold Go.executeAttempt.
  destruct (Go.GetProviderConfig r provider); [| intros e [= <-]; discriminate].
  destruct (negb _); [intros e [= <-]; discriminate |].
  destruct (Go.SendRequest cfg env provider w) as [[[[content tokens] |] | err] w1];
    intros e [= <-]; try discriminate. reflexivity.
Qed.

Lemma attemptLoop_errors cfg env r req n :
  forall k lastProvider lastError attempts w res attempts' w',
  Go.attemptLoop cfg env r req n k lastProvider lastError attempts w = (res, attempts', w') ->
  exists new,
    attempts' = attempts ++ new
    /\ (forall i a, new !! i = Some a -> (S i < length new)%nat ->
          exists e, Go.isRetryable e = true /\ Go.ErrorType a = Go.typeName e)
    /\ match res with
       | inl _ => True
       | inr (Go.Err e) => Go.isRetryable e = false
       | inr Go.CtxErr => exists a, last new = Some a /\ Go.Status a = Go.failed
       | inr (Go.MaxRetriesExceededError _ le) =>
           match last new with
           | None => le = lastError /\ n = O
           | Some a => exists e, le = Some e /\ Go.isRetryable e = true
                                 /\ Go.ErrorType a = Go.typeName e
           end
       end.
Proof.
  induction n as [| n IH]; intros k lastProvider lastError attempts w res attempts' w'; simpl.
  - intros [= <- <- <-]. exists []. rewrite app_nil_r.
    split; [reflexivity |]. split; [intros i a; discriminate | simpl; auto].
  - destruct (Go.SelectProvider r req k lastProvider) as [provider | err] eqn:Hsel.
    2:{ intros [= <- <- <-]. exists []. rewrite app_nil_r.
        split; [reflexivity |]. split; [intros i a; discriminate |].
        unfold Go.SelectProvider in Hsel.
        destruct (default [] (Go.modelToProvider r !! Go.Model req)).
        - now injection Hsel as <-.
        - destruct (k =? 1); [destruct (_ && _) |]; try discriminate.
          destruct (List.find _ _); discriminate. }
    pose proof (executeAttempt_record cfg env r k provider w) as Hrec.
    pose proof (executeAttempt_error cfg env r k provider w) as Herr.
    destruct (Go.executeAttempt cfg env r k provider w) as [[a res1] w1].
    destruct Hrec as (_ & _ & Hst & _).
    assert (Hone : forall i b, [a] !! i = Some b -> (S i < length [a])%nat ->
              exists e, Go.isRetryable e = true /\ Go.ErrorType b = Go.typeName e).
    { intros i b _ Hlt. simpl in Hlt. lia. }
    destruct res1 as [response | err].
    { intros [= <- <- <-]. exists [a]. auto. }
    destruct (Go.isRetryable err) eqn:Hretry; simpl.
    2:{ intros [= <- <- <-]. exists [a]. auto. }
    destruct (Go.MaxRetries (Go.Retry cfg) <=? k).
    { intros [= <- <- <-]. exists [a]. split; [reflexivity |]. split; [exact Hone |].
      simpl. exists err. auto. }
    destruct (Go.ctxDone env (Go.waited w1)).
    { intros [= <- <- <-]. exists [a]. split; [reflexivity |]. split; [exact Hone |].
      exists a. auto. }
    intros Hloop. apply IH in Hloop as (new & -> & Hprev & Hres).
    exists (a :: new). rewrite <- app_assoc.
    split; [reflexivity |]. split.
    { intros [| i] b; simpl.
      - intros [= <-] _. exists err. auto.
      - intros Hb Hlt. apply (Hprev i b Hb). lia. }
    destruct res as [resp | [e | | m le]]; try exact Hres.
    + destruct Hres as (b & Hb & Hbs). exists b. split; [| exact Hbs].
      destruct new; [discriminate | exact Hb].
    + destruct new as [| c new].
      * simpl in *. destruct Hres as [-> _]. exists err. auto.
      * change (last (a :: c :: new)) with (last (c :: new)).
        destruct (proj2 (last_is_Some (c :: new))) as [d Hd]; [discriminate |].
        rewrite Hd in *. exact Hres.
Qed.

(** X17.  [ExecuteRequest] retries retryable errors only: every attempt but
    the last records the type of a retryable error; an error returned as it
    is (not wrapped) is not retryable; and the last error inside
    [MaxRetriesExceededError] is the retryable error of the last attempt, or
    absent when [MaxRetries] is not positive and nothing was attempted. *)
Theorem X17_only_retryable_errors_are_retried cfg env r req w :
  let '(res, attempts, w') := Go.ExecuteRequest cfg env r req w in
  (forall i a, attempts !! i = Some a -> (S i < length attempts)%nat ->
     exists e, Go.isRetryable e = true /\ Go.ErrorType a = Go.typeName e)
  /\ (forall e, res = inr (Go.Err e) -> Go.isRetryable e = false)
  /\ (forall m le, res = inr (Go.MaxRetriesExceededError m le) ->
        match le with
        | None => Go.MaxRetries (Go.Retry cfg) <= 0 /\ attempts = []
        | Some e => Go.isRetryable e = true
                    /\ exists a, last attempts = Some a /\ Go.ErrorType a = Go.typeName e
        end).
Proof.
  unfold Go.ExecuteRequest.
  destruct (Go.attemptLoop _ _ _ _ _ _ _ _ _ _) as [[res attempts] w'] eqn:Hloop.
  apply attemptLoop_errors in Hloop as (new & -> & Hprev & Hres). simpl.
  split; [exact Hprev |]. split.
  - intros e ->. exact Hres.
  - intros m le ->. destruct (last new) as [a |] eqn:Hlast.
    + destruct Hres as (e & -> & He & Ha). split; [exact He |]. exists a. auto.
    + destruct Hres as [-> Hn]. split; [lia |].
      destruct new as [| a new] using rev_ind; [reflexivity |].
      now rewrite last_snoc in Hlast.
Qed.

(** ** Stream relay: buffering *)

Lemma string_cons_app c (l r : string) : (String c l ++ r)%string = String c (l ++ r)%string.
Proof. reflexivity. Qed.

Lemma splitLines_join (s : string) :
  let '(lines, last) := Stream.splitLines s in
  joinLines lines last = s /\ Forall (fun l => hasNewline l = false) lines
  /\ hasNewline last = false.
Proof.
  induction s as [| c rest IH]; simpl; [auto |].
  destruct (Stream.splitLines rest) as [lines last].
  destruct IH as (Hjoin & Hlines & Hlast).
  destruct (Ascii.eqb c (Ascii.ascii_of_nat 10)) eqn:Hc.
  - apply Ascii.eqb_eq in Hc. subst c. simpl. rewrite Hjoin. auto.
  - destruct lines as [| l ls]; simpl in *.
    + subst rest. rewrite Hc, Hlast. auto.
    + rewrite string_cons_app, Hjoin. split; [reflexivity |].
      inversion Hlines as [| ? ? Hl Hls]; subst.
      split; [| exact Hlast]. constructor; [| exact Hls]. simpl. now rewrite Hc, Hl.
Qed.

Lemma splitLines_no_newline (s : string) :
  hasNewline s = false -> Stream.splitLines s = ([], s).
Proof.
  induction s as [| c rest IH]; simpl; [reflexivity |].
  intros H. apply orb_false_iff in H as [Hc Hrest]. rewrite (IH Hrest), Hc. reflexivity.
Qed.

Lemma splitLines_app (x y : string) :
  Stream.splitLines (x ++ y)
  = let '(lx, lastx) := Stream.splitLines x in
    let '(ly, lasty) := Stream.splitLines (lastx ++ y) in
    (lx ++ ly, lasty).
Proof.
  induction x as [| c x IH].
  - simpl. change (("" ++ y)%string) with y. now destruct (Stream.splitLines y).
  - rewrite string_cons_app. simpl. rewrite IH.
    destruct (Stream.splitLines x) as [lx lastx].
    destruct (Ascii.eqb c (Ascii.ascii_of_nat 10)) eqn:Hc.
    + destruct (Stream.splitLines (lastx ++ y)) as [ly lasty]. reflexivity.
    + destruct lx as [| l ls].
      * rewrite string_cons_app. simpl.
        destruct (Stream.splitLines (lastx ++ y)) as [ly lasty]. rewrite Hc.
        now destruct ly.
      * destruct (Stream.splitLines (lastx ++ y)) as [ly lasty]. reflexivity.
Qed.

(** X18.  Splitting the buffered text at newlines loses nothing: the
    complete lines and the kept remainder, joined by newlines, are the buffer
    followed by the new text; no line and no remainder contains a newline;
    and text without a newline yields no line at all, it only extends the
    remainder. *)
Theorem X18_split_loses_nothing (buffer text : string) :
  hasNewline buffer = false ->
  let '(lines, last) := Stream.splitLines (buffer ++ text) in
  joinLines lines last = (buffer ++ text)%string
  /\ Forall (fun l => hasNewline l = false) lines
  /\ hasNewline last = false
  /\ (hasNewline text = false -> lines = [] /\ last = (buffer ++ text)%string).
Proof.
  intros Hbuf.
  pose proof (splitLines_join (buffer ++ text)) as H.
  destruct (Stream.splitLines (buffer ++ text)) as [lines last] eqn:Hsplit.
  destruct H as (Hjoin & Hlines & Hlast).
  split; [exact Hjoin |]. split; [exact Hlines |]. split; [exact Hlast |].
  intros Htext.
  assert (Hall : hasNewline (buffer ++ text) = false).
  { clear -Hbuf Htext. induction buffer as [| c b IH]; [exact Htext |].
    rewrite string_cons_app. simpl in *. apply orb_false_iff in Hbuf as [-> Hb].
    now apply IH. }
  rewrite (splitLines_no_newline _ Hall) in Hsplit. now injection Hsplit as <- <-.
Qed.

(** X18 (instance).  A buffered half line completed by the next text. *)
Lemma X18_split_witness :
  hasNewline "data: chu" = false
  /\ (let '(lines, last) :=
         Stream.splitLines ("data: chu" ++ "nk-1" ++ newline ++ "data: ch") in
       joinLines lines last = ("data: chu" ++ "nk-1" ++ newline ++ "data: ch")%string
       /\ hasNewline last = false).
Proof.
  assert (H : hasNewline "data: chu" = false) by reflexivity.
  split; [exact H |].
  pose proof (X18_split_loses_nothing "data: chu" ("nk-1" ++ newline ++ "data: ch") H) as Hs.
  destruct (Stream.splitLines ("data: chu" ++ "nk-1" ++ newline ++ "data: ch"))
    as [lines last].
  split; [exact (proj1 Hs) | exact (proj1 (proj2 (proj2 Hs)))].
Defined.

Section StreamChunking.

Variable parse : string -> option Stream.Json.
Variable numberToString : Q -> string.

#[local] Abbreviation processData := (Stream.processData parse numberToString).
#[local] Abbreviation processLine := (Stream.processLine parse numberToString).
#[local] Abbreviation processLines := (Stream.processLines parse numberToString).
#[local] Abbreviation onRead := (Stream.onRead parse numberToString).
#[local] Abbreviation readLoop := (Stream.readLoop parse numberToString).
#[local] Abbreviation streamRequest := (Stream.streamRequest parse numberToString).

Lemma processLine_withBuffer b line st :
  processLine line (withBuffer b st) = withBuffer b (processLine line st).
Proof.
  unfold Stream.processLine. destruct (String.prefix "data: " line); [| reflexivity].
  unfold Stream.processData.
  destruct (String.eqb _ "[DONE]"); [reflexivity |].
  destruct (parse _) as [parsed |]; [| reflexivity].
  destruct (Stream.contentDelta parsed) as [content |]; [| reflexivity].
  destruct (Stream.truthy content); [| reflexivity].
  now destruct (content ≫= Stream.coerce numberToString).
Qed.

Lemma processLines_withBuffer b lines st :
  processLines lines (withBuffer b st) = withBuffer b (processLines lines st).
Proof.
  revert st. induction lines as [| line rest IH]; intros st; simpl; [reflexivity |].
  rewrite processLine_withBuffer. simpl.
  destruct (Stream.status (processLine line st)); auto.
Qed.

Lemma processLines_app l1 l2 st :
  Stream.status st = Stream.Active ->
  processLines (l1 ++ l2) st
  = match Stream.status (processLines l1 st) with
    | Stream.Active => processLines l2 (processLines l1 st)
    | _ => processLines l1 st
    end.
Proof.
  revert st. induction l1 as [| line rest IH]; intros st Hact; simpl.
  - now rewrite Hact.
  - destruct (Stream.status (processLine line st)) eqn:Hs; try (now rewrite Hs).
    now apply IH.
Qed.

Lemma withBuffer_withBuffer b b' st : withBuffer b (withBuffer b' st) = withBuffer b st.
Proof. reflexivity. Qed.

Lemma observe_withBuffer b st : observe (withBuffer b st) = observe st.
Proof. reflexivity. Qed.

Lemma onRead_text text st :
  onRead (Stream.ReadText text) st
  = let '(lines, last) := Stream.splitLines (Stream.buffer st ++ text) in
    withBuffer last (processLines lines st).
Proof.
  simpl. destruct (Stream.splitLines _) as [lines last].
  now rewrite <- processLines_withBuffer.
Qed.

Lemma buffer_withBuffer_processLines b lines st :
  Stream.buffer (withBuffer b (processLines lines st)) = b.
Proof. reflexivity. Qed.

Lemma two_reads a b st :
  Stream.status st = Stream.Active ->
  let split := readLoop [Stream.ReadText a; Stream.ReadText b] st in
  let joined := readLoop [Stream.ReadText (a ++ b)] st in
  observe split = observe joined
  /\ (Stream.status joined = Stream.Active -> Stream.buffer split = Stream.buffer joined).
Proof.
  intros Hact. cbv zeta.
  change (readLoop [Stream.ReadText (a ++ b)] st)
    with (match Stream.status (onRead (Stream.ReadText (a ++ b)) st) with
          | Stream.Active => onRead (Stream.ReadText (a ++ b)) st
          | _ => onRead (Stream.ReadText (a ++ b)) st
          end).
  change (readLoop [Stream.ReadText a; Stream.ReadText b] st)
    with (match Stream.status (onRead (Stream.ReadText a) st) with
          | Stream.Active =>
              match Stream.status (onRead (Stream.ReadText b) (onRead (Stream.ReadText a) st)) with
              | Stream.Active => onRead (Stream.ReadText b) (onRead (Stream.ReadText a) st)
              | _ => onRead (Stream.ReadText b) (onRead (Stream.ReadText a) st)
              end
          | _ => onRead (Stream.ReadText a) st
          end).
  assert (Hsame : forall x : Stream.Relay,
            match Stream.status x with Stream.Active => x | _ => x end = x)
    by (intros x; now destruct (Stream.status x)).
  rewrite !Hsame.
  rewrite (onRead_text (a ++ b)), (onRead_text a).
  rewrite <- string_app_assoc, (splitLines_app (Stream.buffer st ++ a) b).
  destruct (Stream.splitLines (Stream.buffer st ++ a)) as [la lasta].
  rewrite onRead_text. simpl Stream.buffer.
  destruct (Stream.splitLines (lasta ++ b)) as [lb lastb].
  rewrite processLines_withBuffer, withBuffer_withBuffer.
  rewrite (processLines_app la lb st Hact).
  simpl Stream.status.
  destruct (Stream.status (processLines la st)) eqn:Hs; simpl; auto;
    unfold observe; simpl; rewrite Hs; split; try reflexivity; discriminate.
Qed.

Lemma readLoop_cons r rest st :
  readLoop (r :: rest) st
  = match Stream.status (onRead r st) with
    | Stream.Active => readLoop rest (onRead r st)
    | _ => onRead r st
    end.
Proof. reflexivity. Qed.

Lemma observe_status x y : observe x = observe y -> Stream.status x = Stream.status y.
Proof. unfold observe. now intros [= _ _ H]. Qed.

Lemma readLoop_texts_joined (texts : list string) (st : Stream.Relay) :
  texts <> [] ->
  Stream.status st = Stream.Active ->
  let split := readLoop (Stream.ReadText <$> texts) st in
  let joined := readLoop [Stream.ReadText (joinAll texts)] st in
  observe split = observe joined
  /\ (Stream.status joined = Stream.Active -> Stream.buffer split = Stream.buffer joined).
Proof.
  revert st. induction texts as [| t rest IH]; intros st Hne Hact; [contradiction |].
  destruct rest as [| t' rest'].
  { cbv zeta. simpl joinAll. rewrite string_app_nil_r. auto. }
  cbv zeta.
  pose proof (two_reads t (joinAll (t' :: rest')) st Hact) as [Hobs Hbuf].
  change (joinAll (t :: t' :: rest')) with (t ++ joinAll (t' :: rest'))%string.
  change (Stream.ReadText <$> t :: t' :: rest')
    with (Stream.ReadText t :: (Stream.ReadText <$> t' :: rest')).
  rewrite (readLoop_cons (Stream.ReadText t) [Stream.ReadText (joinAll (t' :: rest'))])
    in Hobs, Hbuf.
  rewrite (readLoop_cons (Stream.ReadText t) (Stream.ReadText <$> t' :: rest')).
  set (st1 := onRead (Stream.ReadText t) st) in *.
  set (joined := readLoop [Stream.ReadText (t ++ joinAll (t' :: rest'))] st) in *.
  destruct (Stream.status st1) eqn:Hs;
    try (split; [exact Hobs |];
         intros Hj; apply observe_status in Hobs; congruence).
  destruct (IH st1) as [Hobs' Hbuf']; [discriminate | exact Hs |].
  split; [now rewrite Hobs' |].
  intros Hj. rewrite <- (Hbuf Hj). apply Hbuf'.
  apply observe_status in Hobs. congruence.
Qed.

(** X19.  The callbacks, the partial content and the final status of the
    relay depend on the text the reads deliver, not on where the network
    cuts it: delivering the pieces one by one gives the same as delivering
    their concatenation in one read (and the same buffer, if the stream has
    not ended). *)
Theorem X19_reads_may_be_split_anywhere (texts : list string) (st : Stream.Relay) :
  texts <> [] ->
  Stream.status st = Stream.Active ->
  let split := readLoop (Stream.ReadText <$> texts) st in
  let joined := readLoop [Stream.ReadText (joinAll texts)] st in
  observe split = observe joined
  /\ (Stream.status joined = Stream.Active -> Stream.buffer split = Stream.buffer joined).
Proof. apply readLoop_texts_joined. Qed.

(** *** Termination *)

Lemma processData_extends data st :
  Stream.emitted st `prefix_of` Stream.emitted (processData data st).
Proof.
  unfold Stream.processData.
  destruct (String.eqb data "[DONE]"); [now apply prefix_app_r |].
  destruct (parse data) as [parsed |]; [| now apply prefix_app_r].
  destruct (Stream.contentDelta parsed) as [content |]; [| now apply prefix_app_r].
  destruct (Stream.truthy content); [| reflexivity].
  destruct (content ≫= Stream.coerce numberToString); now apply prefix_app_r.
Qed.

Lemma processLines_extends lines st :
  Stream.emitted st `prefix_of` Stream.emitted (processLines lines st).
Proof.
  revert st. induction lines as [| line rest IH]; intros st; simpl; [reflexivity |].
  assert (Hline : Stream.emitted st `prefix_of` Stream.emitted (processLine line st)).
  { unfold Stream.processLine. destruct (String.prefix "data: " line); [| reflexivity].
    apply processData_extends. }
  destruct (Stream.status (processLine line st)); try exact Hline.
  etransitivity; [exact Hline | apply IH].
Qed.

Lemma onRead_extends r st :
  Stream.emitted st `prefix_of` Stream.emitted (onRead r st).
Proof.
  destruct r as [text | | |]; try (now apply prefix_app_r).
  rewrite onRead_text. destruct (Stream.splitLines _) as [lines last].
  apply processLines_extends.
Qed.

Lemma readLoop_extends reads st :
  Stream.emitted st `prefix_of` Stream.emitted (readLoop reads st).
Proof.
  revert st. induction reads as [| r rest IH]; intros st; [reflexivity |].
  rewrite readLoop_cons.
  destruct (Stream.status (onRead r st)); try apply onRead_extends.
  etransitivity; [apply onRead_extends | apply IH].
Qed.

Lemma readLoop_app reads more st :
  Stream.status st = Stream.Active ->
  readLoop (reads ++ more) st
  = match Stream.status (readLoop reads st) with
    | Stream.Active => readLoop more (readLoop reads st)
    | _ => readLoop reads st
    end.
Proof.
  revert st. induction reads as [| r rest IH]; intros st Hact.
  - simpl. now rewrite Hact.
  - change ((r :: rest) ++ more) with (r :: (rest ++ more)). rewrite !readLoop_cons.
    destruct (Stream.status (onRead r st)) eqn:Hs; try (now rewrite Hs).
    now apply IH.
Qed.

Lemma streamRequest_more (c : Stream.Connection) (reads more : list Stream.Read) :
  let st := streamRequest c reads in
  Stream.emitted st `prefix_of` Stream.emitted (streamRequest c (reads ++ more))
  /\ (Stream.status st <> Stream.Active -> streamRequest c (reads ++ more) = st).
Proof.
  unfold Stream.streamRequest.
  destruct c as [| status hasBody]; [split; reflexivity |].
  destruct (negb _); [split; reflexivity |].
  destruct (negb hasBody); [split; reflexivity |].
  rewrite readLoop_app by reflexivity.
  destruct (Stream.status (readLoop reads Stream.initial)) eqn:Hs;
    try (split; [reflexivity | reflexivity]).
  split; [apply readLoop_extends | intros H; now destruct H].
Qed.

(** X20.  Callbacks already made are never taken back by further reads, and
    once the relay has ended (completed, stalled, malformed or broken)
    further reads change nothing at all. *)
Theorem X20_an_ended_stream_reads_no_further (c : Stream.Connection)
  (reads more : list Stream.Read) :
  let st := streamRequest c reads in
  Stream.emitted st `prefix_of` Stream.emitted (streamRequest c (reads ++ more))
  /\ (Stream.status st <> Stream.Active -> streamRequest c (reads ++ more) = st).
Proof. apply streamRequest_more. Qed.

End StreamChunking.

(** X19 (instance).  One event delivered in two reads. *)
Lemma X19_reads_split_witness :
  observe (Stream.readLoop sampleParse noNumbers
             [Stream.ReadText "data: chu"; Stream.ReadText ("nk-1" ++ newline)] Stream.initial)
  = observe (Stream.readLoop sampleParse noNumbers
               [Stream.ReadText ("data: chu" ++ "nk-1" ++ newline)] Stream.initial).
Proof.
  refine (proj1 (X19_reads_may_be_split_anywhere sampleParse noNumbers
                   ["data: chu"; "nk-1" ++ newline]%string Stream.initial _ eq_refl)).
  discriminate.
Defined.

Section StreamOutcome.

Variable parse : string -> option Stream.Json.
Variable numberToString : Q -> string.

#[local] Abbreviation processData := (Stream.processData parse numberToString).
#[local] Abbreviation processLine := (Stream.processLine parse numberToString).
#[local] Abbreviation processLines := (Stream.processLines parse numberToString).
#[local] Abbreviation onRead := (Stream.onRead parse numberToString).
#[local] Abbreviation readLoop := (Stream.readLoop parse numberToString).
#[local] Abbreviation streamRequest := (Stream.streamRequest parse numberToString).

Lemma processData_closed broken data st :
  Stream.status st = Stream.Active -> Ended broken (processData data st).
Proof.
  intros Hact. unfold Ended, Stream.processData, terminal.
  destruct (String.eqb data "[DONE]");
    [simpl; intros _; eexists; split; [reflexivity | apply last_snoc] |].
  destruct (parse data) as [parsed |];
    [| simpl; intros _; eexists; split; [reflexivity | apply last_snoc]].
  destruct (Stream.contentDelta parsed) as [content |];
    [| simpl; intros _; eexists; split; [reflexivity | apply last_snoc]].
  destruct (Stream.truthy content); simpl; [| rewrite Hact; intros H; now destruct H].
  destruct (content ≫= Stream.coerce numberToString); simpl;
    [intros H; now destruct H | intros _; eexists; split; [reflexivity | apply last_snoc]].
Qed.

Lemma processLines_closed broken lines st :
  Stream.status st = Stream.Active -> Ended broken (processLines lines st).
Proof.
  revert st. induction lines as [| line rest IH]; intros st Hact; simpl.
  - intros H. contradiction.
  - assert (Hline : Ended broken (processLine line st)).
    { unfold Stream.processLine. destruct (String.prefix "data: " line).
      - now apply processData_closed.
      - intros H. contradiction. }
    destruct (Stream.status (processLine line st)) eqn:Hs; try exact Hline.
    now apply IH.
Qed.

Lemma onRead_closed r st :
  Stream.status st = Stream.Active -> Ended Stream.UpstreamError (onRead r st).
Proof.
  intros Hact. destruct r as [text | | |];
    try (intros _; eexists; split; [reflexivity | apply last_snoc]).
  simpl. destruct (Stream.splitLines _) as [lines last].
  now apply processLines_closed.
Qed.

Lemma readLoop_closed reads st :
  Stream.status st = Stream.Active -> Ended Stream.UpstreamError (readLoop reads st).
Proof.
  revert st. induction reads as [| r rest IH]; intros st Hact; simpl.
  - intros H. contradiction.
  - pose proof (onRead_closed r st Hact) as Hr.
    destruct (Stream.status (onRead r st)) eqn:Hs; try exact Hr.
    now apply IH.
Qed.

Lemma streamRequest_closed c reads :
  Ended (connectionError c) (streamRequest c reads).
Proof.
  unfold Stream.streamRequest, connectionError.
  destruct c as [| status hasBody];
    [intros _; eexists; split; reflexivity |].
  destruct (negb _); [intros _; eexists; split; reflexivity |].
  destruct (negb hasBody); [intros _; eexists; split; reflexivity |].
  now apply readLoop_closed.
Qed.

(** X21.  What the relay emits is a run of chunks followed by the one
    closing callback its final status names (none while the stream is still
    active): [onDone] for a completed stream; for a stalled, malformed or
    broken one [onError] with the matching error and the partial content.
    The handler accordingly writes one upstream request, the chunks, and
    the closing event followed by the end of the response. *)
Theorem X21_handler_writes_chunks_then_one_closing_event (providerUrl : string)
  (c : Stream.Connection) (reads : list Stream.Read) :
  let st := streamRequest c reads in
  Stream.emitted st
  = (Stream.onChunk <$> chunksOf (Stream.emitted st)) ++ terminal (connectionError c) st
  /\ Stream.streamingHandler parse numberToString providerUrl c reads
     = Stream.Upstream providerUrl
       :: (Stream.WriteChunk <$> chunksOf (Stream.emitted st))
       ++ List.concat (List.map Stream.relay (terminal (connectionError c) st)).
Proof.
  intros st.
  destruct (streamRequest_sound parse numberToString c reads) as [_ Ha He].
  pose proof (streamRequest_closed c reads) as Hc. fold st in Ha, He, Hc.
  assert (Hem : Stream.emitted st
                = (Stream.onChunk <$> chunksOf (Stream.emitted st))
                  ++ terminal (connectionError c) st).
  { assert (Hdec : Stream.status st = Stream.Active \/ Stream.status st <> Stream.Active)
      by (destruct (Stream.status st); auto; right; discriminate).
    destruct Hdec as [Hact | Hend].
    - unfold terminal. rewrite Hact, app_nil_r.
      symmetry. apply chunksOf_all_chunks. auto.
    - destruct (He Hend) as (chunks & final & Hst & Hchunks & Hfinal & _).
      destruct (Hc Hend) as (cb & Hterm & Hlast).
      rewrite Hst, last_snoc in Hlast. injection Hlast as ->.
      rewrite Hterm, Hst, chunksOf_app.
      assert (Hcb : chunksOf [cb] = []) by (destruct cb; simpl in *; tauto).
      rewrite Hcb, app_nil_r.
      change (Stream.onChunk <$> chunksOf chunks)
        with (List.map Stream.onChunk (chunksOf chunks)).
      now rewrite chunksOf_all_chunks. }
  split; [exact Hem |].
  unfold Stream.streamingHandler. fold st. rewrite Hem at 1.
  rewrite List.map_app, List.concat_app.
  change (List.map Stream.relay (Stream.onChunk <$> chunksOf (Stream.emitted st)))
    with (List.map Stream.relay (List.map Stream.onChunk (chunksOf (Stream.emitted st)))).
  rewrite relay_chunks. reflexivity.
Qed.

(** *** A complete stream *)

Lemma splitLines_line (l rest : string) :
  hasNewline l = false ->
  Stream.splitLines (l ++ newline ++ rest)
  = let '(lines, last) := Stream.splitLines rest in (l :: lines, last).
Proof.
  intros Hl. induction l as [| c l IH].
  - change (Stream.splitLines (String (Ascii.ascii_of_nat 10) rest)
            = let '(lines, last) := Stream.splitLines rest in ("" :: lines, last)%string).
    simpl. now destruct (Stream.splitLines rest).
  - simpl in Hl. apply orb_false_iff in Hl as [Hc Hl].
    rewrite string_cons_app. simpl. rewrite (IH Hl), Hc.
    now destruct (Stream.splitLines rest).
Qed.

Lemma splitLines_wire (ls : list string) (rest : string) :
  Forall (fun l => hasNewline l = false) ls ->
  Stream.splitLines (wire ls ++ rest)
  = let '(lines, last) := Stream.splitLines rest in (ls ++ lines, last).
Proof.
  induction 1 as [| l ls Hl _ IH].
  - change (Stream.splitLines rest
            = let '(lines, last) := Stream.splitLines rest in (lines, last)).
    now destruct (Stream.splitLines rest).
  - change (Stream.splitLines (((l ++ newline) ++ wire ls) ++ rest)
            = let '(lines, last) := Stream.splitLines rest in (l :: ls ++ lines, last)).
    rewrite !string_app_assoc, (splitLines_line l _ Hl).
    rewrite IH. now destruct (Stream.splitLines rest).
Qed.

Lemma prefix_data (p : string) : String.prefix "data: " ("data: " ++ p) = true.
Proof. destruct p; vm_compute; reflexivity. Qed.

Lemma hasNewline_data (p : string) : hasNewline ("data: " ++ p) = hasNewline p.
Proof. reflexivity. Qed.

Lemma processLine_data (p : string) st :
  processLine ("data: " ++ p) st = processData (Stream.trim p) st.
Proof. unfold Stream.processLine. rewrite prefix_data. reflexivity. Qed.

Lemma processData_carries p s st :
  carries parse p s ->
  processData p st
  = {| Stream.buffer := Stream.buffer st;
       Stream.partialContent := (Stream.partialContent st ++ s)%string;
       Stream.emitted := Stream.emitted st ++ [Stream.onChunk p];
       Stream.status := Stream.Active |}.
Proof.
  intros (Hdone & Hs & parsed & Hparse & Hdelta).
  unfold Stream.processData.
  apply String.eqb_neq in Hdone. rewrite Hdone, Hparse, Hdelta. simpl.
  apply String.eqb_neq in Hs. now rewrite Hs.
Qed.

Lemma processData_silent p st :
  silent parse p -> processData p st = st.
Proof.
  intros (Hdone & parsed & Hparse & Hme).
  unfold Stream.processData.
  apply String.eqb_neq in Hdone. rewrite Hdone, Hparse.
  now destruct Hme as [-> | ->].
Qed.

Lemma hasNewline_lineText (ls : list SseLine) :
  Forall (wellFormed parse) ls ->
  Forall (fun l => hasNewline l = false) (lineText <$> ls).
Proof.
  induction 1 as [| l ls Hl _ IH]; [constructor |].
  change (lineText <$> l :: ls) with (lineText l :: (lineText <$> ls)).
  constructor; [| exact IH].
  destruct l as [raw delta | text]; [exact (proj1 Hl) | exact (proj1 Hl)].
Qed.

Lemma processLines_wellFormed (ls : list SseLine) (lines : list string) st :
  Forall (wellFormed parse) ls ->
  Stream.status st = Stream.Active ->
  processLines ((lineText <$> ls) ++ lines) st
  = processLines lines
      {| Stream.buffer := Stream.buffer st;
         Stream.partialContent := (Stream.partialContent st ++ joinAll (lineDeltas ls))%string;
         Stream.emitted := Stream.emitted st ++ (Stream.onChunk <$> linePayloads ls);
         Stream.status := Stream.Active |}.
Proof.
  intros Hall. revert st. induction Hall as [| l ls Hl _ IH]; intros st Hact.
  - change (joinAll (lineDeltas [])) with ""%string.
    rewrite string_app_nil_r. simpl. rewrite app_nil_r, <- Hact. now destruct st.
  - change ((lineText <$> l :: ls) ++ lines)
      with (lineText l :: ((lineText <$> ls) ++ lines)).
    cbn [Stream.processLines].
    destruct l as [raw delta | text].
    + destruct Hl as [_ Hc].
      cbn [lineText]. rewrite processLine_data, (processData_carries _ _ st Hc).
      cbn [Stream.status]. rewrite IH by reflexivity.
      cbn [Stream.buffer Stream.partialContent Stream.emitted].
      change (lineDeltas (DataLine raw delta :: ls)) with (delta :: lineDeltas ls).
      change (linePayloads (DataLine raw delta :: ls)) with (Stream.trim raw :: linePayloads ls).
      change (joinAll (delta :: lineDeltas ls)) with (delta ++ joinAll (lineDeltas ls))%string.
      now rewrite string_app_assoc, <- app_assoc.
    + assert (Hskip : processLine (lineText (OtherLine text)) st = st).
      { destruct Hl as [_ [Hp | Hs]]; cbn [lineText]; unfold Stream.processLine.
        - now rewrite Hp.
        - destruct (String.prefix "data: " text); [| reflexivity].
          now apply processData_silent. }
      rewrite Hskip, Hact. now apply IH.
Qed.

Lemma readLoop_single r st : readLoop [r] st = onRead r st.
Proof.
  rewrite readLoop_cons. now destruct (Stream.status (onRead r st)).
Qed.

(** The relay after a stream whose lines are [ls], then the line
    [data: closing], then anything, when [closing] is the end marker or does
    not parse. *)
Lemma relay_of_lines (ls : list SseLine) (closing rest : string) (texts : list string)
  (status : Z) :
  Forall (wellFormed parse) ls ->
  hasNewline closing = false ->
  Stream.trim closing = "[DONE]"%string \/ parse (Stream.trim closing) = None ->
  200 <= status <= 299 ->
  texts <> [] ->
  joinAll texts = (wire (lineText <$> ls) ++ ("data: " ++ closing) ++ newline ++ rest)%string ->
  observe (streamRequest (Stream.FetchResponse status true) (Stream.ReadText <$> texts))
  = if String.eqb (Stream.trim closing) "[DONE]"
    then ((Stream.onChunk <$> linePayloads ls) ++ [Stream.onDone],
          joinAll (lineDeltas ls), Stream.Completed)
    else ((Stream.onChunk <$> linePayloads ls)
            ++ [Stream.onError Stream.MalformedChunk (joinAll (lineDeltas ls))],
          joinAll (lineDeltas ls), Stream.Malformed).
Proof.
  intros Hall Hclosing Hends Hstatus Hne Htext.
  unfold Stream.streamRequest.
  destruct (Z.leb_spec 200 status); [| lia].
  destruct (Z.leb_spec status 299); [| lia]. simpl negb. cbv iota.
  destruct (readLoop_texts_joined parse numberToString texts Stream.initial Hne eq_refl)
    as [-> _].
  rewrite readLoop_single, onRead_text, Htext.
  change (Stream.buffer Stream.initial
          ++ wire (lineText <$> ls) ++ ("data: " ++ closing) ++ newline ++ rest)%string
    with (wire (lineText <$> ls) ++ ("data: " ++ closing) ++ newline ++ rest)%string.
  rewrite (splitLines_wire _ _ (hasNewline_lineText ls Hall)).
  rewrite splitLines_line by exact Hclosing.
  destruct (Stream.splitLines rest) as [lines last].
  rewrite observe_withBuffer, (processLines_wellFormed ls _ Stream.initial Hall eq_refl).
  cbn [Stream.processLines]. rewrite processLine_data.
  unfold Stream.processData.
  destruct (String.eqb (Stream.trim closing) "[DONE]") eqn:Hdone; [reflexivity |].
  destruct Hends as [Hd | Hp]; [apply String.eqb_neq in Hdone; contradiction |].
  rewrite Hp. reflexivity.
Qed.

(** X22.  A well-formed stream is relayed in full.  If the text delivered,
    however it is cut into reads, consists of data lines whose chunks carry a
    non-empty content delta and of lines the relay passes over (blank lines,
    other fields, chunks without content), followed by the [DONE] line, then
    the relay forwards exactly the chunks of the data lines, in order, then
    calls [onDone]; the partial content is the concatenation of their deltas.
    Whatever follows the [DONE] line is ignored. *)
Theorem X22_complete_stream_is_relayed_in_full (ls : list SseLine)
  (closing rest : string) (texts : list string) (status : Z) :
  Forall (wellFormed parse) ls ->
  hasNewline closing = false ->
  Stream.trim closing = "[DONE]"%string ->
  200 <= status <= 299 ->
  texts <> [] ->
  joinAll texts = (wire (lineText <$> ls) ++ ("data: " ++ closing) ++ newline ++ rest)%string ->
  let st := streamRequest (Stream.FetchResponse status true) (Stream.ReadText <$> texts) in
  Stream.emitted st = (Stream.onChunk <$> linePayloads ls) ++ [Stream.onDone]
  /\ Stream.partialContent st = joinAll (lineDeltas ls)
  /\ Stream.status st = Stream.Completed.
Proof.
  intros Hall Hclosing Hdone Hstatus Hne Htext st.
  pose proof (relay_of_lines ls closing rest texts status Hall Hclosing (or_introl Hdone)
                Hstatus Hne Htext) as Hobs.
  fold st in Hobs. rewrite Hdone in Hobs. unfold observe in Hobs. simpl in Hobs.
  now injection Hobs as -> -> ->.
Qed.

(** X23.  A chunk that does not parse ends the stream.  If the text
    delivered consists of well-formed lines followed by a data line whose
    payload is not the end marker and does not parse, the relay forwards the
    chunks before it, then reports [MalformedChunk] with the concatenation of
    their deltas; nothing after that line is looked at. *)
Theorem X23_unparsable_chunk_ends_the_stream (ls : list SseLine)
  (closing rest : string) (texts : list string) (status : Z) :
  Forall (wellFormed parse) ls ->
  hasNewline closing = false ->
  Stream.trim closing <> "[DONE]"%string ->
  parse (Stream.trim closing) = None ->
  200 <= status <= 299 ->
  texts <> [] ->
  joinAll texts = (wire (lineText <$> ls) ++ ("data: " ++ closing) ++ newline ++ rest)%string ->
  let st := streamRequest (Stream.FetchResponse status true) (Stream.ReadText <$> texts) in
  Stream.emitted st
  = (Stream.onChunk <$> linePayloads ls)
      ++ [Stream.onError Stream.MalformedChunk (joinAll (lineDeltas ls))]
  /\ Stream.partialContent st = joinAll (lineDeltas ls)
  /\ Stream.status st = Stream.Malformed.
Proof.
  intros Hall Hclosing Hdone Hparse Hstatus Hne Htext st.
  pose proof (relay_of_lines ls closing rest texts status Hall Hclosing (or_intror Hparse)
                Hstatus Hne Htext) as Hobs.
  fold st in Hobs. apply String.eqb_neq in Hdone. rewrite Hdone in Hobs.
  unfold observe in Hobs. now injection Hobs as -> -> ->.
Qed.

End StreamOutcome.

(** X22 (instance).  Two chunks and the end marker, cut in the middle of a
    line. *)
Lemma twoEvents_wellFormed : Forall (wellFormed sampleParse) twoEvents.
Proof.
  repeat constructor; try discriminate.
  - eexists. split; reflexivity.
  - eexists. split; reflexivity.
Qed.

Lemma X22_complete_stream_witness :
  Stream.emitted
    (Stream.streamRequest sampleParse noNumbers (Stream.FetchResponse 200 true)
       (Stream.ReadText
          <$> ["data: chunk-1" ++ newline ++ newline ++ "data: chu";
               "nk-2" ++ newline ++ "data: [DONE]" ++ newline ++ newline]%string))
  = [Stream.onChunk "chunk-1"; Stream.onChunk "chunk-2"; Stream.onDone].
Proof.
  refine (proj1 (X22_complete_stream_is_relayed_in_full sampleParse noNumbers twoEvents
                   "[DONE]" newline
                   ["data: chunk-1" ++ newline ++ newline ++ "data: chu";
                    "nk-2" ++ newline ++ "data: [DONE]" ++ newline ++ newline]%string
                   200 twoEvents_wellFormed eq_refl eq_refl _ _ _)).
  - lia.
  - discriminate.
  - reflexivity.
Defined.

(** X23 (instance).  Two chunks and a malformed event. *)
Lemma X23_unparsable_chunk_witness :
  Stream.emitted
    (Stream.streamRequest sampleParse noNumbers (Stream.FetchResponse 200 true)
       (Stream.ReadText
          <$> ["data: chunk-1" ++ newline ++ newline ++ "data: chu";
               "nk-2" ++ newline ++ "data: {broken " ++ newline ++ newline]%string))
  = [Stream.onChunk "chunk-1"; Stream.onChunk "chunk-2";
     Stream.onError Stream.MalformedChunk "Hello world"].
Proof.
  refine (proj1 (X23_unparsable_chunk_ends_the_stream sampleParse noNumbers twoEvents
                   "{broken " newline
                   ["data: chunk-1" ++ newline ++ newline ++ "data: chu";
                    "nk-2" ++ newline ++ "data: {broken " ++ newline ++ newline]%string
                   200 twoEvents_wellFormed eq_refl _ eq_refl _ _ _)).
  - discriminate.
  - lia.
  - discriminate.
  - reflexivity.
Defined.

(** ** Stream failures *)

Section StreamFailure.

Variable parse : string -> option Stream.Json.
Variable numberToString : Q -> string.

#[local] Abbreviation processData := (Stream.processData parse numberToString).
#[local] Abbreviation processLine := (Stream.processLine parse numberToString).
#[local] Abbreviation processLines := (Stream.processLines parse numberToString).
#[local] Abbreviation onRead := (Stream.onRead parse numberToString).
#[local] Abbreviation readLoop := (Stream.readLoop parse numberToString).
#[local] Abbreviation streamRequest := (Stream.streamRequest parse numberToString).
#[local] Abbreviation streamingHandler := (Stream.streamingHandler parse numberToString).
#[local] Abbreviation deltas := (forwardedDeltas parse numberToString).

(** A relay that is still reading got its response, and reads on. *)
Lemma streamRequest_active c reads :
  Stream.status (streamRequest c reads) = Stream.Active ->
  forall all, streamRequest c all = readLoop all Stream.initial.
Proof.
  unfold Stream.streamRequest. destruct c as [| status hasBody]; [discriminate |].
  destruct (negb _); [discriminate |]. destruct (negb hasBody); [discriminate |].
  reflexivity.
Qed.

Lemma processData_throws p st :
  p <> "[DONE]"%string -> throws parse numberToString p = true ->
  processData p st
  = Stream.finish st (Stream.onError Stream.MalformedChunk (Stream.partialContent st))
                  Stream.Malformed.
Proof.
  intros Hdone Hthrows. unfold Stream.processData, throws in *.
  apply String.eqb_neq in Hdone. rewrite Hdone.
  destruct (parse p) as [parsed |]; [| reflexivity].
  destruct (Stream.contentDelta parsed) as [content |]; [| reflexivity].
  destruct (content ≫= Stream.coerce numberToString); [discriminate |].
  now rewrite Hthrows.
Qed.

(** What the handler writes for a run of chunks and one error. *)
Lemma handler_of_failure providerUrl c reads chunks error partial :
  Forall isChunk chunks ->
  Stream.emitted (streamRequest c reads) = chunks ++ [Stream.onError error partial] ->
  streamingHandler providerUrl c reads
  = Stream.Upstream providerUrl
    :: (Stream.WriteChunk <$> chunksOf chunks)
    ++ [Stream.WriteError error partial; Stream.End].
Proof.
  intros Hchunks Hem. unfold Stream.streamingHandler. rewrite Hem.
  rewrite List.map_app, List.concat_app.
  change (concat (List.map Stream.relay [Stream.onError error partial]))
    with [Stream.WriteError error partial; Stream.End].
  rewrite <- (chunksOf_all_chunks chunks Hchunks) at 1.
  now rewrite relay_chunks.
Qed.

Lemma chunksOf_snoc_error cbs error partial :
  chunksOf (cbs ++ [Stream.onError error partial]) = chunksOf cbs.
Proof. rewrite chunksOf_app. simpl. apply app_nil_r. Qed.

(** C7.  Take a streaming request whose relay is still reading after the
    reads so far: what it has emitted are the forwarded chunks, and its
    partial content is the concatenation of their content deltas.

    - If the chunk timer fires next, the relay emits one more callback, the
      stall error with that partial content, and stops: later reads change
      nothing.
    - If the next read completes lines of which one is a data line whose
      payload is not the end marker and makes the [try] block throw
      ([JSON.parse] rejects it, or it has no readable or coercible content
      delta), while the lines before it leave the stream running, the relay
      forwards the chunks of those lines, then emits the malformed-chunk
      error with the concatenation of the deltas of all chunks forwarded,
      and stops: the lines after it and later reads change nothing.

    In both cases the handler's whole activity is one upstream request, the
    forwarded chunks, the error event with that partial content and the end
    of the response; no second upstream request follows, to the same
    provider or to another.  The same holds of any failure the relay
    reports, whatever preceded it. *)
Theorem C7_stream_failure_is_terminal (providerUrl : string) (c : Stream.Connection)
  (reads more : list Stream.Read) :
  let st := streamRequest c reads in
  Stream.status st = Stream.Active ->
  (Stream.emitted st = Stream.onChunk <$> chunksOf (Stream.emitted st)
   /\ Stream.partialContent st = deltas (Stream.emitted st))
  /\ (let st' := streamRequest c (reads ++ Stream.ChunkTimeout :: more) in
      Stream.emitted st'
      = Stream.emitted st ++ [Stream.onError Stream.StreamStalled (deltas (Stream.emitted st))]
      /\ Stream.status st' = Stream.Stalled
      /\ streamingHandler providerUrl c (reads ++ Stream.ChunkTimeout :: more)
         = Stream.Upstream providerUrl
           :: (Stream.WriteChunk <$> chunksOf (Stream.emitted st))
           ++ [Stream.WriteError Stream.StreamStalled (deltas (Stream.emitted st));
               Stream.End])
  /\ (forall (text : string) (pre : list string) (bad : string) (post : list string)
             (rest : string),
        Stream.splitLines (Stream.buffer st ++ text) = (pre ++ bad :: post, rest) ->
        let st1 := processLines pre st in
        Stream.status st1 = Stream.Active ->
        String.prefix "data: " bad = true ->
        Stream.trim (Stream.slice 6 bad) <> "[DONE]"%string ->
        throws parse numberToString (Stream.trim (Stream.slice 6 bad)) = true ->
        let st' := streamRequest c (reads ++ Stream.ReadText text :: more) in
        Stream.emitted st `prefix_of` Stream.emitted st1
        /\ Forall isChunk (Stream.emitted st1)
        /\ Stream.emitted st'
           = Stream.emitted st1
             ++ [Stream.onError Stream.MalformedChunk (deltas (Stream.emitted st1))]
        /\ Stream.status st' = Stream.Malformed
        /\ streamingHandler providerUrl c (reads ++ Stream.ReadText text :: more)
           = Stream.Upstream providerUrl
             :: (Stream.WriteChunk <$> chunksOf (Stream.emitted st1))
             ++ [Stream.WriteError Stream.MalformedChunk (deltas (Stream.emitted st1));
                 Stream.End])
  /\ (forall (all : list Stream.Read) (error : Stream.StreamError) (partial : string),
        last (Stream.emitted (streamRequest c all)) = Some (Stream.onError error partial) ->
        Stream.status (streamRequest c all) <> Stream.Active
        /\ partial = deltas (Stream.emitted (streamRequest c all))
        /\ streamingHandler providerUrl c all
           = Stream.Upstream providerUrl
             :: (Stream.WriteChunk <$> chunksOf (Stream.emitted (streamRequest c all)))
             ++ [Stream.WriteError error partial; Stream.End]).
Proof.
  intros st Hact.
  pose proof (streamRequest_active c reads Hact) as Hrun.
  destruct (streamRequest_sound parse numberToString c reads) as [Hp Ha _].
  fold st in Hp, Ha. specialize (Ha Hact).
  assert (Hst : st = readLoop reads Stream.initial) by apply Hrun.
  split; [| split; [| split]].
  - split; [| exact Hp].
    symmetry. apply chunksOf_all_chunks. exact Ha.
  - assert (Hst' : streamRequest c (reads ++ Stream.ChunkTimeout :: more)
                   = Stream.finish st (Stream.onError Stream.StreamStalled
                                         (Stream.partialContent st)) Stream.Stalled).
    { rewrite Hrun, (readLoop_app parse numberToString) by reflexivity.
      rewrite <- Hst, Hact. reflexivity. }
    cbv zeta.
    assert (Hem : Stream.emitted (streamRequest c (reads ++ Stream.ChunkTimeout :: more))
                  = Stream.emitted st
                    ++ [Stream.onError Stream.StreamStalled (deltas (Stream.emitted st))])
      by (rewrite Hst', <- Hp; reflexivity).
    split; [exact Hem |]. split; [now rewrite Hst' |].
    now apply handler_of_failure.
  - intros text pre bad post rest Hsplit st1 Hact1 Hprefix Hdone Hthrows st'.
    assert (Hsound1 : Sound parse numberToString st1).
    { apply processLines_sound; [| exact Hact].
      apply (streamRequest_sound parse numberToString c reads). }
    destruct Hsound1 as [Hp1 Ha1 _]. specialize (Ha1 Hact1).
    assert (Hread : onRead (Stream.ReadText text) st
                    = withBuffer rest
                        (Stream.finish st1
                           (Stream.onError Stream.MalformedChunk (Stream.partialContent st1))
                           Stream.Malformed)).
    { rewrite (onRead_text parse numberToString), Hsplit.
      rewrite (processLines_app parse numberToString) by exact Hact.
      fold st1. rewrite Hact1. cbn [Stream.processLines].
      unfold Stream.processLine. rewrite Hprefix.
      rewrite (processData_throws _ st1 Hdone Hthrows). reflexivity. }
    assert (Hst' : st' = withBuffer rest
                           (Stream.finish st1
                              (Stream.onError Stream.MalformedChunk
                                 (Stream.partialContent st1)) Stream.Malformed)).
    { unfold st'. rewrite Hrun, (readLoop_app parse numberToString) by reflexivity.
      rewrite <- Hst, Hact, (readLoop_cons parse numberToString), Hread. reflexivity. }
    assert (Hem : Stream.emitted st'
                  = Stream.emitted st1
                    ++ [Stream.onError Stream.MalformedChunk (deltas (Stream.emitted st1))])
      by (rewrite Hst', <- Hp1; reflexivity).
    split; [apply (processLines_extends parse numberToString) |].
    split; [exact Ha1 |]. split; [exact Hem |]. split; [now rewrite Hst' |].
    now apply handler_of_failure.
  - intros all error partial Hlast.
    destruct (streamRequest_sound parse numberToString c all) as [Hpa Haa Hea].
    assert (Hended : Stream.status (streamRequest c all) <> Stream.Active).
    { intros Hactive. specialize (Haa Hactive).
      destruct (Stream.emitted (streamRequest c all)) as [| cb cbs _] using rev_ind;
        [discriminate |].
      rewrite last_snoc in Hlast. inversion Hlast; subst cb.
      apply Forall_app in Haa as [_ Haa]. inversion Haa as [| ? ? Hbad _]. exact Hbad. }
    destruct (Hea Hended) as (chunks & final & Hem & Hchunks & Hfinal & Herr).
    rewrite Hem, last_snoc in Hlast. inversion Hlast; subst final.
    split; [exact Hended |]. split.
    + rewrite (Herr error partial eq_refl). exact Hpa.
    + rewrite Hem, chunksOf_snoc_error. now apply handler_of_failure.
Qed.

End StreamFailure.

(** C7 (instance).  Two chunks are forwarded.  If the upstream then goes
    silent, the handler writes the two chunks and the stall error with the
    partial content "Hello world".  If instead the next read brings a chunk
    without content, a line that is no JSON and a third chunk, the handler
    writes the two chunks and the malformed-chunk error with the same partial
    content; the third chunk is never looked at. *)
Lemma C7_stream_failure_witness :
  Stream.status (Stream.streamRequest sampleParse noNumbers (Stream.FetchResponse 200 true)
                   twoChunks) = Stream.Active
  /\ Stream.streamingHandler sampleParse noNumbers "http://localhost:8001"
       (Stream.FetchResponse 200 true) (twoChunks ++ [Stream.ChunkTimeout])
     = [ Stream.Upstream "http://localhost:8001";
         Stream.WriteChunk "chunk-1"; Stream.WriteChunk "chunk-2";
         Stream.WriteError Stream.StreamStalled "Hello world"; Stream.End ]
  /\ Stream.streamingHandler sampleParse noNumbers "http://localhost:8001"
       (Stream.FetchResponse 200 true) (twoChunks ++ [Stream.ReadText garbledRead])
     = [ Stream.Upstream "http://localhost:8001";
         Stream.WriteChunk "chunk-1"; Stream.WriteChunk "chunk-2";
         Stream.WriteError Stream.MalformedChunk "Hello world"; Stream.End ].
Proof.
  assert (Hact : Stream.status (Stream.streamRequest sampleParse noNumbers
                                  (Stream.FetchResponse 200 true) twoChunks)
                 = Stream.Active) by (vm_compute; reflexivity).
  split; [exact Hact |].
  destruct (C7_stream_failure_is_terminal sampleParse noNumbers "http://localhost:8001"
              (Stream.FetchResponse 200 true) twoChunks [] Hact)
    as (_ & (_ & _ & Hstall) & Hmalformed & _).
  split; [exact Hstall |].
  assert (Hsplit : Stream.splitLines
                     (Stream.buffer (Stream.streamRequest sampleParse noNumbers
                                       (Stream.FetchResponse 200 true) twoChunks)
                      ++ garbledRead)
                   = (["data: role-only"%string] ++ "data: {oops"%string
                        :: ["data: chunk-1"%string], ""%string))
    by (vm_compute; reflexivity).
  destruct (Hmalformed garbledRead ["data: role-only"%string] "data: {oops"%string
              ["data: chunk-1"%string] ""%string Hsplit) as (_ & _ & _ & _ & Hhandler).
  - vm_compute; reflexivity.
  - vm_compute; reflexivity.
  - vm_compute. discriminate.
  - vm_compute; reflexivity.
  - exact Hhandler.
Defined.

(** ** The mock provider's stream through the relay *)

Section MockRelay.

Variable parse : string -> option Stream.Json.
Variable stringify : Stream.Json -> string.
Variable numberToString : Q -> string.
Variable parseInt : string -> option Z.

#[local] Abbreviation payload := (mockPayload stringify numberToString).
#[local] Abbreviation eventsFrom := (eventsFrom stringify numberToString).
#[local] Abbreviation jsonRoundTrip := (jsonRoundTrip parse stringify numberToString).

Lemma joinAll_cons (x : string) (l : list string) :
  joinAll (x :: l) = (x ++ joinAll l)%string.
Proof. reflexivity. Qed.

Lemma wire_cons (l : string) (ls : list string) :
  wire (l :: ls) = ((l ++ newline) ++ wire ls)%string.
Proof. reflexivity. Qed.

Lemma eventsFrom_cons i c cs :
  lineText <$> eventsFrom i (c :: cs)
  = ("data: " ++ payload i c)%string :: ""%string :: (lineText <$> eventsFrom (S i) cs).
Proof. reflexivity. Qed.

Lemma wire_event (p rest : string) :
  (("data: " ++ p ++ newline ++ newline) ++ rest)%string
  = (("data: " ++ p) ++ newline ++ "" ++ newline ++ rest)%string.
Proof. now rewrite !string_app_assoc. Qed.

Lemma streamFrom_done failAt i cs :
  (forall n, failAt = Some n -> ~ (0 < n /\ Z.of_nat i + 1 <= n <= Z.of_nat i + Z.of_nat (length cs))) ->
  joinAll (Mock.streamFrom stringify numberToString failAt i cs)
  = (wire (lineText <$> eventsFrom i cs) ++ ("data: " ++ "[DONE]") ++ newline ++ newline)%string.
Proof.
  revert i. induction cs as [| c cs IH]; intros i Hno.
  - reflexivity.
  - cbn [Mock.streamFrom].
    assert (Hcond : match failAt with
                    | Some n => (0 <? n) && (Z.of_nat i + 1 =? n)
                    | None => false
                    end = false).
    { destruct failAt as [n |]; [| reflexivity].
      specialize (Hno n eq_refl). simpl length in Hno.
      destruct (Z.ltb_spec 0 n); [| reflexivity].
      destruct (Z.eqb_spec (Z.of_nat i + 1) n); [| reflexivity]. lia. }
    rewrite Hcond.
    rewrite joinAll_cons.
    rewrite IH by (intros n Hn; specialize (Hno n Hn); simpl length in Hno; lia).
    rewrite wire_event, eventsFrom_cons, !wire_cons.
    now rewrite !string_app_assoc.
Qed.

Lemma streamFrom_broken n i cs :
  0 < n -> Z.of_nat i + 1 <= n <= Z.of_nat i + Z.of_nat (length cs) ->
  joinAll (Mock.streamFrom stringify numberToString (Some n) i cs)
  = (wire (lineText <$> eventsFrom i (take (Z.to_nat (n - 1) - i) cs))
       ++ ("data: " ++ "{" ++ Mock.quote ++ "broken" ++ Mock.quote ++ ": ")
       ++ newline ++ newline)%string.
Proof.
  intros Hn. revert i. induction cs as [| c cs IH]; intros i Hin.
  - simpl length in Hin. lia.
  - cbn [Mock.streamFrom].
    destruct (Z.ltb_spec 0 n) as [_ | ?]; [| lia]. simpl andb.
    destruct (Z.eqb_spec (Z.of_nat i + 1) n) as [Heq | Hne].
    + replace (Z.to_nat (n - 1) - i)%nat with 0%nat by lia.
      rewrite take_0. unfold Mock.broken.
      change (wire (lineText <$> eventsFrom i [])) with ""%string.
      cbn [joinAll foldr]. rewrite string_app_nil_r.
      now rewrite !string_app_assoc.
    + rewrite joinAll_cons.
      rewrite IH by (simpl length in Hin; lia).
      replace (Z.to_nat (n - 1) - i)%nat with (S (Z.to_nat (n - 1) - S i)) by lia.
      rewrite firstn_cons, wire_event, eventsFrom_cons, !wire_cons.
      now rewrite !string_app_assoc.
Qed.

Lemma eventsFrom_wellFormed (i : nat) (cs : list string) :
  (forall (j : nat) c, cs !! j = Some c ->
     c <> ""%string
     /\ parse (payload (i + j)%nat c) = Some (Mock.chunkObject numberToString (i + j)%nat c)
     /\ hasNewline (payload (i + j)%nat c) = false
     /\ Stream.trim (payload (i + j)%nat c) = payload (i + j)%nat c
     /\ payload (i + j)%nat c <> "[DONE]"%string) ->
  Forall (wellFormed parse) (eventsFrom i cs)
  /\ linePayloads (eventsFrom i cs) = imap (fun (j : nat) c => payload (i + j)%nat c) cs
  /\ lineDeltas (eventsFrom i cs) = cs.
Proof.
  revert i. induction cs as [| c cs IH]; intros i Hcs.
  - split; [constructor | split; reflexivity].
  - destruct (Hcs 0%nat c eq_refl) as (Hc & Hparse & Hnl & Htrim & Hdone).
    rewrite Nat.add_0_r in *.
    destruct (IH (S i)) as (Hwf & Hpay & Hdel).
    { intros j c' Hj. replace (S i + j)%nat with (i + S j)%nat by lia.
      now apply (Hcs (S j) c'). }
    split; [| split].
    + cbn [eventsFrom]. constructor; [| constructor; [| exact Hwf]].
      * split; [exact Hnl |]. rewrite Htrim.
        split; [exact Hdone |]. split; [exact Hc |].
        exists (Mock.chunkObject numberToString i c). split; [exact Hparse | reflexivity].
      * split; [reflexivity | left; reflexivity].
    + change (linePayloads (eventsFrom i (c :: cs)))
        with (Stream.trim (payload i c) :: linePayloads (eventsFrom (S i) cs)).
      rewrite Htrim, Hpay. cbn [imap]. rewrite Nat.add_0_r. f_equal.
      apply imap_ext. intros j c' _. simpl. f_equal; f_equal; lia.
    + change (lineDeltas (eventsFrom i (c :: cs))) with (c :: lineDeltas (eventsFrom (S i) cs)).
      now rewrite Hdel.
Qed.

Lemma chunks_non_empty j c : Mock.chunks !! j = Some c -> c <> ""%string.
Proof.
  do 6 (destruct j as [| j]; [intros [= <-]; discriminate |]). discriminate.
Qed.

(** X24.  The stream of the mock provider through the relay.  Provided
    [JSON.parse] reads back what [JSON.stringify] wrote for the mock's chunk
    objects and rejects the malformed event, then however the mock's output
    is cut into reads: with [fail_chunk = n] for n from 1 to 6 the relay
    forwards the first n - 1 chunks and then reports [MalformedChunk] with
    their text as partial content; otherwise it forwards all six chunks and
    then calls [onDone]. *)
Theorem X24_mock_stream_through_the_relay (failChunk : option string)
  (texts : list string) (more : list Stream.Read) (status : Z) :
  jsonRoundTrip ->
  parse ("{" ++ Mock.quote ++ "broken" ++ Mock.quote ++ ":") = None ->
  200 <= status <= 299 ->
  texts <> [] ->
  joinAll texts = joinAll (Mock.handleStreaming stringify numberToString parseInt failChunk) ->
  let st := Stream.streamRequest parse numberToString (Stream.FetchResponse status true)
              ((Stream.ReadText <$> texts) ++ more) in
  let k := sentChunks (Mock.failAt parseInt failChunk) in
  Stream.emitted st
  = (Stream.onChunk <$> imap payload (take k Mock.chunks))
      ++ [if (k <? length Mock.chunks)%nat
          then Stream.onError Stream.MalformedChunk (joinAll (take k Mock.chunks))
          else Stream.onDone]
  /\ Stream.partialContent st = joinAll (take k Mock.chunks).
Proof.
  intros Hjson Hbroken Hstatus Hne Htext st k.
  assert (Hwf : forall n, Forall (wellFormed parse) (eventsFrom 0 (take n Mock.chunks))
                  /\ linePayloads (eventsFrom 0 (take n Mock.chunks))
                     = imap payload (take n Mock.chunks)
                  /\ lineDeltas (eventsFrom 0 (take n Mock.chunks)) = take n Mock.chunks).
  { intros n. apply eventsFrom_wellFormed. intros j c Hj.
    apply lookup_take_Some in Hj as [Hj _].
    destruct (Hjson j c Hj) as (H1 & H2 & H3 & H4).
    split; [exact (chunks_non_empty j c Hj) | auto]. }
  assert (Hobs : observe st
                 = ((Stream.onChunk <$> imap payload (take k Mock.chunks))
                      ++ [if (k <? length Mock.chunks)%nat
                          then Stream.onError Stream.MalformedChunk
                                 (joinAll (take k Mock.chunks))
                          else Stream.onDone],
                    joinAll (take k Mock.chunks),
                    if (k <? length Mock.chunks)%nat then Stream.Malformed
                    else Stream.Completed)).
  { assert (Hends : forall o, observe (Stream.streamRequest parse numberToString
                                 (Stream.FetchResponse status true) (Stream.ReadText <$> texts))
                              = o -> o.2 <> Stream.Active -> observe st = o).
    { intros o <- Hact. subst st.
      destruct (streamRequest_more parse numberToString
                  (Stream.FetchResponse status true) (Stream.ReadText <$> texts) more)
        as [_ Hsame].
      now rewrite Hsame. }
    unfold Mock.handleStreaming in Htext.
    set (f := Mock.failAt parseInt failChunk) in *.
    assert (Hcase : (exists n, f = Some n /\ 0 < n <= Z.of_nat (length Mock.chunks))
                    \/ (forall n, f = Some n ->
                          ~ (0 < n /\ Z.of_nat 0 + 1 <= n
                                      <= Z.of_nat 0 + Z.of_nat (length Mock.chunks)))).
    { destruct f as [n |]; [| right; discriminate].
      destruct (Z.ltb_spec 0 n); [| right; intros ? [= <-]; lia].
      destruct (Z.leb_spec n (Z.of_nat (length Mock.chunks)));
        [left; exists n; split; [reflexivity | lia] | right; intros ? [= <-]; lia]. }
    destruct Hcase as [(n & Hf & Hn) | Hno].
    - assert (Hk : k = Z.to_nat (n - 1)).
      { subst k. unfold sentChunks. rewrite Hf.
        destruct (Z.ltb_spec 0 n); [| lia].
        destruct (Z.leb_spec n (Z.of_nat (length Mock.chunks))); [reflexivity | lia]. }
      rewrite Hf, (streamFrom_broken n 0 Mock.chunks) in Htext by lia.
      rewrite Nat.sub_0_r, <- Hk in Htext.
      destruct (Hwf k) as (Hall & Hpay & Hdel).
      apply Hends.
      + rewrite (relay_of_lines parse numberToString _
                   ("{" ++ Mock.quote ++ "broken" ++ Mock.quote ++ ": ")%string newline
                   texts status Hall eq_refl (or_intror Hbroken) Hstatus Hne Htext).
        rewrite Hpay, Hdel.
        replace (k <? length Mock.chunks)%nat with true
          by (symmetry; apply Nat.ltb_lt; lia).
        reflexivity.
      + replace (k <? length Mock.chunks)%nat with true
          by (symmetry; apply Nat.ltb_lt; lia). discriminate.
    - assert (Hk : k = length Mock.chunks).
      { subst k. unfold sentChunks. destruct f as [n |]; [| reflexivity].
        destruct (Z.ltb_spec 0 n); [| reflexivity].
        destruct (Z.leb_spec n (Z.of_nat (length Mock.chunks))); [| reflexivity].
        exfalso. apply (Hno n eq_refl). lia. }
      rewrite (streamFrom_done f 0 Mock.chunks Hno) in Htext.
      destruct (Hwf k) as (Hall & Hpay & Hdel).
      rewrite Hk, firstn_all in Hall, Hpay, Hdel.
      apply Hends.
      + rewrite (relay_of_lines parse numberToString _ "[DONE]"%string newline
                   texts status Hall eq_refl (or_introl eq_refl) Hstatus Hne Htext).
        rewrite Hpay, Hdel, Hk, firstn_all, Nat.ltb_irrefl. reflexivity.
      + rewrite Hk, Nat.ltb_irrefl. discriminate. }
  unfold observe in Hobs. now injection Hobs as -> -> _.
Qed.

End MockRelay.

(** X24 (instance).  The mock asked to fail at chunk 3, its writes
    delivered as they are. *)
Lemma mock_jsonRoundTrip : jsonRoundTrip mockParse sampleStringify noNumbers.
Proof.
  intros i chunk Hi.
  do 6 (destruct i as [| i];
        [injection Hi as <-; repeat split; try reflexivity; discriminate |]).
  discriminate.
Qed.

Lemma X24_mock_stream_witness :
  Stream.emitted
    (Stream.streamRequest mockParse noNumbers (Stream.FetchResponse 200 true)
       ((Stream.ReadText
           <$> Mock.handleStreaming sampleStringify noNumbers sampleParseInt (Some "3"%string))
        ++ [Stream.ReadDone]))
  = [Stream.onChunk "mock-|Hello"; Stream.onChunk "mock-| from";
     Stream.onError Stream.MalformedChunk "Hello from"].
Proof.
  refine (proj1 (X24_mock_stream_through_the_relay mockParse sampleStringify noNumbers
                   sampleParseInt (Some "3"%string)
                   (Mock.handleStreaming sampleStringify noNumbers sampleParseInt
                      (Some "3"%string))
                   [Stream.ReadDone] 200 mock_jsonRoundTrip _ _ _ _)).
  - reflexivity.
  - lia.
  - discriminate.
  - reflexivity.
Defined.

(** ** Request validation and the HTTP handler *)

Lemma validateMessages_None i messages :
  Api.validateMessages i messages = None
  <-> Forall (fun m => Api.Role m <> ""%string /\ Api.Content m <> ""%string) messages.
Proof.
  revert i. induction messages as [| m rest IH]; intros i; simpl.
  - split; [constructor | reflexivity].
  - destruct (String.eqb_spec (Api.Role m) "") as [Hr | Hr].
    { split; [discriminate | intros H; inversion H as [| ? ? [Hr' Hc'] _]; contradiction]. }
    destruct (String.eqb_spec (Api.Content m) "") as [Hc | Hc].
    { split; [discriminate | intros H; inversion H as [| ? ? [Hr' Hc'] _]; contradiction]. }
    rewrite IH. split; [intros H; constructor; auto | intros H; now inversion H].
Qed.

Lemma validateMessages_Some i messages e :
  Api.validateMessages i messages = Some e ->
  exists j m,
    messages !! j = Some m
    /\ Forall (fun m => Api.Role m <> ""%string /\ Api.Content m <> ""%string)
              (take j messages)
    /\ ((e = Api.RoleRequired (i + j) /\ Api.Role m = ""%string)
        \/ (e = Api.ContentRequired (i + j) /\ Api.Role m <> ""%string
            /\ Api.Content m = ""%string)).
Proof.
  revert i. induction messages as [| m rest IH]; intros i; simpl; [discriminate |].
  destruct (String.eqb_spec (Api.Role m) "") as [Hr | Hr].
  { intros [= <-]. exists 0%nat, m. rewrite Nat.add_0_r.
    split; [reflexivity | split; [constructor | left; auto]]. }
  destruct (String.eqb_spec (Api.Content m) "") as [Hc | Hc].
  { intros [= <-]. exists 0%nat, m. rewrite Nat.add_0_r.
    split; [reflexivity | split; [constructor | right; auto]]. }
  intros H. apply IH in H as (j & m' & Hj & Hbefore & He).
  exists (S j), m'. simpl. split; [exact Hj |]. split; [constructor; auto |].
  now replace (i + S j)%nat with (S i + j)%nat by lia.
Qed.

Lemma string_length_app (a b : string) :
  String.length (a ++ b) = (String.length a + String.length b)%nat.
Proof.
  induction a as [| c a IH]; [reflexivity |].
  change (S (String.length (a ++ b)) = S (String.length a + String.length b)).
  now rewrite IH.
Qed.

Lemma totalChars_from (acc : Z) (messages : list Api.Message) :
  foldl (fun total msg => total + Z.of_nat (String.length (Api.Content msg))) acc messages
  = acc + Z.of_nat (String.length (allContent messages)).
Proof.
  revert acc. induction messages as [| m rest IH]; intros acc; simpl.
  - change (allContent []) with ""%string. simpl. lia.
  - rewrite IH.
    change (allContent (m :: rest)) with (Api.Content m ++ allContent rest)%string.
    rewrite string_length_app. lia.
Qed.

(** X25.  [CountTokens] is a quarter of the total length of the message
    contents, rounded down; it depends on the contents only through their
    concatenation. *)
Theorem X25_CountTokens_is_a_quarter_of_the_content (messages : list Api.Message) :
  Api.CountTokens messages = Z.of_nat (String.length (allContent messages)) / 4
  /\ 0 <= Api.CountTokens messages
  /\ 4 * Api.CountTokens messages <= Z.of_nat (String.length (allContent messages))
     < 4 * Api.CountTokens messages + 4.
Proof.
  unfold Api.CountTokens, Api.totalChars. rewrite totalChars_from, Z.add_0_l.
  set (n := Z.of_nat (String.length (allContent messages))).
  assert (Hn : 0 <= n) by lia.
  rewrite Z.quot_div_nonneg by lia.
  pose proof (Z.div_mod n 4 ltac:(lia)). pose proof (Z.mod_pos_bound n 4 ltac:(lia)).
  pose proof (Z.div_pos n 4 Hn ltac:(lia)). lia.
Qed.

(** X26.  [ValidateRequest] accepts a request exactly when the model is
    named, there is at least one message, every message has a role and a
    content, the temperature is between 0 and 2, and, if the validator knows
    a token limit for the model, [max_tokens] is at most the limit (or not
    positive) and the estimated input tokens are at most the limit.  A model
    the validator has no limit for is never rejected for its size. *)
Theorem X26_ValidateRequest_accepts (v : Api.Validator) (req : Api.Request) :
  Api.ValidateRequest v req = None
  <-> Api.Model req <> ""%string
      /\ Api.Messages req <> []
      /\ Forall (fun m => Api.Role m <> ""%string /\ Api.Content m <> ""%string)
                (Api.Messages req)
      /\ (0 <= Api.Temperature req <= 2)%Q
      /\ forall limit, Api.maxTokenLimits v !! Api.Model req = Some limit ->
           Api.MaxTokens req <= Z.max 0 limit
           /\ Api.CountTokens (Api.Messages req) <= limit.
Proof.
  unfold Api.ValidateRequest, Api.CountTokens.
  destruct (String.eqb_spec (Api.Model req) "") as [Hm | Hm].
  { split; [discriminate | tauto]. }
  destruct (Api.Messages req) as [| m rest] eqn:Hms.
  { simpl. split; [discriminate | tauto]. }
  rewrite <- Hms. replace (length (Api.Messages req) =? 0)%nat with false
    by (rewrite Hms; reflexivity).
  destruct (Api.validateMessages 0 (Api.Messages req)) as [e |] eqn:Hv.
  { split; [discriminate |]. intros (_ & _ & Hall & _).
    apply (validateMessages_None 0) in Hall. rewrite Hall in Hv. discriminate. }
  apply validateMessages_None in Hv.
  destruct (Qle_bool 0 (Api.Temperature req)) eqn:Hlo; simpl.
  2:{ split; [discriminate |]. intros (_ & _ & _ & [Ht _] & _).
      apply Qle_bool_iff in Ht. congruence. }
  destruct (Qle_bool (Api.Temperature req) 2) eqn:Hhi; simpl.
  2:{ split; [discriminate |]. intros (_ & _ & _ & [_ Ht] & _).
      apply Qle_bool_iff in Ht. congruence. }
  apply Qle_bool_iff in Hlo, Hhi.
  assert (Hbase : Api.Model req <> ""%string /\ Api.Messages req <> []
                  /\ Forall (fun m => Api.Role m <> ""%string /\ Api.Content m <> ""%string)
                            (Api.Messages req)
                  /\ (0 <= Api.Temperature req <= 2)%Q)
    by (rewrite Hms at 1; repeat split; try discriminate; auto; now rewrite <- Hms).
  destruct (Api.maxTokenLimits v !! Api.Model req) as [limit |] eqn:Hl.
  2:{ destruct (0 <? Api.MaxTokens req); split; try reflexivity;
        intros _; (split; [apply Hbase | split; [apply Hbase | split; [apply Hbase |
                   split; [apply Hbase | intros limit; discriminate]]]]). }
  destruct (Z.ltb_spec 0 (Api.MaxTokens req)) as [Hpos | Hpos].
  - destruct (Z.ltb_spec limit (Api.MaxTokens req)) as [Hover | Hok].
    { split; [discriminate |]. intros (_ & _ & _ & _ & H).
      destruct (H limit eq_refl) as [H1 _]. lia. }
    destruct (Z.ltb_spec limit (Api.totalChars (Api.Messages req) ÷ 4)) as [Hover | Hok'].
    { split; [discriminate |]. intros (_ & _ & _ & _ & H).
      destruct (H limit eq_refl) as [_ H2]. lia. }
    split; [intros _ | reflexivity].
    split; [apply Hbase | split; [apply Hbase | split; [apply Hbase | split; [apply Hbase |]]]].
    intros limit' [= <-]. lia.
  - destruct (Z.ltb_spec limit (Api.totalChars (Api.Messages req) ÷ 4)) as [Hover | Hok'].
    { split; [discriminate |]. intros (_ & _ & _ & _ & H).
      destruct (H limit eq_refl) as [_ H2]. lia. }
    split; [intros _ | reflexivity].
    split; [apply Hbase | split; [apply Hbase | split; [apply Hbase | split; [apply Hbase |]]]].
    intros limit' [= <-]. lia.
Qed.

(** X27.  Each validation error names the first check that failed, all
    checks before it having passed: the checks run in the order model,
    messages present, each message's role then content (the index reported is
    that of the first message lacking one), temperature, [max_tokens], input
    size. *)
Theorem X27_ValidateRequest_reports_the_first_failed_check (v : Api.Validator)
  (req : Api.Request) (e : Api.ValidationError) :
  Api.ValidateRequest v req = Some e ->
  match e with
  | Api.ModelRequired => Api.Model req = ""%string
  | Api.MessageRequired => Api.Model req <> ""%string /\ Api.Messages req = []
  | Api.RoleRequired i =>
      Api.Model req <> ""%string
      /\ Forall filled (take i (Api.Messages req))
      /\ exists m, Api.Messages req !! i = Some m /\ Api.Role m = ""%string
  | Api.ContentRequired i =>
      Api.Model req <> ""%string
      /\ Forall filled (take i (Api.Messages req))
      /\ exists m, Api.Messages req !! i = Some m /\ Api.Role m <> ""%string
                   /\ Api.Content m = ""%string
  | Api.TemperatureOutOfRange =>
      Api.Model req <> ""%string /\ Api.Messages req <> []
      /\ Forall filled (Api.Messages req)
      /\ ((Api.Temperature req < 0)%Q \/ (2 < Api.Temperature req)%Q)
  | Api.MaxTokensExceedsLimit limit model =>
      Api.Model req <> ""%string /\ Api.Messages req <> []
      /\ Forall filled (Api.Messages req)
      /\ (0 <= Api.Temperature req <= 2)%Q
      /\ model = Api.Model req
      /\ Api.maxTokenLimits v !! Api.Model req = Some limit
      /\ 0 < Api.MaxTokens req /\ limit < Api.MaxTokens req
  | Api.InputExceedsLimit estimatedTokens limit =>
      Api.Model req <> ""%string /\ Api.Messages req <> []
      /\ Forall filled (Api.Messages req)
      /\ (0 <= Api.Temperature req <= 2)%Q
      /\ Api.maxTokenLimits v !! Api.Model req = Some limit
      /\ Api.MaxTokens req <= Z.max 0 limit
      /\ estimatedTokens = Api.CountTokens (Api.Messages req)
      /\ limit < estimatedTokens
  end.
Proof.
  unfold Api.ValidateRequest, Api.CountTokens.
  destruct (String.eqb_spec (Api.Model req) "") as [Hm | Hm]; [now intros [= <-] |].
  destruct (Api.Messages req) as [| m rest] eqn:Hms; [now intros [= <-] |].
  rewrite <- Hms. replace (length (Api.Messages req) =? 0)%nat with false
    by (rewrite Hms; reflexivity).
  assert (Hne : Api.Messages req <> []) by (rewrite Hms; discriminate).
  destruct (Api.validateMessages 0 (Api.Messages req)) as [e' |] eqn:Hv.
  { intros [= <-]. apply validateMessages_Some in Hv as (j & m' & Hj & Hbefore & He).
    simpl in He. destruct He as [[-> Hr] | [-> [Hr Hc]]]; eauto 10. }
  apply validateMessages_None in Hv.
  destruct (Qle_bool 0 (Api.Temperature req)) eqn:Hlo; simpl.
  2:{ intros [= <-]. split; [exact Hm |]. split; [exact Hne |]. split; [exact Hv |].
      left. apply Qnot_le_lt. intros H. apply Qle_bool_iff in H. congruence. }
  destruct (Qle_bool (Api.Temperature req) 2) eqn:Hhi; simpl.
  2:{ intros [= <-]. split; [exact Hm |]. split; [exact Hne |]. split; [exact Hv |].
      right. apply Qnot_le_lt. intros H. apply Qle_bool_iff in H. congruence. }
  apply Qle_bool_iff in Hlo, Hhi.
  destruct (Api.maxTokenLimits v !! Api.Model req) as [limit |] eqn:Hl.
  2:{ destruct (0 <? Api.MaxTokens req); discriminate. }
  destruct (Z.ltb_spec 0 (Api.MaxTokens req)) as [Hpos | Hpos].
  - destruct (Z.ltb_spec limit (Api.MaxTokens req)) as [Hover | Hok].
    { intros [= <-]. auto 10. }
    destruct (Z.ltb_spec limit (Api.totalChars (Api.Messages req) ÷ 4)) as [Hover | Hok'];
      [| discriminate].
    intros [= <-]. repeat (split; [assumption || lia || reflexivity || (split; assumption) |]). exact Hover.
  - destruct (Z.ltb_spec limit (Api.totalChars (Api.Messages req) ÷ 4)) as [Hover | Hok'];
      [| discriminate].
    intros [= <-]. repeat (split; [assumption || lia || reflexivity || (split; assumption) |]). exact Hover.
Qed.

(** X27 (instance).  A request whose second message has no content. *)
Lemma X27_first_failed_check_witness :
  Api.ValidateRequest Api.NewValidator emptySecondMessage = Some (Api.ContentRequired 1)
  /\ exists m, Api.Messages emptySecondMessage !! 1%nat = Some m
               /\ Api.Role m <> ""%string /\ Api.Content m = ""%string.
Proof.
  assert (H : Api.ValidateRequest Api.NewValidator emptySecondMessage
              = Some (Api.ContentRequired 1)) by reflexivity.
  split; [exact H |].
  exact (proj2 (proj2 (X27_ValidateRequest_reports_the_first_failed_check Api.NewValidator
                         emptySecondMessage _ H))).
Defined.

Lemma serving_nil model providers :
  (forall p, p ∈ providers -> model ∉ Go.Models p) -> serving model providers = [].
Proof.
  intros Hnone. unfold serving.
  induction providers as [| p ps IH]; [reflexivity |].
  change ((p :: ps) ≫= (fun p => (fun _ => Go.Name p) <$> filter (fun m => m = model) (Go.Models p)))
    with (((fun _ => Go.Name p) <$> filter (fun m => m = model) (Go.Models p))
          ++ (ps ≫= (fun p => (fun _ => Go.Name p) <$> filter (fun m => m = model) (Go.Models p)))).
  rewrite IH by (intros q Hq; apply Hnone; now apply list_elem_of_further).
  rewrite app_nil_r.
  assert (Hf : filter (fun m => m = model) (Go.Models p) = []).
  { assert (Hp : model ∉ Go.Models p) by (apply Hnone, list_elem_of_here).
    clear -Hp. induction (Go.Models p) as [| m ms IHm]; [reflexivity |].
    rewrite filter_cons. destruct (decide (m = model)) as [-> | _].
    - exfalso. apply Hp, list_elem_of_here.
    - apply IHm. intros H. apply Hp. now apply list_elem_of_further. }
  now rewrite Hf.
Qed.

(** X28.  [ChatCompletion] answers 400, 500 or 200.  It answers 400 exactly
    when the body does not bind or the request fails validation, and then
    nothing else happened (no provider contacted, no breaker created).  It
    answers 200 exactly when it returns a completion.  A valid request for a
    model that no configured provider lists is answered 500, again without
    contacting anyone. *)
Theorem X28_ChatCompletion_answers (cfg : Go.Config) (env : Go.Env) (v : Api.Validator)
  (bound : option Api.Request) (w : Go.World) :
  let r := Go.NewProviderRouter (Go.Providers cfg) in
  let '(status, body, w') := Api.ChatCompletion cfg env v r bound w in
  (status = 400
   <-> bound = None \/ exists req e, bound = Some req /\ Api.ValidateRequest v req = Some e)
  /\ (status = 400 -> w' = w)
  /\ (status = 200 \/ status = 400 \/ status = 500)
  /\ (status = 200 <-> exists response, body = Api.Completion response)
  /\ (forall req, bound = Some req -> Api.ValidateRequest v req = None ->
      (forall p, p ∈ Go.Providers cfg -> Api.Model req ∉ Go.Models p) ->
      status = 500 /\ w' = w).
Proof.
  intros r. unfold Api.ChatCompletion.
  destruct bound as [req |].
  2:{ split; [split; [intros _; now left | reflexivity] |].
      split; [reflexivity |]. split; [auto |].
      split; [split; [discriminate | intros [response H]; discriminate] |].
      intros req; discriminate. }
  destruct (Api.ValidateRequest v req) as [e |] eqn:Hv.
  { split; [split; eauto |]. split; [reflexivity |]. split; [auto |].
    split; [split; [discriminate | intros [response H]; discriminate] |].
    intros req' [= <-] Hok. congruence. }
  destruct (Go.ExecuteRequest cfg env r (Api.engineRequest req) w)
    as [[res attempts] w'] eqn:Hexec.
  assert (Hnone : (forall p, p ∈ Go.Providers cfg -> Api.Model req ∉ Go.Models p) ->
                  exists e, res = inr e /\ w' = w).
  { intros Hno. unfold Go.ExecuteRequest in Hexec.
    destruct (Z.to_nat (Go.MaxRetries (Go.Retry cfg))) as [| n]; simpl in Hexec.
    - injection Hexec as <- _ <-. eauto.
    - assert (Hsel : Go.SelectProvider r (Api.engineRequest req) 1 "" = inr Go.OtherError).
      { unfold Go.SelectProvider. subst r. unfold Go.NewProviderRouter. simpl.
        rewrite register_providers, lookup_empty. simpl.
        now rewrite (serving_nil _ _ Hno). }
      rewrite Hsel in Hexec. injection Hexec as <- _ <-. eauto. }
  destruct res as [response | e].
  - split; [split; [discriminate |] |].
    { intros [H | (req' & e & [= <-] & He)]; congruence. }
    split; [discriminate |]. split; [auto |].
    split; [split; eauto |].
    intros req' [= <-] _ Hno. destruct (Hnone Hno) as (e & He & _). discriminate.
  - split; [split; [discriminate |] |].
    { intros [H | (req' & e' & [= <-] & He)]; congruence. }
    split; [discriminate |]. split; [auto |].
    split; [split; [discriminate | intros [response H]; discriminate] |].
    intros req' [= <-] _ Hno. destruct (Hnone Hno) as (e' & _ & ->). auto.
Qed.
